(** * Parakeet speech-to-text core: a shallow embedding and its properties

    The development follows the Go package [asr]: the RIFF/WAVE reader and
    PCM decoder, the linear resampler, the mel feature extractor, the
    vocabulary loader and the TDT greedy decoding loop, and the timestamps
    of the server's subtitle answers.  Go integers are
    modelled as [Z] (with the wrap-around of fixed-width types written out
    where an operation can leave the range), byte slices as [list byte],
    the vocabulary as a finite map, and the floating-point operations the
    code performs as an interface with two interpretations: IEEE-754
    binary32/binary64 (bit exact, executable) and exact real arithmetic.
    Logging under [DebugMode] has no effect on results and is left out. *)

From Stdlib Require Import ZArith List Lia String Ascii Bool.
From Stdlib Require Import Strings.Byte.
From Stdlib Require Import QArith Reals Qreals Lra.
From Stdlib Require Import Floats.SpecFloat.
From Stdlib Require Import DecimalString.
From stdpp Require Import base option list gmap strings.
Import ListNotations.

Open Scope Z_scope.

(* ================================================================== *)
(** * Part I: the embedding                                            *)
(* ================================================================== *)

(** ** Go conventions *)

(** Error values of the package, one constructor per [fmt.Errorf] site;
    [%w] wrapping keeps the cause. *)
Inductive Error : Type :=
| ErrWavTooSmall
| ErrNotRIFF
| ErrNotWAVE
| ErrFmtChunkTooSmall
| ErrNoDataChunk
| ErrUnsupportedAudioFormat (audioFormat : Z)
| ErrUnsupportedBits (bitsPerSample : Z)
| ErrNeedsFfmpeg (format : string)
| ErrLoadAudio (cause : Error)
| ErrNoFeatures
| ErrInferenceFailed (cause : Error)
| ErrDecodingFailed (cause : Error)
| ErrConfig (cause : Error)
| ErrLoadVocab (cause : Error)
| ErrRuntimeInit (cause : Error)
| ErrRuntimeNotFound
| ErrEncoderNotFound
| ErrDecoderNotFound
| ErrIO (what : string)
| ErrRuntime (what : string).

(** Run-time panics the modelled code can raise. *)
Inductive PanicKind : Type :=
| DivideByZero
| IndexOutOfRange
| SliceBoundsOutOfRange
| MakeSliceLenOutOfRange
| NilPointerDereference.

(** Outcome of a call: a value, a returned [error], a panic, or (for
    loops run on fuel) exhaustion of the fuel. *)
Inductive Res (A : Type) : Type :=
| Ok (a : A)
| Err (e : Error)
| Panic (p : PanicKind)
| OutOfFuel.
Arguments Ok {A} a.
Arguments Err {A} e.
Arguments Panic {A} p.
Arguments OutOfFuel {A}.

#[global] Instance Res_ret : MRet Res := fun A a => Ok a.
#[global] Instance Res_bind : MBind Res := fun A B f r =>
  match r with
  | Ok a => f a
  | Err e => Err e
  | Panic p => Panic p
  | OutOfFuel => OutOfFuel
  end.
#[global] Instance Res_fmap : FMap Res := fun A B f r =>
  match r with
  | Ok a => Ok (f a)
  | Err e => Err e
  | Panic p => Panic p
  | OutOfFuel => OutOfFuel
  end.

(** A call into a library that returns a value or an [error]. *)
Definition of_call {A : Type} (r : Error + A) : Res A :=
  match r with
  | inl e => Err e
  | inr a => Ok a
  end.

(** [len(s)] as a Go [int]. *)
Definition len {A : Type} (l : list A) : Z := Z.of_nat (length l).

(** [s[i]], panicking out of range. *)
Definition index {A : Type} (l : list A) (i : Z) : Res A :=
  if (0 <=? i) && (i <? len l)
  then match l !! Z.to_nat i with Some a => Ok a | None => Panic IndexOutOfRange end
  else Panic IndexOutOfRange.

(** [s[lo:hi]]; the capacity of the slice is taken to be its length. *)
Definition slice {A : Type} (l : list A) (lo hi : Z) : Res (list A) :=
  if (0 <=? lo) && (lo <=? hi) && (hi <=? len l)
  then Ok (take (Z.to_nat (hi - lo)) (drop (Z.to_nat lo) l))
  else Panic SliceBoundsOutOfRange.

(** [copy(dst, src)]: the first [min(len dst, len src)] elements. *)
Definition copy {A : Type} (dst src : list A) : list A :=
  take (length dst) src ++ drop (length src) dst.

(** Fixed-width integers. *)
Definition max_int64 : Z := 9223372036854775807.
Definition min_int64 : Z := -9223372036854775808.

Definition wrap_signed (bits : Z) (n : Z) : Z :=
  let m := n mod 2 ^ bits in
  if m <? 2 ^ (bits - 1) then m else m - 2 ^ bits.

Definition to_int16 (n : Z) : Z := wrap_signed 16 n.
Definition to_int32 (n : Z) : Z := wrap_signed 32 n.
Definition to_int64 (n : Z) : Z := wrap_signed 64 n.

Definition u8 (b : byte) : Z := Z.of_N (Byte.to_N b).

(** [binary.LittleEndian.Uint16] and [Uint32]. *)
Definition LittleEndian_Uint16 (b : list byte) : Res Z :=
  match b with
  | b0 :: b1 :: _ => Ok (Z.lor (u8 b0) (Z.shiftl (u8 b1) 8))
  | _ => Panic IndexOutOfRange
  end.

Definition LittleEndian_Uint32 (b : list byte) : Res Z :=
  match b with
  | b0 :: b1 :: b2 :: b3 :: _ =>
      Ok (Z.lor (Z.lor (Z.lor (u8 b0) (Z.shiftl (u8 b1) 8))
                       (Z.shiftl (u8 b2) 16)) (Z.shiftl (u8 b3) 24))
  | _ => Panic IndexOutOfRange
  end.

Fixpoint bytes_eqb (a b : list byte) : bool :=
  match a, b with
  | [], [] => true
  | x :: a', y :: b' => Byte.eqb x y && bytes_eqb a' b'
  | _, _ => false
  end.

Definition tag_RIFF : list byte := [x52; x49; x46; x46].
Definition tag_WAVE : list byte := [x57; x41; x56; x45].
Definition tag_fmt : list byte := [x66; x6d; x74; x20].
Definition tag_data : list byte := [x64; x61; x74; x61].

(** ** Floating point *)

(** The operations of Go's [float32] and [float64] that the package uses.
    [f64_const q] is the constant literal [q] converted to [float64]. *)
Class FloatOps : Type := {
  float32 : Type;
  float64 : Type;
  f64_add : float64 -> float64 -> float64;
  f64_sub : float64 -> float64 -> float64;
  f64_mul : float64 -> float64 -> float64;
  f64_div : float64 -> float64 -> float64;
  f64_lt : float64 -> float64 -> bool;
  f32_add : float32 -> float32 -> float32;
  f32_sub : float32 -> float32 -> float32;
  f32_mul : float32 -> float32 -> float32;
  f32_gt : float32 -> float32 -> bool;
  to_float64 : float32 -> float64;
  to_float32 : float64 -> float32;
  f64_of_int : Z -> float64;
  int_of_f64 : float64 -> Z;
  f64_const : Q -> float64;
  f32_const : Q -> float32;
  math_Sqrt : float64 -> float64;
  math_Float32frombits : Z -> float32
}.

(** Functions of package [math] and [math/cmplx] whose results are not
    fixed by IEEE-754; they stay parameters. *)
Class MathLib `{FloatOps} : Type := {
  math_Cos : float64 -> float64;
  math_Log : float64 -> float64;
  math_Log2 : float64 -> float64;
  math_Log10 : float64 -> float64;
  math_Pow : float64 -> float64 -> float64;
  math_Floor : float64 -> float64;
  cmplx_Exp : float64 * float64 -> float64 * float64
}.

(** ** The RIFF/WAVE reader (parseWAV, convertToFloat32, resample) *)

Section Wav.
Context `{FloatOps}.

(** One channel value of one sample: the [switch bitsPerSample] of
    [convertToFloat32]. *)
Definition pcmValue (data : list byte) (audioFormat bitsPerSample offset : Z)
  : Res float64 :=
  if bitsPerSample =? 8 then
    b ← index data offset;
    Ok (f64_sub (f64_div (f64_of_int (u8 b)) (f64_const 128)) (f64_const 1))
  else if bitsPerSample =? 16 then
    bs ← slice data offset (offset + 2);
    u ← LittleEndian_Uint16 bs;
    Ok (f64_div (f64_of_int (to_int16 u)) (f64_const 32768))
  else if bitsPerSample =? 24 then
    b ← slice data offset (offset + 3);
    b0 ← index b 0; b1 ← index b 1; b2 ← index b 2;
    let sample := Z.lor (Z.lor (u8 b0) (Z.shiftl (u8 b1) 8)) (Z.shiftl (u8 b2) 16) in
    let sample := if Z.land sample 8388608 =? 0 then sample
                  else to_int32 (Z.lor sample (Z.lnot 16777215)) in
    Ok (f64_div (f64_of_int sample) (f64_const 8388608))
  else if bitsPerSample =? 32 then
    bs ← slice data offset (offset + 4);
    bits ← LittleEndian_Uint32 bs;
    if audioFormat =? 3
    then Ok (to_float64 (math_Float32frombits bits))
    else Ok (f64_div (f64_of_int (to_int32 bits)) (f64_const 2147483648))
  else Err (ErrUnsupportedBits bitsPerSample).

(** The inner loop over channels of sample [i]: [n] channels remain,
    [ch] is the next one, [sum] the running sum. *)
Fixpoint sumChannels (data : list byte) (audioFormat numChannels bitsPerSample : Z)
    (bytesPerSample i : Z) (n : nat) (ch : Z) (sum : float64) : Res float64 :=
  match n with
  | O => Ok sum
  | S n' =>
      let offset := (i * numChannels + ch) * bytesPerSample in
      if offset + bytesPerSample >? len data then Ok sum
      else
        val ← pcmValue data audioFormat bitsPerSample offset;
        sumChannels data audioFormat numChannels bitsPerSample bytesPerSample i
                    n' (ch + 1) (f64_add sum val)
  end.

Definition convertSample (data : list byte) (audioFormat numChannels bitsPerSample : Z)
    (bytesPerSample i : Z) : Res float32 :=
  sum ← sumChannels data audioFormat numChannels bitsPerSample bytesPerSample i
        (Z.to_nat numChannels) 0 (f64_const 0);
  Ok (to_float32 (f64_div sum (f64_of_int numChannels))).

Definition convertToFloat32 (data : list byte)
    (audioFormat numChannels bitsPerSample : Z) : Res (list float32) :=
  if negb (audioFormat =? 1) && negb (audioFormat =? 3)
  then Err (ErrUnsupportedAudioFormat audioFormat)
  else
    let bytesPerSample := bitsPerSample / 8 in
    let divisor := bytesPerSample * numChannels in
    if divisor =? 0 then Panic DivideByZero
    else
      let numSamples := len data / divisor in
      mapM (convertSample data audioFormat numChannels bitsPerSample bytesPerSample)
           (seqZ 0 numSamples).

(** One output sample of [resample]. *)
Definition resampleAt (samples : list float32) (ratio : float64) (i : Z)
  : Res float32 :=
  let srcIdx := f64_mul (f64_of_int i) ratio in
  let lo := int_of_f64 srcIdx in
  let hi := lo + 1 in
  let hi := if hi >=? len samples then len samples - 1 else hi in
  let frac := to_float32 (f64_sub srcIdx (f64_of_int lo)) in
  slo ← index samples lo;
  shi ← index samples hi;
  Ok (f32_add (f32_mul slo (f32_sub (f32_const 1) frac)) (f32_mul shi frac)).

Definition resampleLen (n srcRate dstRate : Z) : Z :=
  let ratio := f64_div (f64_of_int srcRate) (f64_of_int dstRate) in
  int_of_f64 (f64_div (f64_of_int n) ratio).

(** The output length [parseWAV] announces in its debug message before it
    calls [resample]: [int(float64(len(samples))*16000.0/float64(sampleRate))]. *)
Definition announcedLen (n sampleRate : Z) : Z :=
  int_of_f64 (f64_div (f64_mul (f64_of_int n) (f64_const 16000)) (f64_of_int sampleRate)).

Definition resample (samples : list float32) (srcRate dstRate : Z)
  : Res (list float32) :=
  if srcRate =? dstRate then Ok samples
  else
    let ratio := f64_div (f64_of_int srcRate) (f64_of_int dstRate) in
    let newLen := int_of_f64 (f64_div (f64_of_int (len samples)) ratio) in
    if newLen <? 0 then Panic MakeSliceLenOutOfRange
    else mapM (resampleAt samples ratio) (seqZ 0 newLen).

(** The fields of the [fmt ] chunk that [parseWAV] keeps. *)
Record FmtChunk : Type := {
  fmt_audioFormat : Z;
  fmt_numChannels : Z;
  fmt_sampleRate : Z;
  fmt_bitsPerSample : Z
}.

Definition readFmt (data : list byte) (offset : Z) : Res FmtChunk :=
  b ← slice data (offset + 8) (offset + 10);
  af ← LittleEndian_Uint16 b;
  b ← slice data (offset + 10) (offset + 12);
  nc ← LittleEndian_Uint16 b;
  b ← slice data (offset + 12) (offset + 16);
  sr ← LittleEndian_Uint32 b;
  b ← slice data (offset + 16) (offset + 20);
  _ ← LittleEndian_Uint32 b;
  b ← slice data (offset + 20) (offset + 22);
  _ ← LittleEndian_Uint16 b;
  b ← slice data (offset + 22) (offset + 24);
  bps ← LittleEndian_Uint16 b;
  Ok {| fmt_audioFormat := af; fmt_numChannels := nc;
        fmt_sampleRate := sr; fmt_bitsPerSample := bps |}.

Definition readData (data : list byte) (offset chunkSize : Z) (fmt : FmtChunk)
  : Res (list float32) :=
  let dataStart := offset + 8 in
  let dataEnd := dataStart + chunkSize in
  let dataEnd := if dataEnd >? len data then len data else dataEnd in
  audioData ← slice data dataStart dataEnd;
  samples ← convertToFloat32 audioData (fmt_audioFormat fmt) (fmt_numChannels fmt)
                             (fmt_bitsPerSample fmt);
  if negb (fmt_sampleRate fmt =? 16000)
  then resample samples (fmt_sampleRate fmt) 16000
  else Ok samples.

(** The chunk walk [for offset < len(data)-8 { ... }]. *)
Fixpoint walkChunks (fuel : nat) (data : list byte) (offset : Z) (fmt : FmtChunk)
  : Res (list float32) :=
  if offset <? len data - 8 then
    match fuel with
    | O => OutOfFuel
    | S fuel' =>
        chunkID ← slice data offset (offset + 4);
        b ← slice data (offset + 4) (offset + 8);
        chunkSize ← LittleEndian_Uint32 b;
        let next (fmt' : FmtChunk) :=
          let offset := offset + (8 + chunkSize) in
          let offset := if negb (chunkSize mod 2 =? 0) then offset + 1 else offset in
          walkChunks fuel' data offset fmt' in
        if bytes_eqb chunkID tag_fmt then
          if chunkSize <? 16 then Err ErrFmtChunkTooSmall
          else fmt' ← readFmt data offset; next fmt'
        else if bytes_eqb chunkID tag_data then readData data offset chunkSize fmt
        else next fmt
    end
  else Err ErrNoDataChunk.

Definition parseWAV (data : list byte) : Res (list float32) :=
  if len data <? 44 then Err ErrWavTooSmall
  else
    magic ← slice data 0 4;
    if negb (bytes_eqb magic tag_RIFF) then Err ErrNotRIFF
    else
      form ← slice data 8 12;
      if negb (bytes_eqb form tag_WAVE) then Err ErrNotWAVE
      else walkChunks (length data) data 12
             {| fmt_audioFormat := 0; fmt_numChannels := 0;
                fmt_sampleRate := 0; fmt_bitsPerSample := 0 |}.

Definition loadAudio (data : list byte) (format : string) : Res (list float32) :=
  if String.eqb format ".wav" then parseWAV data
  else if String.eqb format ".webm" || String.eqb format ".ogg"
          || String.eqb format ".mp3" || String.eqb format ".m4a"
  then Err (ErrNeedsFfmpeg format)
  else parseWAV data.
End Wav.

(** ** The mel feature extractor (mel.go) *)

(** [for i := start; i < bound; i += step { s = body i s }], run on fuel. *)
Fixpoint for_lt {S : Type} (fuel : nat) (i bound step : Z)
    (body : Z -> S -> S) (s : S) : S :=
  match fuel with
  | O => s
  | S fuel' =>
      if i <? bound then for_lt fuel' (i + step) bound step body (body i s) else s
  end.

Definition for_range {S : Type} (lo hi : Z) (body : Z -> S -> S) (s : S) : S :=
  for_lt (Z.to_nat (hi - lo)) lo hi 1 body s.

(** [reverseBits]: the loop consumes the low bit of [n] each round. *)
Fixpoint reverseBits_loop (k : nat) (n result : Z) : Z :=
  match k with
  | O => result
  | S k' => reverseBits_loop k' (Z.shiftr n 1) (Z.lor (Z.shiftl result 1) (Z.land n 1))
  end.

Definition reverseBits (n bits : Z) : Z := reverseBits_loop (Z.to_nat bits) n 0.

(** [paddedLen := 1; for paddedLen < n { paddedLen *= 2 }] *)
Fixpoint padLoop (fuel : nat) (paddedLen n : Z) : Z :=
  match fuel with
  | O => paddedLen
  | S fuel' => if paddedLen <? n then padLoop fuel' (paddedLen * 2) n else paddedLen
  end.

(** The constant [math.Pi]. *)
Definition math_Pi : Q :=
  314159265358979323846264338327950288419716939937510582097494459
  # 100000000000000000000000000000000000000000000000000000000000000.

Section Mel.
Context `{MathLib}.

Record MelFilterbank : Type := {
  nMels : Z;
  sampleRate : Z;
  nFFT : Z;
  hopLength : Z;
  winLength : Z;
  filterbank : list (list float64)
}.

Definition f64_zero : float64 := f64_const 0.
Definition f32_zero : float32 := f32_const 0.

(** Reads of the numeric kernels.  Every index stays inside its slice
    when the filterbank has [nMels] rows of [nFFT/2+1] entries and
    [math.Log2] is exact on powers of two; the default is never read
    then. *)
Definition at64 (l : list float64) (i : Z) : float64 :=
  nth (Z.to_nat i) l f64_zero.
Definition at32 (l : list float32) (i : Z) : float32 :=
  nth (Z.to_nat i) l f32_zero.

Definition complex128 : Type := float64 * float64.
Definition c_zero : complex128 := (f64_zero, f64_zero).
Definition c_add (a b : complex128) : complex128 :=
  (f64_add (fst a) (fst b), f64_add (snd a) (snd b)).
Definition c_sub (a b : complex128) : complex128 :=
  (f64_sub (fst a) (fst b), f64_sub (snd a) (snd b)).
Definition c_mul (a b : complex128) : complex128 :=
  (f64_sub (f64_mul (fst a) (fst b)) (f64_mul (snd a) (snd b)),
   f64_add (f64_mul (fst a) (snd b)) (f64_mul (snd a) (fst b))).
Definition atc (l : list complex128) (i : Z) : complex128 :=
  nth (Z.to_nat i) l c_zero.
Definition setc (l : list complex128) (i : Z) (v : complex128) : list complex128 :=
  <[Z.to_nat i := v]> l.

Definition butterfly (step : float64) (half i j : Z) (x : list complex128)
  : list complex128 :=
  let angle := f64_mul step (f64_of_int j) in
  let w := cmplx_Exp (f64_zero, angle) in
  let t := c_mul w (atc x (i + j + half)) in
  let x := setc x (i + j + half) (c_sub (atc x (i + j)) t) in
  setc x (i + j) (c_add (atc x (i + j)) t).

(** [for size := 2; size <= paddedLen; size *= 2 { ... }] *)
Fixpoint fftStages (fuel : nat) (size paddedLen : Z) (x : list complex128)
  : list complex128 :=
  match fuel with
  | O => x
  | S fuel' =>
      if size <=? paddedLen then
        let half := Z.quot size 2 in
        let step := f64_div (f64_const (- math_Pi)) (f64_of_int half) in
        let x := for_lt (Z.to_nat paddedLen) 0 paddedLen size
                   (fun i x => for_range 0 half (butterfly step half i) x) x in
        fftStages fuel' (size * 2) paddedLen x
      else x
  end.

Definition fft (signal : list float64) : list complex128 :=
  let n := len signal in
  if n =? 0 then []
  else
    let paddedLen := padLoop (length signal) 1 n in
    let x := map (fun v => (v, f64_zero)) signal
             ++ repeat c_zero (Z.to_nat (paddedLen - n)) in
    let bits := int_of_f64 (math_Log2 (f64_of_int paddedLen)) in
    let x := for_range 0 paddedLen
               (fun i x =>
                  let rev := reverseBits i bits in
                  if i <? rev
                  then setc (setc x i (atc x rev)) rev (atc x i)
                  else x) x in
    fftStages (Z.to_nat paddedLen) 2 paddedLen x.

(** The Hann-windowed, zero-padded frame. *)
Definition windowFrame (m : MelFilterbank) (samples : list float32) (start end_ : Z)
  : list float64 :=
  for_range 0 (Z.min (end_ - start) (winLength m))
    (fun i windowed =>
       let w := f64_mul (f64_const (1 # 2))
                  (f64_sub (f64_const 1)
                     (math_Cos (f64_div (f64_mul (f64_const (2 * math_Pi)) (f64_of_int i))
                                        (f64_of_int (winLength m - 1))))) in
       <[Z.to_nat i := f64_mul (to_float64 (at32 samples (start + i))) w]> windowed)
    (repeat f64_zero (Z.to_nat (nFFT m))).

Definition melEnergy (m : MelFilterbank) (power : list float64) (numBins i : Z)
  : float32 :=
  let energy := for_range 0 numBins
                  (fun j energy =>
                     f64_add energy
                       (f64_mul (at64 power j) (at64 (nth (Z.to_nat i) (filterbank m) []) j)))
                  f64_zero in
  let energy := if f64_lt energy (f64_const (1 # 10000000000))
                then f64_const (1 # 10000000000) else energy in
  to_float32 (math_Log energy).

(** The body of the frame loop of [Extract]. *)
Definition melFrame (m : MelFilterbank) (samples : list float32) (frame : Z)
  : list float32 :=
  let start := frame * hopLength m in
  let end_ := start + winLength m in
  let end_ := if end_ >? len samples then len samples else end_ in
  let windowed := windowFrame m samples start end_ in
  let spectrum := fft windowed in
  let numBins := Z.quot (nFFT m) 2 + 1 in
  let power := map (fun i =>
                      let c := atc spectrum i in
                      f64_add (f64_mul (fst c) (fst c)) (f64_mul (snd c) (snd c)))
                   (seqZ 0 numBins) in
  map (melEnergy m power numBins) (seqZ 0 (nMels m)).

(** [normalize]: statistics of band [i] over all frames. *)
Definition bandMean (features : list (list float32)) (i : Z) : float64 :=
  let sum := fold_left (fun sum frame => f64_add sum (to_float64 (at32 frame i)))
                       features f64_zero in
  f64_div sum (f64_of_int (len features)).

Definition bandStd (features : list (list float32)) (i : Z) : float64 :=
  let mean := bandMean features i in
  let sumSq := fold_left (fun sumSq frame =>
                            let diff := f64_sub (to_float64 (at32 frame i)) mean in
                            f64_add sumSq (f64_mul diff diff))
                         features f64_zero in
  let std := math_Sqrt (f64_div sumSq (f64_of_int (len features))) in
  if f64_lt std (f64_const (1 # 10000000000))
  then f64_const (1 # 10000000000) else std.

Definition normalizeFrame (means stds : list float64) (nFeatures : Z)
    (frame : list float32) : list float32 :=
  for_range 0 nFeatures
    (fun i frame =>
       <[Z.to_nat i := to_float32 (f64_div (f64_sub (to_float64 (at32 frame i))
                                                    (at64 means i))
                                           (at64 stds i))]> frame)
    frame.

Definition normalize (features : list (list float32)) : list (list float32) :=
  match features with
  | [] => features
  | first :: _ =>
      let nFeatures := len first in
      let means := map (bandMean features) (seqZ 0 nFeatures) in
      let stds := map (bandStd features) (seqZ 0 nFeatures) in
      map (normalizeFrame means stds nFeatures) features
  end.

Definition Extract (m : MelFilterbank) (samples : list float32)
  : list (list float32) :=
  let numFrames := Z.quot (len samples - winLength m) (hopLength m) + 1 in
  if numFrames <=? 0 then []
  else normalize (map (melFrame m samples) (seqZ 0 numFrames)).

Definition hzToMel (hz : float64) : float64 :=
  f64_mul (f64_const 2595)
    (math_Log10 (f64_add (f64_const 1) (f64_div hz (f64_const 700)))).

Definition melToHz (mel : float64) : float64 :=
  f64_mul (f64_const 700)
    (f64_sub (math_Pow (f64_const 10) (f64_div mel (f64_const 2595))) (f64_const 1)).

Definition atZ (l : list Z) (i : Z) : Z := nth (Z.to_nat i) l 0.

(** One triangular filter; bin indices are non-negative for the
    frequencies [melToHz] yields, so every write is in range. *)
Definition melFilter (binPoints : list Z) (numBins i : Z) : list float64 :=
  let filter := repeat f64_zero (Z.to_nat numBins) in
  let filter :=
    for_range (atZ binPoints i) (Z.min (atZ binPoints (i + 1)) numBins)
      (fun j filter =>
         <[Z.to_nat j := f64_div (f64_of_int (j - atZ binPoints i))
                           (f64_of_int (atZ binPoints (i + 1) - atZ binPoints i))]> filter)
      filter in
  for_range (atZ binPoints (i + 1)) (Z.min (atZ binPoints (i + 2)) numBins)
    (fun j filter =>
       <[Z.to_nat j := f64_div (f64_of_int (atZ binPoints (i + 2) - j))
                         (f64_of_int (atZ binPoints (i + 2) - atZ binPoints (i + 1)))]> filter)
    filter.

Definition createMelFilterbank (m : MelFilterbank) : list (list float64) :=
  let numBins := Z.quot (nFFT m) 2 + 1 in
  let melMin := hzToMel (f64_const 0) in
  let melMax := hzToMel (f64_div (f64_of_int (sampleRate m)) (f64_const 2)) in
  let melPoints :=
    map (fun i => f64_add melMin
                    (f64_div (f64_mul (f64_of_int i) (f64_sub melMax melMin))
                             (f64_of_int (nMels m + 1))))
        (seqZ 0 (nMels m + 2)) in
  let binPoints :=
    map (fun mel =>
           let hz := melToHz mel in
           int_of_f64 (math_Floor (f64_div (f64_mul (f64_of_int (nFFT m + 1)) hz)
                                           (f64_of_int (sampleRate m)))))
        melPoints in
  map (melFilter binPoints numBins) (seqZ 0 (nMels m)).

Definition NewMelFilterbank (nMels sampleRate : Z) : MelFilterbank :=
  let m := {| nMels := nMels; sampleRate := sampleRate; nFFT := 512;
              hopLength := 160; winLength := 400; filterbank := [] |} in
  {| nMels := nMels; sampleRate := sampleRate; nFFT := 512;
     hopLength := 160; winLength := 400; filterbank := createMelFilterbank m |}.
End Mel.

(** ** The vocabulary loader (loadVocab) *)

(** The UTF-8 encoding of U+2581, the SentencePiece word marker. *)
Definition spMarker : string :=
  String "226" (String "150" (String "129" EmptyString)).

(** [strings.ReplaceAll s old new] for a non-empty [old]: scan left to
    right, [skip] counts the bytes of a matched occurrence still to drop. *)
Fixpoint replaceAll_from (old new : string) (skip : nat) (s : string) : string :=
  match s with
  | EmptyString => EmptyString
  | String c s' =>
      match skip with
      | S k => replaceAll_from old new k s'
      | O =>
          if String.prefix old s
          then new +:+ replaceAll_from old new (String.length old - 1) s'
          else String c (replaceAll_from old new 0 s')
      end
  end.

Definition strings_ReplaceAll (s old new : string) : string :=
  replaceAll_from old new 0 s.

(** [strings.SplitN line " " 2]. *)
Fixpoint cutSpace (s : string) : option (string * string) :=
  match s with
  | EmptyString => None
  | String c s' =>
      if Ascii.eqb c " " then Some (EmptyString, s')
      else match cutSpace s' with
           | Some (a, b) => Some (String c a, b)
           | None => None
           end
  end.

Definition strings_SplitN2 (line : string) : list string :=
  match cutSpace line with
  | Some (a, b) => [a; b]
  | None => [line]
  end.

(** [strconv.Atoi]: an optional sign, at least one decimal digit, and a
    value inside the range of [int]. *)
Fixpoint parseDigits (s : string) (acc : Z) : option Z :=
  match s with
  | EmptyString => Some acc
  | String c s' =>
      let d := Z.of_nat (nat_of_ascii c) - 48 in
      if (0 <=? d) && (d <=? 9) then parseDigits s' (10 * acc + d) else None
  end.

Definition strconv_Atoi (s : string) : option Z :=
  let '(neg, digits) :=
    match s with
    | String c r =>
        if Ascii.eqb c "-" then (true, r)
        else if Ascii.eqb c "+" then (false, r) else (false, s)
    | EmptyString => (false, s)
    end in
  match digits with
  | EmptyString => None
  | _ =>
      match parseDigits digits 0 with
      | Some v =>
          let v := if neg then - v else v in
          if (min_int64 <=? v) && (v <=? max_int64) then Some v else None
      | None => None
      end
  end.

(** What [os.Open] and the [bufio.Scanner] deliver: the open error, or
    the lines scanned and the error the scanner stopped with, if any. *)
Inductive VocabFile : Type :=
| OpenFails (e : Error)
| Scans (lines : list string) (scanErr : option Error).

(** The body of the scan loop on the pair (vocab, blankIdx). *)
Definition vocabLine (st : gmap Z string * Z) (line : string) : gmap Z string * Z :=
  match strings_SplitN2 line with
  | [token; idText] =>
      match strconv_Atoi idText with
      | None => st
      | Some id =>
          let token := strings_ReplaceAll token spMarker " " in
          (<[id := token]> (fst st),
           if String.eqb token "<blk>" then id else snd st)
      end
  | _ => st
  end.

(** ** The transcriber, the TDT decoding loop and Transcribe *)

Record Config : Type := {
  ModelType : string;
  FeaturesSize : Z;
  SubsamplingFactor : Z
}.

(** Library functions used by [tokensToText] that stay parameters. *)
Class TextLib : Type := {
  regexp_ReplaceAllStringFunc : string -> string -> (string -> string) -> string;
  strings_TrimSpace : string -> string
}.

Section Asr.
Context `{MathLib}.
Context `{TextLib}.

Record Transcriber : Type := {
  config : Config;
  vocab : gmap Z string;
  vocabSize : Z;
  blankIdx : Z;
  modelsDir : string;
  maxTokensPerStep : Z;
  mel : option MelFilterbank
}.

Definition set_vocab (t : Transcriber) (v : gmap Z string) (size blank : Z)
  : Transcriber :=
  {| config := config t; vocab := v; vocabSize := size; blankIdx := blank;
     modelsDir := modelsDir t; maxTokensPerStep := maxTokensPerStep t;
     mel := mel t |}.

Definition loadVocab (t : Transcriber) (file : VocabFile)
  : Transcriber * option Error :=
  match file with
  | OpenFails e => (t, Some e)
  | Scans lines scanErr =>
      let st := fold_left vocabLine lines (∅, blankIdx t) in
      (set_vocab t (fst st) (Z.of_nat (size (fst st))) (snd st), scanErr)
  end.

(** What the file system and the process environment hold at start-up. *)
Record Env : Type := {
  env_config : Res Config;
  env_vocab : VocabFile;
  env_runtime : option (option Error);
  env_encoder : bool;
  env_decoder : bool
}.

Definition NewTranscriber (dir : string) (env : Env) : Res Transcriber :=
  match env_config env with
  | Ok cfg =>
      let cfg := {| ModelType := ModelType cfg;
                    FeaturesSize := if FeaturesSize cfg =? 0 then 128
                                    else FeaturesSize cfg;
                    SubsamplingFactor := if SubsamplingFactor cfg =? 0 then 8
                                         else SubsamplingFactor cfg |} in
      let t := {| config := cfg; vocab := ∅; vocabSize := 0; blankIdx := 8192;
                  modelsDir := dir; maxTokensPerStep := 10;
                  mel := None |} in
      match loadVocab t (env_vocab env) with
      | (_, Some e) => Err (ErrLoadVocab e)
      | (t, None) =>
          let t := {| config := config t; vocab := vocab t; vocabSize := vocabSize t;
                      blankIdx := blankIdx t; modelsDir := modelsDir t;
                      maxTokensPerStep := maxTokensPerStep t;
                      mel := Some (NewMelFilterbank (FeaturesSize cfg) 16000) |} in
          match env_runtime env with
          | None => Err ErrRuntimeNotFound
          | Some (Some e) => Err (ErrRuntimeInit e)
          | Some None =>
              if negb (env_encoder env) then Err ErrEncoderNotFound
              else if negb (env_decoder env) then Err ErrDecoderNotFound
              else Ok t
          end
      end
  | Err e => Err (ErrConfig e)
  | Panic p => Panic p
  | OutOfFuel => OutOfFuel
  end.

(** The tensor-graph runtime: one encoder run and one decoder run.  A
    failure to build a tensor or a session, or of the run itself, is an
    error value. *)
Record DecoderOut : Type := {
  dec_outputs : list float32;
  dec_states_1 : list float32;
  dec_states_2 : list float32
}.

Class Runtime : Type := {
  runEncoder : string -> list float32 -> Z -> Z -> Error + (list float32 * Z);
  runDecoder : string -> list float32 -> Z -> list float32 -> list float32 -> Z
               -> Error + DecoderOut
}.
Context `{Runtime}.

Definition argmax (data : list float32) : Z :=
  match data with
  | [] => 0
  | d0 :: _ =>
      fst (fst (fold_left
                  (fun '(maxIdx, maxVal, i) v =>
                     if f32_gt v maxVal then (i, v, i + 1) else (maxIdx, maxVal, i + 1))
                  data (0, d0, 0)))
  end.

(** The variables of the decoding loop. *)
Record LoopState : Type := {
  timestep : Z;
  emittedTokens : Z;
  prevToken : Z;
  state1 : list float32;
  state2 : list float32;
  tokens : list Z
}.

(** [if token != t.blankIdx { ... }] *)
Definition emit (t : Transcriber) (token : Z) (out : DecoderOut) (st : LoopState)
  : LoopState :=
  if negb (token =? blankIdx t) then
    {| timestep := timestep st;
       emittedTokens := emittedTokens st + 1;
       prevToken := token;
       state1 := copy (state1 st) (dec_states_1 out);
       state2 := copy (state2 st) (dec_states_2 out);
       tokens := tokens st ++ [token] |}
  else st.

Definition set_time (st : LoopState) (ts : Z) : LoopState :=
  {| timestep := ts; emittedTokens := 0; prevToken := prevToken st;
     state1 := state1 st; state2 := state2 st; tokens := tokens st |}.

(** [if step > 0 { ... } else if token == t.blankIdx || ... { ... }] *)
Definition advance (t : Transcriber) (token step : Z) (st : LoopState) : LoopState :=
  if step >? 0 then set_time st (to_int64 (timestep st + step))
  else if (token =? blankIdx t) || (emittedTokens st >=? maxTokensPerStep t)
       then set_time st (to_int64 (timestep st + 1))
       else st.

(** The encoder column at the current time step. *)
Definition encoderColumn (encoderOut : list float32) (encoderDim encodedLen ts : Z)
  : Res (list float32) :=
  mapM (fun d =>
          let idx := to_int64 (d * encodedLen + ts) in
          if idx <? len encoderOut then index encoderOut idx else Ok f32_zero)
       (seqZ 0 encoderDim).

(** What one iteration computes before it updates the loop variables:
    the argmax token, the argmax duration and the decoder outputs. *)
Definition decodeAt (t : Transcriber) (encoderOut : list float32)
    (encoderDim encodedLen : Z) (st : LoopState) : Res (Z * Z * DecoderOut) :=
  encOutSlice ← encoderColumn encoderOut encoderDim encodedLen (timestep st);
  out ← of_call (runDecoder (modelsDir t) encOutSlice (to_int32 (prevToken st))
                            (state1 st) (state2 st) (vocabSize t + 5));
  vocabLogits ← slice (dec_outputs out) 0 (vocabSize t);
  durationLogits ← slice (dec_outputs out) (vocabSize t) (len (dec_outputs out));
  Ok (argmax vocabLogits, argmax durationLogits, out).

(** One iteration of the loop body. *)
Definition tdtStep (t : Transcriber) (encoderOut : list float32)
    (encoderDim encodedLen : Z) (st : LoopState) : Res LoopState :=
  '(token, step, out) ← decodeAt t encoderOut encoderDim encodedLen st;
  Ok (advance t token step (emit t token out st)).

(** [for timestep < encodedLen { ... }] on fuel.  The first component
    lists the loop variables at the start of every iteration run; the
    second is the state the loop left with, or why it was abandoned. *)
Fixpoint tdtLoop (fuel : nat) (t : Transcriber) (encoderOut : list float32)
    (encoderDim encodedLen : Z) (st : LoopState) : list LoopState * Res LoopState :=
  if timestep st <? encodedLen then
    match fuel with
    | O => ([], OutOfFuel)
    | S fuel' =>
        match tdtStep t encoderOut encoderDim encodedLen st with
        | Ok st' =>
            let '(trace, r) := tdtLoop fuel' t encoderOut encoderDim encodedLen st' in
            (st :: trace, r)
        | Err e => ([st], Err e)
        | Panic p => ([st], Panic p)
        | OutOfFuel => ([st], OutOfFuel)
        end
    end
  else ([], Ok st).

Definition tdtInit (t : Transcriber) : LoopState :=
  {| timestep := 0; emittedTokens := 0; prevToken := blankIdx t;
     state1 := repeat f32_zero (Z.to_nat (2 * 1 * 640));
     state2 := repeat f32_zero (Z.to_nat (2 * 1 * 640));
     tokens := [] |}.

Definition tdtDecode (fuel : nat) (t : Transcriber) (encoderOut : list float32)
    (encoderDim encodedLen : Z) : Res (list Z) :=
  tokens <$> snd (tdtLoop fuel t encoderOut encoderDim encodedLen (tdtInit t)).

(** The band-major input tensor of the encoder. *)
Definition transposeFeatures (features : list (list float32))
    (numFeatures numFrames : Z) : list float32 :=
  for_range 0 numFrames
    (fun f inputData =>
       let row := nth (Z.to_nat f) features [] in
       for_range 0 (Z.min numFeatures (len row))
         (fun m inputData =>
            <[Z.to_nat (m * numFrames + f) := at32 row m]> inputData)
         inputData)
    (repeat f32_zero (Z.to_nat (numFeatures * numFrames))).

Definition runInference (fuel : nat) (t : Transcriber) (features : list (list float32))
  : Res (list Z) :=
  let numFeatures := FeaturesSize (config t) in
  let numFrames := len features in
  let inputData := transposeFeatures features numFeatures numFrames in
  match runEncoder (modelsDir t) inputData numFeatures numFrames with
  | inr (encoderOut, actualEncodedLen) =>
      match tdtDecode fuel t encoderOut 1024 actualEncodedLen with
      | Err e => Err (ErrDecodingFailed e)
      | r => r
      end
  | inl e => Err e
  end.

Definition isSpecial (text : string) : bool :=
  String.prefix "<" text && String.prefix ">" (String.rev text).

Definition tokensToText (t : Transcriber) (toks : list Z) : string :=
  let parts := fold_left
                 (fun parts tok =>
                    match vocab t !! tok with
                    | Some text => if isSpecial text then parts else parts ++ [text]
                    | None => parts
                    end) toks [] in
  let text := String.concat "" parts in
  let text := regexp_ReplaceAllStringFunc "^\s+|\s+$|\s{2,}" text
                (fun s => if String.eqb (strings_TrimSpace s) "" then " " else s) in
  strings_TrimSpace text.

Definition Transcribe (fuel : nat) (t : Transcriber) (audioData : list byte)
    (format language : string) : Res string :=
  match loadAudio audioData format with
  | Ok waveform =>
      if len waveform <? 1600 then Ok EmptyString
      else
        match mel t with
        | None => Panic NilPointerDereference
        | Some m =>
            let features := Extract m waveform in
            if len features =? 0 then Err ErrNoFeatures
            else
              match runInference fuel t features with
              | Ok toks => Ok (tokensToText t toks)
              | Err e => Err (ErrInferenceFailed e)
              | Panic p => Panic p
              | OutOfFuel => OutOfFuel
              end
        end
  | Err e => Err (ErrLoadAudio e)
  | Panic p => Panic p
  | OutOfFuel => OutOfFuel
  end.
End Asr.

(** ** Two interpretations of the floating-point interface *)

(** The real number a float denotes; [None] for NaN and the infinities. *)
Class FloatReal `{FloatOps} : Type := {
  real32 : float32 -> option R;
  real64 : float64 -> option R
}.

(** IEEE-754 binary32 and binary64 with round-to-nearest-even, on the
    Standard Library's [spec_float].  Conversions to [int] outside the
    range give the value amd64 produces. *)
Module IEEE.
Definition prec32 : Z := 24.
Definition emax32 : Z := 128.
Definition prec64 : Z := 53.
Definition emax64 : Z := 1024.

Definition of_Z (prec emax : Z) (n : Z) : spec_float :=
  binary_normalize prec emax n 0 false.

Definition of_Q (prec emax : Z) (q : Q) : spec_float :=
  match Qnum q with
  | Z0 => S754_zero false
  | Zpos p => SFdiv prec emax (S754_finite false p 0) (S754_finite false (Qden q) 0)
  | Zneg p => SFdiv prec emax (S754_finite true p 0) (S754_finite false (Qden q) 0)
  end.

Definition convert (prec emax : Z) (x : spec_float) : spec_float :=
  match x with
  | S754_finite s m e => binary_normalize prec emax (if s then Zneg m else Zpos m) e s
  | _ => x
  end.

Definition truncate (x : spec_float) : Z :=
  match x with
  | S754_zero _ => 0
  | S754_finite s m e =>
      let v := if 0 <=? e then Z.shiftl (Zpos m) e else Z.shiftr (Zpos m) (- e) in
      let v := if s then - v else v in
      if (min_int64 <=? v) && (v <=? max_int64) then v else min_int64
  | _ => min_int64
  end.

Definition frombits32 (bits : Z) : spec_float :=
  let s := Z.testbit bits 31 in
  let e := Z.land (Z.shiftr bits 23) 255 in
  let f := Z.land bits 8388607 in
  if e =? 255 then (if f =? 0 then S754_infinity s else S754_nan)
  else if e =? 0 then
    match f with Zpos p => S754_finite s p (-149) | _ => S754_zero s end
  else
    match f + 8388608 with Zpos p => S754_finite s p (e - 150) | _ => S754_nan end.

Definition to_R (x : spec_float) : option R :=
  match x with
  | S754_zero _ => Some 0%R
  | S754_finite s m e =>
      let v := if 0 <=? e then IZR (Zpos m * 2 ^ e)
               else (IZR (Zpos m) / IZR (2 ^ (- e)))%R in
      Some (if s then (- v)%R else v)
  | _ => None
  end.

#[global] Instance ops : FloatOps := {|
  float32 := spec_float;
  float64 := spec_float;
  f64_add := SFadd prec64 emax64;
  f64_sub := SFsub prec64 emax64;
  f64_mul := SFmul prec64 emax64;
  f64_div := SFdiv prec64 emax64;
  f64_lt := SFltb;
  f32_add := SFadd prec32 emax32;
  f32_sub := SFsub prec32 emax32;
  f32_mul := SFmul prec32 emax32;
  f32_gt := fun x y => SFltb y x;
  to_float64 := convert prec64 emax64;
  to_float32 := convert prec32 emax32;
  f64_of_int := of_Z prec64 emax64;
  int_of_f64 := truncate;
  f64_const := of_Q prec64 emax64;
  f32_const := of_Q prec32 emax32;
  math_Sqrt := SFsqrt prec64 emax64;
  math_Float32frombits := frombits32
|}.

#[global] Instance reals : FloatReal := {| real32 := to_R; real64 := to_R |}.
End IEEE.

(** Exact arithmetic on the reals: every operation without rounding. *)
Module Exact.
Definition ltb (x y : R) : bool := if Rlt_dec x y then true else false.

Definition truncate (x : R) : Z :=
  if Rle_dec 0 x then Int_part x else (- Int_part (- x))%Z.

Definition frombits32 (bits : Z) : R :=
  match IEEE.to_R (IEEE.frombits32 bits) with Some r => r | None => 0%R end.

#[global] Instance ops : FloatOps := {|
  float32 := R;
  float64 := R;
  f64_add := Rplus;
  f64_sub := Rminus;
  f64_mul := Rmult;
  f64_div := Rdiv;
  f64_lt := ltb;
  f32_add := Rplus;
  f32_sub := Rminus;
  f32_mul := Rmult;
  f32_gt := fun x y => ltb y x;
  to_float64 := fun x => x;
  to_float32 := fun x => x;
  f64_of_int := IZR;
  int_of_f64 := truncate;
  f64_const := Q2R;
  f32_const := Q2R;
  math_Sqrt := sqrt;
  math_Float32frombits := frombits32
|}.

#[global] Instance reals : FloatReal := {| real32 := Some; real64 := Some |}.
End Exact.

(** ** Inputs and doubles used in the statements *)

Definition byte_of_Z (n : Z) : byte :=
  match Byte.of_N (Z.to_N (n mod 256)) with Some b => b | None => x00 end.

Definition le16 (n : Z) : list byte := [byte_of_Z n; byte_of_Z (n / 256)].
Definition le32 (n : Z) : list byte :=
  [byte_of_Z n; byte_of_Z (n / 256); byte_of_Z (n / 65536); byte_of_Z (n / 16777216)].

(** A canonical RIFF/WAVE file: the 12-byte header, a 24-byte [fmt ]
    chunk, and a [data] chunk that declares [dataSize] bytes and carries
    [body]. *)
Definition wavFile (format channels rate bits dataSize : Z) (body : list byte)
  : list byte :=
  tag_RIFF ++ le32 (36 + len body) ++ tag_WAVE
  ++ tag_fmt ++ le32 16 ++ le16 format ++ le16 channels ++ le32 rate
  ++ le32 (rate * channels * (bits / 8)) ++ le16 (channels * (bits / 8)) ++ le16 bits
  ++ tag_data ++ le32 dataSize ++ body.

(** 44 bytes: 16-bit mono at 16 kHz with an empty data chunk. *)
Definition wav44 : list byte := wavFile 1 1 16000 16 0 [].

(** The same file followed by one more byte. *)
Definition wav45 : list byte := wav44 ++ [x00].

(** One 16-bit mono sample. *)
Definition wavOneSample : list byte := wavFile 1 1 16000 16 2 [x00; x40].

(** A [fmt ] chunk that declares zero channels, and one that declares
    zero bits per sample; each with two bytes of data. *)
Definition wavZeroChannels : list byte := wavFile 1 0 16000 16 2 [x00; x40].
Definition wavZeroBits : list byte := wavFile 1 1 16000 0 2 [x00; x40].

(** One 32-bit IEEE float sample, mono, with the value 2.0. *)
Definition wavFloatTwo : list byte := wavFile 3 1 16000 32 4 [x00; x00; x00; x40].

(** Doubles for the parameters, to run the code on concrete data. *)
Module Double.
#[global] Instance math : @MathLib IEEE.ops := {|
  math_Cos := fun x => x;
  math_Log := fun x => x;
  math_Log2 := fun x => x;
  math_Log10 := fun x => x;
  math_Pow := fun x _ => x;
  math_Floor := fun x => x;
  cmplx_Exp := fun c => c
|}.

#[global] Instance text : TextLib := {|
  regexp_ReplaceAllStringFunc := fun _ s _ => s;
  strings_TrimSpace := fun s => s
|}.

(** The decoder answers every call with all-zero logits: token 0 and
    duration 0 win every argmax. *)
Definition answerOf (outputDim : Z) : @DecoderOut IEEE.ops :=
  {| dec_outputs := repeat (S754_zero false : @float32 IEEE.ops) (Z.to_nat outputDim);
     dec_states_1 := repeat (S754_zero true : @float32 IEEE.ops) 1280;
     dec_states_2 := repeat (S754_zero true : @float32 IEEE.ops) 1280 |}.

Definition answer : @DecoderOut IEEE.ops := answerOf 7.

#[global] Instance runtime : @Runtime IEEE.ops := {|
  runEncoder := fun _ _ _ numFrames => inr ([] : list (@float32 IEEE.ops), numFrames);
  runDecoder := fun _ _ _ _ _ outputDim => inr (answerOf outputDim)
|}.

Definition transcriber : @Transcriber IEEE.ops :=
  {| config := {| ModelType := "tdt"; FeaturesSize := 128; SubsamplingFactor := 8 |};
     vocab := <[0 := "a"%string]> (<[1 := "<blk>"%string]> ∅);
     vocabSize := 2; blankIdx := 1; modelsDir := "models";
     maxTokensPerStep := 10; mel := None |}.

(** The same transcriber with the blank at index 0. *)
Definition blankFirst : @Transcriber IEEE.ops :=
  {| config := {| ModelType := "tdt"; FeaturesSize := 128; SubsamplingFactor := 8 |};
     vocab := <[1 := "a"%string]> (<[0 := "<blk>"%string]> ∅);
     vocabSize := 2; blankIdx := 0; modelsDir := "models";
     maxTokensPerStep := 10; mel := None |}.
End Double.

(** ** Notions used in the statements about the decoding loop *)

Section TdtDefs.
Context `{FloatOps} `{!Runtime}.

(** The output tensor of the decoder is allocated with [outputDim]
    elements; a successful run fills exactly those. *)
Definition DecoderShape : Prop :=
  forall dir enc prev s1 s2 outputDim o,
    0 <= outputDim ->
    runDecoder dir enc prev s1 s2 outputDim = inr o ->
    len (dec_outputs o) = outputDim.

(** Loop invariant at the head of the loop. *)
Definition loopInv (t : Transcriber) (st : LoopState) : Prop :=
  0 <= timestep st /\ 0 <= emittedTokens st < maxTokensPerStep t.

(** Iterations left, at most. *)
Definition loopMeasure (t : Transcriber) (encodedLen : Z) (st : LoopState) : Z :=
  Z.max 0 (maxTokensPerStep t * (encodedLen - timestep st) - emittedTokens st).

(** Consecutive entries are one successful iteration apart. *)
Fixpoint linked (t : Transcriber) (encoderOut : list float32)
    (encoderDim encodedLen : Z) (l : list LoopState) : Prop :=
  match l with
  | a :: (b :: _) as tl =>
      (timestep a < encodedLen /\
       tdtStep t encoderOut encoderDim encodedLen a = Ok b) /\
      linked t encoderOut encoderDim encodedLen tl
  | _ => True
  end.

(** The loop variables at every evaluation of the loop test. *)
Definition loopHeads (run : list LoopState * Res LoopState) : list LoopState :=
  fst run ++ match snd run with Ok s => [s] | _ => [] end.
End TdtDefs.


(** ** Notions used in the statements about the vocabulary *)

(** [pat] occurs in [s]. *)
Fixpoint containsStr (pat s : string) : bool :=
  String.prefix pat s ||
  match s with
  | String _ s' => containsStr pat s'
  | EmptyString => false
  end.

(** What a line of the vocabulary file contributes: the id and the
    stored piece of a line [<piece> <id>], nothing for any other line. *)
Definition vocabEntry (line : string) : option (Z * string) :=
  match cutSpace line with
  | Some (piece, idText) =>
      match strconv_Atoi idText with
      | Some id => Some (id, strings_ReplaceAll piece spMarker " ")
      | None => None
      end
  | None => None
  end.

(** A line [<piece> <id>]: one ASCII space, then an integer. *)
Definition wellFormedLine (line : string) : bool :=
  match vocabEntry line with Some _ => true | None => false end.

Definition countWellFormed (lines : list string) : nat :=
  length (List.filter wellFormedLine lines).

(** ** Notions used in the statements about sample values *)

(** The unsigned and the two's-complement value of a little-endian word. *)
Fixpoint unsignedLE (bytes : list byte) : Z :=
  match bytes with
  | [] => 0
  | b :: rest => u8 b + 256 * unsignedLE rest
  end.

Definition signedLE (bytes : list byte) : Z :=
  let u := unsignedLE bytes in
  let width := 8 * len bytes in
  if u <? 2 ^ (width - 1) then u else u - 2 ^ width.

(** A sample is a real number of [-1.0, 1.0]. *)
Definition inUnit `{FloatReal} (y : float32) : Prop :=
  exists r : R, real32 y = Some r /\ (-1 <= r <= 1)%R.

(** A [float64] that denotes a real number of [lo, hi]. *)
Definition real64_in `{FloatReal} (v : float64) (lo hi : R) : Prop :=
  exists r : R, real64 v = Some r /\ (lo <= r)%R /\ (r <= hi)%R.

(** What the range argument needs of the arithmetic: results are the
    exact results rounded by a monotone rounding that keeps the integers
    up to 2^16, as long as they stay far from overflow.  IEEE-754
    round-to-nearest has these properties, and so has exact arithmetic
    (with the identity as rounding). *)
Record RoundingLaws `{FloatReal} (rnd64 rnd32 : R -> R) : Prop := {
  rnd64_monotone : forall x y : R, (x <= y)%R -> (rnd64 x <= rnd64 y)%R;
  rnd64_integer : forall n : Z, -65536 <= n <= 65536 -> rnd64 (IZR n) = IZR n;
  rnd32_monotone : forall x y : R, (x <= y)%R -> (rnd32 x <= rnd32 y)%R;
  rnd32_integer : forall n : Z, -1 <= n <= 1 -> rnd32 (IZR n) = IZR n;
  of_int_exact : forall n : Z,
    -2147483648 <= n <= 2147483648 -> real64 (f64_of_int n) = Some (IZR n);
  const_exact : forall n : Z,
    0 <= n <= 2147483648 -> real64 (f64_const (inject_Z n)) = Some (IZR n);
  add_rounded : forall (x y : float64) (a b : R),
    real64 x = Some a -> real64 y = Some b -> (-65536 <= a + b <= 65536)%R ->
    real64 (f64_add x y) = Some (rnd64 (a + b)%R);
  sub_rounded : forall (x y : float64) (a b : R),
    real64 x = Some a -> real64 y = Some b -> (-65536 <= a - b <= 65536)%R ->
    real64 (f64_sub x y) = Some (rnd64 (a - b)%R);
  div_rounded : forall (x y : float64) (a b : R),
    real64 x = Some a -> real64 y = Some b -> b <> 0%R ->
    (-65536 <= a / b <= 65536)%R ->
    real64 (f64_div x y) = Some (rnd64 (a / b)%R);
  narrow_rounded : forall (x : float64) (a : R),
    real64 x = Some a -> (-65536 <= a <= 65536)%R ->
    real32 (to_float32 x) = Some (rnd32 a)
}.

(** ** Notions used in the statements about normalization *)

(** Mean and (population) variance of a list of reals. *)
Definition sumR (xs : list R) : R := fold_right Rplus 0%R xs.

Definition meanR (xs : list R) : R := (sumR xs / IZR (len xs))%R.

Definition varianceR (xs : list R) : R :=
  meanR (map (fun x => ((x - meanR xs) * (x - meanR xs))%R) xs).

(** Band [i] of a feature matrix over the reals, frame by frame. *)
Definition band (features : list (list R)) (i : nat) : list R :=
  map (fun row => nth i row 0%R) features.

(** Band [i] of a float matrix as reals; [None] when an entry is missing
    or is not a real number. *)
Definition bandReals `{FloatReal} (features : list (list float32)) (i : nat)
  : option (list R) :=
  mapM (fun row : list float32 => row !! i ≫= real32) features.

(** The tolerance the specification asks of a normalized band. *)
Definition normalizedBand (ys : list R) : Prop :=
  (Rabs (meanR ys) <= 1 / 100000)%R /\ (Rabs (varianceR ys - 1) <= 1 / 1000)%R.

(** The log-mel value of a band without energy: [float32(math.Log(1e-10))]. *)
Definition silentLogMel : @float32 IEEE.ops :=
  IEEE.of_Q IEEE.prec32 IEEE.emax32 (-23025850929940457 # 1000000000000000).

(** Eight frames of silence, the features of 1600 zero samples before
    normalization. *)
Definition silentFeatures : list (list (@float32 IEEE.ops)) :=
  repeat (repeat silentLogMel 128) 8.

(* ------------------------------------------------------------------ *)
(** ** Checking binary32 results by evaluation *)

(** A test on the representation of a binary32 value that implies that
    the value lies in [-1, 1]. *)
Definition IEEE_inUnitb (y : spec_float) : bool :=
  match y with
  | S754_zero _ => true
  | S754_finite _ m e =>
      if 0 <=? e then Zpos m * 2 ^ e <=? 1 else Zpos m <=? 2 ^ (- e)
  | _ => false
  end.

Definition allBytes : list byte := byte_of_Z <$> seqZ 0 256.

(** A mono file of one sample: the decoded sample passes the test. *)
Definition monoSampleCheck (bitsPerSample : Z) (bytes : list byte) : bool :=
  match @convertToFloat32 IEEE.ops bytes 1 1 bitsPerSample with
  | Ok [y] => IEEE_inUnitb y
  | _ => false
  end.


(** The canonical layout with arbitrary field bytes: the RIFF size
    [size] (4 bytes), a 16-byte [fmt ] chunk [fmtBody], and a [data]
    chunk whose header declares [dataSize] (4 bytes) and which carries
    [body]. *)
Definition wavLayout (size fmtBody dataSize body : list byte) : list byte :=
  tag_RIFF ++ size ++ tag_WAVE
  ++ tag_fmt ++ [x10; x00; x00; x00] ++ fmtBody
  ++ tag_data ++ dataSize ++ body.


(** An entry whose stored piece is the blank symbol. *)
Definition isBlank (e : Z * string) : bool := String.eqb (snd e) "<blk>".


(** A start-up environment in which everything is in place: a
    configuration that leaves both sizes to their defaults and a
    vocabulary of two lines. *)
Definition startEnv : Env :=
  {| env_config := Ok {| ModelType := "tdt"; FeaturesSize := 0; SubsamplingFactor := 0 |};
     env_vocab := Scans ["a 0"%string; "<blk> 1"%string] None;
     env_runtime := Some None;
     env_encoder := true;
     env_decoder := true |}.


(** What the decoding loop keeps of its variables: both state buffers
    have their 2 * 1 * 640 entries, the previous token is the last one
    emitted (the blank before any), and every emitted token is an index
    into the vocabulary logits other than the blank. *)
Definition loopKeeps `{FloatOps} (t : Transcriber) (st : LoopState) : Prop :=
  length (state1 st) = 1280%nat /\
  length (state2 st) = 1280%nat /\
  prevToken st = match last (tokens st) with Some tok => tok | None => blankIdx t end /\
  Forall (fun tok => tok <> blankIdx t /\ 0 <= tok <= Z.max 0 (vocabSize t - 1))
         (tokens st).


(** The piece a token contributes to the text: the vocabulary entry of a
    known token that is not of the form [<...>]. *)
Definition tokenPiece `{FloatOps} (t : Transcriber) (tok : Z) : option string :=
  match vocab t !! tok with
  | Some text => if isSpecial text then None else Some text
  | None => None
  end.


(* ------------------------------------------------------------------ *)
(** ** Notions used in the statements about the transform *)

(** The entries at the even and at the odd positions. *)
Fixpoint evens {A : Type} (l : list A) : list A :=
  match l with
  | x :: _ :: l' => x :: evens l'
  | l' => l'
  end.

Fixpoint odds {A : Type} (l : list A) : list A :=
  match l with
  | _ :: y :: l' => y :: odds l'
  | _ => []
  end.

(** The bit-reversal permutation of a list of [2^k] entries, by halves. *)
Fixpoint bitReversal {A : Type} (k : nat) (x : list A) : list A :=
  match k with
  | O => x
  | S k' => bitReversal k' (evens x) ++ bitReversal k' (odds x)
  end.

Section Radix2.
Context `{MathLib}.

(** The factor of butterfly [j] in a stage of half-size [half], as
    [fft] computes it. *)
Definition twiddle (half j : Z) : complex128 :=
  cmplx_Exp (f64_zero,
             f64_mul (f64_div (f64_const (- math_Pi)) (f64_of_int half)) (f64_of_int j)).

(** The radix-2 decimation-in-time recursion on [2^k] values: the
    transforms [E] and [O] of the even and of the odd entries give
    [E[j] + w_j * O[j]] and [E[j] - w_j * O[j]]. *)
Fixpoint fftRec (k : nat) (x : list complex128) : list complex128 :=
  match k with
  | O => x
  | S k' =>
      let E := fftRec k' (evens x) in
      let O := fftRec k' (odds x) in
      let half := 2 ^ Z.of_nat k' in
      map (fun j => c_add (atc E j) (c_mul (twiddle half j) (atc O j))) (seqZ 0 half)
      ++ map (fun j => c_sub (atc E j) (c_mul (twiddle half j) (atc O j))) (seqZ 0 half)
  end.

(** One pass of the stage loop of [fft] over a whole slice, and the
    passes for the sizes [size], [2*size], ... up to [maxSize]. *)
Definition stagePass (size : Z) (x : list complex128) : list complex128 :=
  let half := Z.quot size 2 in
  let step := f64_div (f64_const (- math_Pi)) (f64_of_int half) in
  for_lt (Z.to_nat (len x)) 0 (len x) size
    (fun i x => for_range 0 half (butterfly step half i) x) x.

Fixpoint stagesUpTo (fuel : nat) (size maxSize : Z) (x : list complex128)
  : list complex128 :=
  match fuel with
  | O => x
  | S fuel' =>
      if size <=? maxSize
      then stagesUpTo fuel' (size * 2) maxSize (stagePass size x)
      else x
  end.
End Radix2.

Section Radix2Pass.
Context `{MathLib}.

(** What a pass of half-size [half] leaves at position [p]. *)
Definition passValue (half : Z) (x : list complex128) (p : Z) : complex128 :=
  let j := p mod (2 * half) in
  if j <? half
  then c_add (atc x p) (c_mul (twiddle half j) (atc x (p + half)))
  else c_sub (atc x (p - half)) (c_mul (twiddle half (j - half)) (atc x p)).
End Radix2Pass.

(** A mathematical library whose [Log2] is exact on the powers of two
    (and whose other functions are the identity). *)
Definition log2Math : @MathLib IEEE.ops := {|
  math_Cos := fun x => x;
  math_Log := fun x => x;
  math_Log2 := fun x => @f64_of_int IEEE.ops (Z.log2 (@int_of_f64 IEEE.ops x));
  math_Log10 := fun x => x;
  math_Pow := fun x _ => x;
  math_Floor := fun x => x;
  cmplx_Exp := fun c => c
|}.


(** The value the decoder gives a 16-bit mono sample with the bytes
    [b0], [b1]: the sum over the one channel, starting from zero,
    divided by the channel count. *)
Definition decode16 `{FloatOps} (b0 b1 : byte) : float32 :=
  to_float32
    (f64_div (f64_add (f64_const 0)
                (f64_div (f64_of_int (signedLE [b0; b1])) (f64_const 32768)))
             (f64_of_int 1)).

(** A test on the representation of a binary32 value [y] that implies
    that [y] is exactly [v / 2^15]. *)
Definition IEEE_isQ15b (y : spec_float) (v : Z) : bool :=
  match y with
  | S754_zero _ => v =? 0
  | S754_finite s m e =>
      (e <? 0) && (Z.pos m * 32768 =? Z.abs v * 2 ^ (- e))
      && (if s then v <? 0 else 0 <? v)
  | _ => false
  end.


(* ------------------------------------------------------------------ *)
(** ** The timestamps of the server's subtitle answers (handlers) *)

(** [fmt.Sprintf] with the verbs [%02d] and [%03d]: the decimal digits,
    padded with zeros to [width] characters, the sign first. *)
Definition fmt_0d (width : nat) (n : Z) : string :=
  let digits := NilZero.string_of_uint (N.to_uint (Z.abs_N n)) in
  let zeros (k : nat) := string_of_list_ascii (repeat "0"%char k) in
  if n <? 0
  then ("-" +:+ zeros (width - 1 - String.length digits)%nat +:+ digits)%string
  else (zeros (width - String.length digits)%nat +:+ digits)%string.

Definition newline : string := String (ascii_of_nat 10) EmptyString.

Section Handlers.
Context `{FloatOps}.

Definition formatSRTTime (seconds : float64) : string :=
  let hours := Z.quot (int_of_f64 seconds) 3600 in
  let minutes := Z.quot (Z.rem (int_of_f64 seconds) 3600) 60 in
  let secs := Z.rem (int_of_f64 seconds) 60 in
  let millis := int_of_f64 (f64_mul (f64_sub seconds (f64_of_int (int_of_f64 seconds)))
                                    (f64_const 1000)) in
  (fmt_0d 2 hours +:+ ":" +:+ fmt_0d 2 minutes +:+ ":" +:+ fmt_0d 2 secs
   +:+ "," +:+ fmt_0d 3 millis)%string.

Definition formatVTTTime (seconds : float64) : string :=
  let hours := Z.quot (int_of_f64 seconds) 3600 in
  let minutes := Z.quot (Z.rem (int_of_f64 seconds) 3600) 60 in
  let secs := Z.rem (int_of_f64 seconds) 60 in
  let millis := int_of_f64 (f64_mul (f64_sub seconds (f64_of_int (int_of_f64 seconds)))
                                    (f64_const 1000)) in
  (fmt_0d 2 hours +:+ ":" +:+ fmt_0d 2 minutes +:+ ":" +:+ fmt_0d 2 secs
   +:+ "." +:+ fmt_0d 3 millis)%string.

(** [handleTranscription], after the transcription: the approximate
    duration of the upload (the constant [16000.0 * 2] is folded by the
    compiler) and the bodies of the [srt] and [vtt] answers. *)
Definition uploadDuration (audioData : list byte) : float64 :=
  f64_div (f64_of_int (len audioData)) (f64_const (16000 * 2)).

Definition srtBody (audioData : list byte) (text : string) : string :=
  ("1" +:+ newline +:+ "00:00:00,000 --> " +:+ formatSRTTime (uploadDuration audioData)
   +:+ newline +:+ text +:+ newline)%string.

Definition vttBody (audioData : list byte) (text : string) : string :=
  ("WEBVTT" +:+ newline +:+ newline +:+ "00:00:00.000 --> "
   +:+ formatVTTTime (uploadDuration audioData) +:+ newline +:+ text +:+ newline)%string.
End Handlers.

(** Two and three decimal digits. *)
Definition digitChar (d : Z) : ascii := ascii_of_nat (48 + Z.to_nat d).

Definition twoDigits (n : Z) : string :=
  String (digitChar (n / 10)) (String (digitChar (n mod 10)) EmptyString).

Definition threeDigits (n : Z) : string :=
  String (digitChar (n / 100)) (twoDigits (n mod 100)).

(** [HH:MM:SS] followed by [sep] and the milliseconds. *)
Definition clock (sep : string) (whole millis : Z) : string :=
  (twoDigits (whole / 3600) +:+ ":" +:+ twoDigits (whole mod 3600 / 60) +:+ ":"
   +:+ twoDigits (whole mod 60) +:+ sep +:+ threeDigits millis)%string.


(* ================================================================== *)
(** * Part II: properties                                              *)
(* ================================================================== *)

(** ** Results and the chunk walk *)

Lemma wav44_length : length wav44 = 44%nat.
Proof. reflexivity. Qed.

Section WavFacts.
Context `{MathLib} `{TextLib} `{!Runtime}.

(** The walk stops at [offset = len(data)-8 = 36], where the header of
    the data chunk starts: the loop test is strict. *)
Lemma parseWAV_wav44 : parseWAV wav44 = Err ErrNoDataChunk.
Proof. reflexivity. Qed.

(** One trailing byte is enough for the same data chunk to be found. *)
Lemma parseWAV_wav45 : parseWAV wav45 = Ok [].
Proof. reflexivity. Qed.

(** C4 (the code departs from the claim): for the 44-byte RIFF/WAVE
    payload made of the 12-byte header, a 24-byte fmt chunk and a data
    chunk header with an empty body, [parseWAV] reports that no data
    chunk was found and [Transcribe] returns that error, not the empty
    text. *)
Theorem C4_wav44_no_data_chunk (fuel : nat) (t : Transcriber) (language : string) :
  length wav44 = 44%nat /\
  parseWAV wav44 = Err ErrNoDataChunk /\
  Transcribe fuel t wav44 ".wav" language = Err (ErrLoadAudio ErrNoDataChunk).
Proof. repeat split. Qed.

(** C10: a RIFF/WAVE input whose fmt chunk declares zero channels, and
    one whose fmt chunk declares zero bits per sample, make the sample
    conversion divide by zero; the panic reaches the caller of
    [Transcribe] instead of an error value. *)
Theorem C10_zero_channels_or_bits_panic (fuel : nat) (t : Transcriber)
    (language : string) :
  (fmt_numChannels <$> readFmt wavZeroChannels 12 = Ok 0 /\
   parseWAV wavZeroChannels = Panic DivideByZero /\
   Transcribe fuel t wavZeroChannels ".wav" language = Panic DivideByZero) /\
  (fmt_bitsPerSample <$> readFmt wavZeroBits 12 = Ok 0 /\
   parseWAV wavZeroBits = Panic DivideByZero /\
   Transcribe fuel t wavZeroBits ".wav" language = Panic DivideByZero).
Proof. repeat split. Qed.

(** C5: whenever the decoded and resampled waveform has fewer than 1600
    samples, [Transcribe] returns the empty string and no error. *)
Theorem C5_short_audio_empty_text (fuel : nat) (t : Transcriber)
    (audioData : list byte) (format language : string) (waveform : list float32) :
  loadAudio audioData format = Ok waveform ->
  (length waveform < 1600)%nat ->
  Transcribe fuel t audioData format language = Ok EmptyString.
Proof.
  intros Hload Hshort. unfold Transcribe. rewrite Hload.
  replace (len waveform <? 1600) with true; [reflexivity|].
  symmetry. apply Z.ltb_lt. unfold len. lia.
Qed.
End WavFacts.

Lemma C5_witness :
  loadAudio (H := IEEE.ops) wavOneSample ".wav" = Ok [S754_finite false 8388608 (-24)] /\
  Transcribe 0 Double.transcriber wavOneSample ".wav" "en" = Ok EmptyString.
Proof.
  split; [reflexivity|].
  apply (C5_short_audio_empty_text 0 Double.transcriber wavOneSample ".wav" "en"
           [S754_finite false 8388608 (-24)]).
  - reflexivity.
  - simpl. lia.
Defined.

(** ** The TDT decoding loop *)
Lemma to_int64_id (n : Z) : min_int64 <= n <= max_int64 -> to_int64 n = n.
Proof.
  unfold to_int64, wrap_signed, min_int64, max_int64. intros Hn.
  change (2 ^ 64) with 18446744073709551616.
  change (2 ^ (64 - 1)) with 9223372036854775808.
  destruct (Z_lt_le_dec n 0) as [Hneg|Hpos].
  - replace (n mod 18446744073709551616) with (n + 18446744073709551616).
    + destruct (Z.ltb_spec (n + 18446744073709551616) 9223372036854775808); lia.
    + apply Z.mod_unique with (q := -1); lia.
  - rewrite Z.mod_small by lia.
    destruct (Z.ltb_spec n 9223372036854775808); lia.
Qed.

Lemma len_nonneg {A} (l : list A) : 0 <= len l.
Proof. unfold len. lia. Qed.

Lemma slice_len {A} (l x : list A) lo hi : slice l lo hi = Ok x -> len x = hi - lo.
Proof.
  unfold slice.
  destruct ((0 <=? lo) && (lo <=? hi) && (hi <=? len l)) eqn:E; [|discriminate].
  intros [= <-].
  apply andb_prop in E as [E E3]. apply andb_prop in E as [E1 E2].
  apply Z.leb_le in E1, E2, E3. unfold len in *.
  rewrite length_take, length_drop. lia.
Qed.

Section TdtFacts.
Context `{FloatOps} `{!Runtime}.

Lemma argmax_fold (l : list float32) mi mv i :
  0 <= mi <= Z.max 0 (i - 1) -> 0 <= i ->
  let r := fold_left
             (fun '(maxIdx, maxVal, i) v =>
                if f32_gt v maxVal then (i, v, i + 1) else (maxIdx, maxVal, i + 1))
             l (mi, mv, i) in
  0 <= fst (fst r) <= Z.max 0 (i + len l - 1).
Proof.
  revert mi mv i. induction l as [|v l IH]; intros mi mv i Hmi Hi; cbn zeta.
  - unfold len; simpl. lia.
  - simpl fold_left. destruct (f32_gt v mv).
    + specialize (IH i v (i + 1)). cbn zeta in IH.
      unfold len in *. rewrite length_cons. 
      assert (Hx : 0 <= i <= Z.max 0 (i + 1 - 1)) by lia.
      specialize (IH Hx ltac:(lia)). lia.
    + specialize (IH mi mv (i + 1)). cbn zeta in IH.
      unfold len in *. rewrite length_cons.
      assert (Hx : 0 <= mi <= Z.max 0 (i + 1 - 1)) by lia.
      specialize (IH Hx ltac:(lia)). lia.
Qed.

Lemma argmax_bounds (data : list float32) :
  0 <= argmax data <= Z.max 0 (len data - 1).
Proof.
  unfold argmax. destruct data as [|d0 l]; [unfold len; simpl; lia|].
  pose proof (argmax_fold (d0 :: l) 0 d0 0 ltac:(lia) ltac:(lia)) as Hf.
  cbn zeta in Hf. rewrite Z.add_0_l in Hf. exact Hf.
Qed.

Variable t : Transcriber.
Variables (encoderOut : list float32) (encoderDim encodedLen : Z).

Lemma decodeAt_step_bound st token step out :
  DecoderShape -> 0 <= vocabSize t ->
  decodeAt t encoderOut encoderDim encodedLen st = Ok (token, step, out) ->
  0 <= step <= 4.
Proof.
  intros Hshape Hvs. unfold decodeAt.
  destruct (encoderColumn _ _ _ _) as [col| | |]; try discriminate. cbn.
  destruct (runDecoder _ _ _ _ _ _) as [e|o] eqn:Erun; try discriminate. cbn.
  destruct (slice (dec_outputs o) 0 _) as [vl| | |]; try discriminate. cbn.
  destruct (slice (dec_outputs o) (vocabSize t) _) as [dl| | |] eqn:Edl; try discriminate. cbn.
  intros [= <- <- <-].
  apply slice_len in Edl. apply Hshape in Erun; [|lia].
  pose proof (argmax_bounds dl). lia.
Qed.

Hypothesis Hshape : DecoderShape.
Hypothesis Hvs : 0 <= vocabSize t.
Hypothesis Hmax : 1 <= maxTokensPerStep t.
Hypothesis Hlen : encodedLen <= max_int64 - 4.

Lemma tdtStep_decode st st' :
  tdtStep t encoderOut encoderDim encodedLen st = Ok st' ->
  exists token step out,
    decodeAt t encoderOut encoderDim encodedLen st = Ok (token, step, out) /\
    st' = advance t token step (emit t token out st).
Proof.
  unfold tdtStep.
  destruct (decodeAt _ _ _ _ _) as [[[token step] out]| | |]; try discriminate.
  cbn. intros [= <-]. eauto.
Qed.

Lemma tdtStep_progress st st' :
  loopInv t st -> timestep st < encodedLen ->
  tdtStep t encoderOut encoderDim encodedLen st = Ok st' ->
  loopInv t st' /\
  ((timestep st < timestep st' /\ emittedTokens st' = 0) \/
   (timestep st' = timestep st /\ emittedTokens st' = emittedTokens st + 1)).
Proof.
  intros [Ht He] Hlt Hstep.
  apply tdtStep_decode in Hstep as (token & step & out & Hdec & ->).
  pose proof (decodeAt_step_bound _ _ _ _ Hshape Hvs Hdec) as Hs.
  unfold advance, emit, loopInv, max_int64 in *.
  destruct (Z.eqb_spec token (blankIdx t)) as [Hb|Hb]; cbn [negb];
    destruct (Z.gtb_spec step 0) as [Hpos|Hzero]; cbn [orb timestep emittedTokens set_time].
  - rewrite to_int64_id by (unfold min_int64, max_int64; lia). lia.
  - rewrite to_int64_id by (unfold min_int64, max_int64; lia). lia.
  - rewrite to_int64_id by (unfold min_int64, max_int64; lia). lia.
  - destruct (Z.geb_spec (emittedTokens st + 1) (maxTokensPerStep t)) as [Hge|Hlt'];
      cbn [timestep emittedTokens set_time].
    + rewrite to_int64_id by (unfold min_int64, max_int64; lia). lia.
    + lia.
Qed.

Local Notation "'run' fuel st" := (tdtLoop fuel t encoderOut encoderDim encodedLen st) (at level 10, fuel at level 9, st at level 9).
Local Abbreviation chain := (linked t encoderOut encoderDim encodedLen).

Lemma tdtLoop_unfold fuel st :
  run fuel st =
  if timestep st <? encodedLen then
    match fuel with
    | O => ([], OutOfFuel)
    | S fuel' =>
        match tdtStep t encoderOut encoderDim encodedLen st with
        | Ok st' => let '(trace, r) := run fuel' st' in (st :: trace, r)
        | Err e => ([st], Err e)
        | Panic p => ([st], Panic p)
        | OutOfFuel => ([st], OutOfFuel)
        end
    end
  else ([], Ok st).
Proof. destruct fuel; reflexivity. Qed.

(** Shape of a run: the heads start with the initial state, consecutive
    heads are one iteration apart, the body runs only below
    [encodedLen], and a normal exit happens at or above it. *)
Lemma tdtLoop_heads fuel st :
  let hs := loopHeads (run fuel st) in
  chain hs /\
  (forall a, hs !! 0%nat = Some a -> a = st) /\
  (forall a, a ∈ fst (run fuel st) -> timestep a < encodedLen) /\
  (forall s, snd (run fuel st) = Ok s -> encodedLen <= timestep s) /\
  (fst (run fuel st) = [] -> snd (run fuel st) = Ok st \/ snd (run fuel st) = OutOfFuel).
Proof.
  revert st. induction fuel as [|fuel IH]; intros st; cbn zeta; rewrite tdtLoop_unfold.
  - destruct (Z.ltb_spec (timestep st) encodedLen) as [Hlt|Hge]; unfold loopHeads; cbn.
    + split; [exact I|]. split; [discriminate|]. split; [intros a Ha; inversion Ha|].
      split; [discriminate|]. intros _. now right.
    + split; [exact I|]. split; [now intros a [= <-]|].
      split; [intros a Ha; inversion Ha|].
      split; [now intros s [= <-]|]. intros _. now left.
  - destruct (Z.ltb_spec (timestep st) encodedLen) as [Hlt|Hge].
    2:{ unfold loopHeads; cbn.
        split; [exact I|]. split; [now intros a [= <-]|].
        split; [intros a Ha; inversion Ha|].
        split; [now intros s [= <-]|]. intros _. now left. }
    destruct (tdtStep t encoderOut encoderDim encodedLen st) as [st'| e | p |] eqn:Estep.
    2-4: unfold loopHeads; cbn;
         (split; [exact I|]); (split; [now intros a [= <-]|]);
         (split; [intros a Ha; apply list_elem_of_singleton in Ha; now subst|]);
         (split; [discriminate|]); discriminate.
    specialize (IH st'). cbn zeta in IH.
    destruct (run fuel st') as [trace r] eqn:Erun.
    unfold loopHeads in *. cbn [fst snd] in *.
    destruct IH as (Hchain & Hhead & Hbelow & Hexit & Hempty).
    split; [|split; [|split; [|split]]].
    + cbn [app]. destruct (trace ++ match r with Ok s => [s] | _ => [] end) as [|b tl] eqn:Ehs.
      * exact I.
      * split; [|exact Hchain]. split; [exact Hlt|].
        rewrite Estep. f_equal. symmetry. apply Hhead. reflexivity.
    + now intros a [= <-].
    + intros a Ha. apply elem_of_cons in Ha as [->|Ha]; [exact Hlt|now apply Hbelow].
    + exact Hexit.
    + discriminate.
Qed.

Lemma mapM_not_OutOfFuel {A B} (f : A -> Res B) (l : list A) :
  (forall a, f a <> OutOfFuel) -> mapM f l <> OutOfFuel.
Proof.
  intros Hf. induction l as [|a l IH]; cbn; [discriminate|].
  specialize (Hf a). destruct (f a); cbn; try easy.
  destruct (mapM f l); cbn; easy.
Qed.

Lemma index_not_OutOfFuel {A} (l : list A) i : index l i <> OutOfFuel.
Proof.
  unfold index. destruct ((0 <=? i) && (i <? len l)); [|discriminate].
  destruct (l !! Z.to_nat i); discriminate.
Qed.

Lemma slice_not_OutOfFuel {A} (l : list A) lo hi : slice l lo hi <> OutOfFuel.
Proof.
  unfold slice. destruct ((0 <=? lo) && (lo <=? hi) && (hi <=? len l)); discriminate.
Qed.

Lemma tdtStep_not_OutOfFuel st :
  tdtStep t encoderOut encoderDim encodedLen st <> OutOfFuel.
Proof.
  unfold tdtStep, decodeAt, encoderColumn.
  match goal with |- context [mapM ?f ?l] =>
    pose proof (mapM_not_OutOfFuel f l) as Hm; destruct (mapM f l) end; cbn; try easy.
  2:{ exfalso. apply Hm; [|reflexivity]. intros d.
      destruct (_ <? _); [apply index_not_OutOfFuel|discriminate]. }
  destruct (runDecoder _ _ _ _ _ _) as [e|o]; cbn; [discriminate|].
  pose proof (slice_not_OutOfFuel (dec_outputs o) 0 (vocabSize t)).
  destruct (slice (dec_outputs o) 0 _); cbn; try easy.
  pose proof (slice_not_OutOfFuel (dec_outputs o) (vocabSize t) (len (dec_outputs o))).
  destruct (slice (dec_outputs o) (vocabSize t) _); cbn; easy.
Qed.

Lemma loopMeasure_pos st :
  loopInv t st -> timestep st < encodedLen -> 1 <= loopMeasure t encodedLen st.
Proof. unfold loopInv, loopMeasure. nia. Qed.

Lemma loopMeasure_step st st' :
  loopInv t st -> timestep st < encodedLen ->
  tdtStep t encoderOut encoderDim encodedLen st = Ok st' ->
  loopMeasure t encodedLen st' <= loopMeasure t encodedLen st - 1.
Proof.
  intros Hinv Hlt Hstep.
  destruct (tdtStep_progress _ _ Hinv Hlt Hstep) as [Hinv' Hcase].
  unfold loopInv, loopMeasure in *. nia.
Qed.

(** Enough fuel: the loop is never cut short, and it runs its body at
    most [loopMeasure] times. *)
Lemma tdtLoop_fuel fuel st :
  loopInv t st ->
  (Z.to_nat (loopMeasure t encodedLen st) <= fuel)%nat ->
  snd (run fuel st) <> OutOfFuel /\
  (length (fst (run fuel st)) <= Z.to_nat (loopMeasure t encodedLen st))%nat.
Proof.
  revert st. induction fuel as [|fuel IH]; intros st Hinv Hfuel; rewrite tdtLoop_unfold.
  - destruct (Z.ltb_spec (timestep st) encodedLen) as [Hlt|Hge]; cbn.
    + pose proof (loopMeasure_pos _ Hinv Hlt). lia.
    + split; [discriminate|lia].
  - destruct (Z.ltb_spec (timestep st) encodedLen) as [Hlt|Hge]; cbn.
    2:{ split; [discriminate|lia]. }
    pose proof (loopMeasure_pos _ Hinv Hlt) as Hpos.
    destruct (tdtStep t encoderOut encoderDim encodedLen st) as [st'| e | p |] eqn:Estep;
      cbn.
    + pose proof (loopMeasure_step _ _ Hinv Hlt Estep) as Hdec.
      destruct (tdtStep_progress _ _ Hinv Hlt Estep) as [Hinv' _].
      specialize (IH st' Hinv' ltac:(lia)).
      destruct (run fuel st') as [trace r]. cbn in *. split; [tauto|lia].
    + split; [discriminate|lia].
    + split; [discriminate|lia].
    + exfalso. now apply (tdtStep_not_OutOfFuel st).
Qed.

Lemma chain_tail a l : chain (a :: l) -> chain l.
Proof. destruct l; cbn; tauto. Qed.

Lemma chain_drop l i : chain l -> chain (drop i l).
Proof.
  revert l. induction i as [|i IH]; intros l Hl; [now rewrite drop_0|].
  destruct l as [|a l]; [exact I|]. cbn. apply IH. now apply chain_tail in Hl.
Qed.

(** Along a run the time pointer never decreases, and while it stands
    still [emittedTokens] counts the iterations. *)
Lemma chain_window l a k b :
  chain (a :: l) -> loopInv t a -> (a :: l) !! k = Some b ->
  loopInv t b /\ timestep a <= timestep b /\
  (timestep a < timestep b \/ emittedTokens b = emittedTokens a + Z.of_nat k).
Proof.
  revert a k. induction l as [|a' l IH]; intros a k Hchain Hinv Hk.
  - destruct k; [|discriminate]. injection Hk as <-. split; [exact Hinv|lia].
  - destruct k as [|k]; [injection Hk as <-; split; [exact Hinv|lia]|].
    cbn in Hk. destruct Hchain as [[Hlt Hstep] Hchain].
    destruct (tdtStep_progress _ _ Hinv Hlt Hstep) as [Hinv' Hcase].
    destruct (IH a' k Hchain Hinv' Hk) as (Hb & Hle & Hw).
    split; [exact Hb|]. lia.
Qed.
End TdtFacts.

Section TdtClaims.
Context `{FloatOps} `{!Runtime}.

(** C1: with [maxTokensPerStep = 10] and an encoder length [T'] (a
    length, small enough for [timestep + step] to stay inside int64), the
    decoding loop is over after at most [10 * T'] iterations: fuel
    [10 * T'] is never exhausted and the body runs at most that often.
    The time pointer starts at 0, never decreases from one loop test to
    the next, is strictly larger after any 11 consecutive iterations,
    the body runs only while [timestep < T'], and the loop leaves
    normally exactly with [timestep >= T']. *)
Theorem C1_tdt_loop_terminates (fuel : nat) (t : Transcriber)
    (encoderOut : list float32) (encoderDim encodedLen : Z) :
  DecoderShape ->
  0 <= vocabSize t ->
  maxTokensPerStep t = 10 ->
  0 <= encodedLen <= max_int64 - 4 ->
  (Z.to_nat (10 * encodedLen) <= fuel)%nat ->
  let run := tdtLoop fuel t encoderOut encoderDim encodedLen (tdtInit t) in
  let heads := loopHeads run in
  snd run <> OutOfFuel /\
  tdtDecode fuel t encoderOut encoderDim encodedLen <> OutOfFuel /\
  len (fst run) <= 10 * encodedLen /\
  (forall a, heads !! 0%nat = Some a -> timestep a = 0) /\
  (forall i a b, heads !! i = Some a -> heads !! S i = Some b ->
                 timestep a <= timestep b) /\
  (forall i a b, heads !! i = Some a -> heads !! (i + 11)%nat = Some b ->
                 timestep a < timestep b) /\
  (forall a, a ∈ fst run -> timestep a < encodedLen) /\
  (forall s, snd run = Ok s -> encodedLen <= timestep s).
Proof.
  intros Hshape Hvs Hmax Hlen Hfuel run heads.
  assert (Hmax1 : 1 <= maxTokensPerStep t) by lia.
  assert (Hlen' : encodedLen <= max_int64 - 4) by lia.
  assert (Hinit : loopInv t (tdtInit t)) by (unfold loopInv; cbn; lia).
  assert (Hmeasure : loopMeasure t encodedLen (tdtInit t) = 10 * encodedLen)
    by (unfold loopMeasure; cbn; lia).
  destruct (tdtLoop_fuel t encoderOut encoderDim encodedLen Hshape Hvs Hmax1 Hlen'
              fuel (tdtInit t) Hinit ltac:(lia)) as [Hfin Hcount].
  destruct (tdtLoop_heads t encoderOut encoderDim encodedLen fuel (tdtInit t))
    as (Hchain & Hhead & Hbelow & Hexit & _).
  fold run in Hfin, Hcount, Hchain, Hhead, Hbelow, Hexit. fold heads in Hchain, Hhead.
  assert (Hfrom : forall i k a b, heads !! i = Some a -> heads !! (i + k)%nat = Some b ->
            loopInv t b /\ timestep a <= timestep b /\
            (timestep a < timestep b \/ emittedTokens b = emittedTokens a + Z.of_nat k)).
  { intros i k a b Ha Hb.
    assert (Hinva : loopInv t a).
    { destruct heads as [|h0 tl] eqn:Eh; [discriminate|].
      assert (h0 = tdtInit t) as -> by (apply Hhead; reflexivity).
      now destruct (chain_window t encoderOut encoderDim encodedLen Hshape Hvs Hmax1 Hlen'
                      tl (tdtInit t) i a Hchain Hinit Ha). }
    pose proof (chain_drop t encoderOut encoderDim encodedLen heads i Hchain) as Hd.
    rewrite (drop_S _ _ _ Ha) in Hd.
    apply (chain_window t encoderOut encoderDim encodedLen Hshape Hvs Hmax1 Hlen'
             _ a k b Hd Hinva).
    rewrite <- (drop_S _ _ _ Ha), lookup_drop. exact Hb. }
  split; [exact Hfin|]. split.
  { unfold tdtDecode. fold run. destruct (snd run); cbn; congruence. }
  split; [unfold len; lia|]. split.
  { intros a Ha. now rewrite (Hhead a Ha). }
  split.
  { intros i a b Ha Hb. replace (S i) with (i + 1)%nat in Hb by lia.
    now destruct (Hfrom i 1%nat a b Ha Hb) as (_ & Hle & _). }
  split.
  { intros i a b Ha Hb.
    destruct (Hfrom i 11%nat a b Ha Hb) as (Hinvb & _ & [Hlt|Heq]); [exact Hlt|].
    assert (Hinva : loopInv t a).
    { destruct (Hfrom i 0%nat a a Ha) as [Hx _]; [|exact Hx].
      rewrite Nat.add_0_r. exact Ha. }
    unfold loopInv in *. lia. }
  split; [exact Hbelow|exact Hexit].
Qed.

(** C9: an iteration whose argmax token is the blank leaves [state1],
    [state2] and [prevToken] as they were; an iteration that emits a
    non-blank token overwrites the states with the decoder's output
    states, sets [prevToken] to the token and appends it. *)
Theorem C9_blank_keeps_state (t : Transcriber) (encoderOut : list float32)
    (encoderDim encodedLen : Z) (st : LoopState) (token step : Z) (out : DecoderOut) :
  decodeAt t encoderOut encoderDim encodedLen st = Ok (token, step, out) ->
  exists st',
    tdtStep t encoderOut encoderDim encodedLen st = Ok st' /\
    (token = blankIdx t ->
       state1 st' = state1 st /\ state2 st' = state2 st /\
       prevToken st' = prevToken st /\ tokens st' = tokens st) /\
    (token <> blankIdx t ->
       state1 st' = copy (state1 st) (dec_states_1 out) /\
       state2 st' = copy (state2 st) (dec_states_2 out) /\
       prevToken st' = token /\ tokens st' = tokens st ++ [token]).
Proof.
  intros Hdec. unfold tdtStep. rewrite Hdec. cbn.
  eexists; split; [reflexivity|].
  unfold advance, emit.
  split; intros Hb.
  - rewrite (proj2 (Z.eqb_eq _ _) Hb). cbn [negb orb].
    destruct (step >? 0); cbn; auto.
  - rewrite (proj2 (Z.eqb_neq _ _) Hb). cbn [negb orb].
    destruct (step >? 0); cbn; auto.
    destruct (_ >=? _); cbn; auto.
Qed.
End TdtClaims.

Lemma Double_runtime_shape : @DecoderShape IEEE.ops Double.runtime.
Proof.
  intros dir enc prev s1 s2 outputDim o Hdim [= <-]. cbn.
  unfold len. rewrite repeat_length. lia.
Qed.

Lemma C1_witness :
  let run := tdtLoop 30 Double.transcriber [] 1024 3 (tdtInit Double.transcriber) in
  snd run <> OutOfFuel /\ len (fst run) <= 10 * 3 /\ length (fst run) = 30%nat.
Proof.
  intros run.
  pose proof (C1_tdt_loop_terminates 30 Double.transcriber [] 1024 3
                Double_runtime_shape) as Hc.
  cbn zeta in Hc. fold run in Hc.
  destruct Hc as (Hfin & _ & Hcount & _).
  - simpl. lia.
  - reflexivity.
  - unfold max_int64. lia.
  - simpl. lia.
  - split; [exact Hfin|]. split; [exact Hcount|]. vm_compute. reflexivity.
Defined.

Lemma C9_witness :
  exists st',
    tdtStep Double.blankFirst [] 1024 3 (tdtInit Double.blankFirst) = Ok st' /\
    state1 st' = state1 (tdtInit Double.blankFirst) /\
    prevToken st' = prevToken (tdtInit Double.blankFirst).
Proof.
  destruct (C9_blank_keeps_state Double.blankFirst [] 1024 3 (tdtInit Double.blankFirst)
              0 0 Double.answer) as (st' & Hstep & Hblank & _).
  - reflexivity.
  - exists st'. split; [exact Hstep|].
    destruct (Hblank eq_refl) as (H1 & _ & H3 & _). split; assumption.
Defined.

(** ** The vocabulary *)

Lemma vocabLine_entry (st : gmap Z string * Z) (line : string) :
  vocabLine st line =
  match vocabEntry line with
  | Some (id, piece) =>
      (<[id := piece]> (fst st), if String.eqb piece "<blk>" then id else snd st)
  | None => st
  end.
Proof.
  unfold vocabLine, vocabEntry, strings_SplitN2.
  destruct (cutSpace line) as [[piece idText]|]; [|reflexivity].
  destruct (strconv_Atoi idText); reflexivity.
Qed.

Lemma vocab_fold (lines : list string) (m : gmap Z string) (b : Z) :
  fst (fold_left vocabLine lines (m, b)) =
  list_to_map (reverse (omap vocabEntry lines)) ∪ m.
Proof.
  revert m b. induction lines as [|line lines IH]; intros m b.
  - cbn. now rewrite (left_id_L ∅ (∪)).
  - cbn [fold_left]. rewrite vocabLine_entry.
    change (omap vocabEntry (line :: lines))
      with (match vocabEntry line with
            | Some y => y :: omap vocabEntry lines
            | None => omap vocabEntry lines
            end).
    destruct (vocabEntry line) as [[id piece]|]; cbn [fst snd].
    + rewrite IH, reverse_cons, list_to_map_app. cbn [list_to_map foldr fst snd].
      rewrite <- (assoc_L (∪)). f_equal.
      rewrite insert_union_singleton_l.
      now rewrite insert_empty.
    + apply IH.
Qed.

Lemma countWellFormed_entries (lines : list string) :
  countWellFormed lines = length (omap vocabEntry lines).
Proof.
  unfold countWellFormed, wellFormedLine.
  induction lines as [|line lines IH]; [reflexivity|].
  change (omap vocabEntry (line :: lines))
    with (match vocabEntry line with
          | Some y => y :: omap vocabEntry lines
          | None => omap vocabEntry lines
          end).
  cbn [List.filter]. destruct (vocabEntry line); cbn [length]; now rewrite IH.
Qed.

Lemma size_list_to_map_le (l : list (Z * string)) :
  (size (list_to_map l : gmap Z string) <= length l)%nat.
Proof.
  induction l as [|[k v] l IH].
  - cbn. now rewrite map_size_empty.
  - change (list_to_map ((k, v) :: l) : gmap Z string)
      with (<[k := v]> (list_to_map l : gmap Z string)).
    rewrite map_size_insert. cbn [length].
    destruct (_ !! k); unfold Datatypes.id; lia.
Qed.

Lemma size_list_to_map_NoDup (l : list (Z * string)) :
  NoDup l.*1 -> size (list_to_map l : gmap Z string) = length l.
Proof.
  intros Hnd. rewrite <- (length_fmap fst l).
  rewrite <- (size_dom (list_to_map l : gmap Z string)) at 1.
  rewrite dom_list_to_map_L.
  now rewrite size_list_to_set.
Qed.

(** The replacement of the word marker leaves no marker behind. *)
Lemma replaceAll_skip (k : nat) (c : ascii) (s : string) :
  replaceAll_from spMarker " " (S k) (String c s) = replaceAll_from spMarker " " k s.
Proof. reflexivity. Qed.

Lemma replaceAll_first (a : ascii) (s r : string) :
  a <> " "%char ->
  replaceAll_from spMarker " " 0 s = String a r ->
  exists s', s = String a s' /\ r = replaceAll_from spMarker " " 0 s'.
Proof.
  intros Ha. destruct s as [|c s']; [discriminate|].
  cbn [replaceAll_from].
  destruct (String.prefix spMarker (String c s')).
  - cbn. intros [= <- _]. now contradiction Ha.
  - intros [= <- <-]. eauto.
Qed.

Lemma prefix_cons_inv (a : ascii) (p s : string) :
  String.prefix (String a p) s = true ->
  exists r, s = String a r /\ String.prefix p r = true.
Proof.
  destruct s as [|b r]; [discriminate|]. cbn [String.prefix].
  destruct (ascii_dec a b) as [<-|]; [|discriminate]. eauto.
Qed.

Lemma replaceAll_no_new_prefix (s : string) :
  String.prefix spMarker (replaceAll_from spMarker " " 0 s) = true ->
  String.prefix spMarker s = true.
Proof.
  unfold spMarker at 1. intros Hp.
  apply prefix_cons_inv in Hp as (r1 & E1 & Hp).
  apply replaceAll_first in E1 as (s1 & -> & ->); [|discriminate].
  apply prefix_cons_inv in Hp as (r2 & E2 & Hp).
  apply replaceAll_first in E2 as (s2 & -> & ->); [|discriminate].
  apply prefix_cons_inv in Hp as (r3 & E3 & _).
  apply replaceAll_first in E3 as (s3 & -> & ->); [|discriminate].
  unfold spMarker. cbn [String.prefix].
  repeat (destruct (ascii_dec _ _); [|congruence]).
  destruct s3; reflexivity.
Qed.

Lemma replaceAll_from_no_marker (s : string) (k : nat) :
  containsStr spMarker (replaceAll_from spMarker " " k s) = false.
Proof.
  revert k. induction s as [|c s IH]; intros k; [reflexivity|].
  destruct k as [|k]; [|rewrite replaceAll_skip; apply IH].
  cbn [replaceAll_from].
  destruct (String.prefix spMarker (String c s)) eqn:Ep.
  - change (" " +:+ ?x) with (String " " x).
    cbn [containsStr]. rewrite IH. reflexivity.
  - cbn [containsStr]. rewrite IH, orb_false_r.
    destruct (String.prefix spMarker (String c (replaceAll_from spMarker " " 0 s))) eqn:Eq;
      [|reflexivity].
    assert (Hr : replaceAll_from spMarker " " 0 (String c s)
                 = String c (replaceAll_from spMarker " " 0 s))
      by (cbn [replaceAll_from]; now rewrite Ep).
    rewrite <- Hr in Eq. apply replaceAll_no_new_prefix in Eq. congruence.
Qed.

Lemma replaceAll_leading_marker (s : string) :
  strings_ReplaceAll (spMarker +:+ s) spMarker " "
  = String " " (strings_ReplaceAll s spMarker " ").
Proof. destruct s; reflexivity. Qed.

(** C7 (amended): the loaded map is the list of the entries of the
    well-formed lines, a later line winning over an earlier one with the
    same id; [vocabSize] is its size; it has at most K entries for K
    well-formed lines and exactly K when their ids are pairwise distinct;
    malformed lines contribute nothing; no stored piece contains U+2581,
    each occurrence having been replaced by one ASCII space. *)
Theorem C7_loadVocab_entries `{FloatOps} (t : Transcriber) (lines : list string)
    (scanErr : option Error) :
  let t' := fst (loadVocab t (Scans lines scanErr)) in
  let entries := omap vocabEntry lines in
  length entries = countWellFormed lines /\
  vocab t' = list_to_map (reverse entries) /\
  vocabSize t' = Z.of_nat (size (vocab t')) /\
  dom (vocab t') = list_to_set entries.*1 /\
  (size (vocab t') <= countWellFormed lines)%nat /\
  (NoDup entries.*1 -> size (vocab t') = countWellFormed lines) /\
  (forall id piece, vocab t' !! id = Some piece ->
     containsStr spMarker piece = false /\
     exists line raw idText,
       line ∈ lines /\ cutSpace line = Some (raw, idText) /\
       strconv_Atoi idText = Some id /\
       piece = strings_ReplaceAll raw spMarker " ").
Proof.
  intros t' entries.
  assert (Hv : vocab t' = list_to_map (reverse entries)).
  { unfold t', loadVocab, set_vocab. cbn [fst vocab].
    rewrite vocab_fold. now rewrite (right_id_L ∅ (∪)). }
  rewrite countWellFormed_entries. fold entries.
  split; [reflexivity|]. split; [exact Hv|]. split; [reflexivity|].
  split.
  { rewrite Hv, dom_list_to_map_L, fmap_reverse.
    apply set_eq. intros x. rewrite !elem_of_list_to_set, elem_of_reverse. reflexivity. }
  split.
  { rewrite Hv. etransitivity; [apply size_list_to_map_le|]. now rewrite length_reverse. }
  split.
  { intros Hnd. rewrite Hv, size_list_to_map_NoDup.
    - now rewrite length_reverse.
    - rewrite fmap_reverse. now rewrite reverse_Permutation. }
  intros id piece Hl. rewrite Hv in Hl.
  apply elem_of_list_to_map_2 in Hl. rewrite elem_of_reverse in Hl.
  unfold entries in Hl. apply list_elem_of_omap in Hl as (line & Hin & He).
  unfold vocabEntry in He.
  destruct (cutSpace line) as [[raw idText]|] eqn:Ec; [|discriminate].
  destruct (strconv_Atoi idText) as [id'|] eqn:Ea; [|discriminate].
  injection He as <- <-.
  split; [apply replaceAll_from_no_marker|].
  exists line, raw, idText. auto.
Qed.

(** Two well-formed lines with the same id: the map has one entry, and
    it is the later line's. *)
Lemma C7_counterexample :
  let lines := ["a 1"%string; "b 1"%string] in
  let t' := fst (loadVocab Double.transcriber (Scans lines None)) in
  countWellFormed lines = 2%nat /\
  size (vocab t') <> countWellFormed lines /\
  vocab t' !! 1 = Some "b"%string.
Proof. vm_compute. repeat split; congruence. Qed.

(** ** The mel feature extractor *)

Lemma for_lt_invariant {S : Type} (P : S -> Prop) (body : Z -> S -> S)
    (fuel : nat) (i bound step : Z) (s : S) :
  (forall j x, P x -> P (body j x)) -> P s -> P (for_lt fuel i bound step body s).
Proof.
  intros Hbody. revert i s. induction fuel as [|fuel IH]; intros i s Hs; cbn; [exact Hs|].
  destruct (i <? bound); [|exact Hs]. apply IH, Hbody, Hs.
Qed.

Lemma for_range_invariant {S : Type} (P : S -> Prop) (body : Z -> S -> S)
    (lo hi : Z) (s : S) :
  (forall j x, P x -> P (body j x)) -> P s -> P (for_range lo hi body s).
Proof. apply for_lt_invariant. Qed.

Section MelFacts.
Context `{MathLib}.

Lemma normalizeFrame_length (means stds : list float64) (n : Z) (frame : list float32) :
  length (normalizeFrame means stds n frame) = length frame.
Proof.
  unfold normalizeFrame.
  apply (for_range_invariant (fun x => length x = length frame)); [|reflexivity].
  intros j x Hx. now rewrite length_insert.
Qed.

Lemma normalize_length (features : list (list float32)) :
  length (normalize features) = length features.
Proof.
  unfold normalize. destruct features as [|first rest]; [reflexivity|].
  now rewrite length_map.
Qed.

Lemma normalize_rows (features : list (list float32)) (n : nat) :
  Forall (fun row => length row = n) features ->
  Forall (fun row => length row = n) (normalize features).
Proof.
  unfold normalize. destruct features as [|first rest]; [auto|].
  intros Hall. apply Forall_map. 
  eapply Forall_impl; [exact Hall|]. cbn. intros row Hrow.
  now rewrite normalizeFrame_length.
Qed.

Lemma melFrame_length (m : MelFilterbank) (samples : list float32) (frame : Z) :
  length (melFrame m samples frame) = Z.to_nat (nMels m).
Proof. unfold melFrame. now rewrite length_map, length_seqZ. Qed.

(** The number of frames is the truncated quotient plus one when that is
    positive, and every frame has [nMels] entries. *)
Lemma Extract_shape (m : MelFilterbank) (samples : list float32) :
  length (Extract m samples)
  = Z.to_nat (Z.quot (len samples - winLength m) (hopLength m) + 1) /\
  Forall (fun row => length row = Z.to_nat (nMels m)) (Extract m samples).
Proof.
  unfold Extract.
  destruct (Z.leb_spec (Z.quot (len samples - winLength m) (hopLength m) + 1) 0) as [Hle|Hgt].
  - split; [cbn; lia|constructor].
  - split.
    + now rewrite normalize_length, length_map, length_seqZ.
    + apply normalize_rows, Forall_map, Forall_forall. intros frame _.
      apply melFrame_length.
Qed.

(** With at least one full window the count is the floor formula. *)
Lemma Extract_frames_full (nm sr : Z) (samples : list float32) :
  400 <= len samples ->
  len (Extract (NewMelFilterbank nm sr) samples) = (len samples - 400) / 160 + 1.
Proof.
  intros Hlen. unfold len at 1.
  rewrite (proj1 (Extract_shape _ _)). cbn [winLength hopLength NewMelFilterbank].
  rewrite Z.quot_div_nonneg by lia.
  assert (0 <= (len samples - 400) / 160) by (apply Z.div_pos; lia). lia.
Qed.

(** Up to 240 samples the result is empty. *)
Lemma Extract_empty_below_241 (nm sr : Z) (samples : list float32) :
  len samples <= 240 ->
  Extract (NewMelFilterbank nm sr) samples = [].
Proof.
  intros Hlen. apply length_zero_iff_nil.
  rewrite (proj1 (Extract_shape _ _)). cbn [winLength hopLength NewMelFilterbank].
  assert (Z.quot (len samples - 400) 160 <= -1); [|lia].
  rewrite <- (Z.opp_involutive (len samples - 400)), Z.quot_opp_l by lia.
  pose proof (len_nonneg samples).
  rewrite Z.quot_div_nonneg by lia.
  assert (1 <= (- (len samples - 400)) / 160) by (apply Z.div_le_lower_bound; lia). lia.
Qed.

(** From 241 to 399 samples, fewer than one window, the truncated
    quotient is zero and one frame comes out. *)
Lemma Extract_one_frame_below_400 (nm sr : Z) (samples : list float32) :
  241 <= len samples <= 399 ->
  length (Extract (NewMelFilterbank nm sr) samples) = 1%nat.
Proof.
  intros Hlen.
  rewrite (proj1 (Extract_shape _ _)). cbn [winLength hopLength NewMelFilterbank].
  assert (Z.quot (len samples - 400) 160 = 0); [|lia].
  rewrite <- (Z.opp_involutive (len samples - 400)), Z.quot_opp_l by lia.
  rewrite Z.quot_div_nonneg by lia.
  rewrite Z.div_small by lia. reflexivity.
Qed.

(** The filterbank has [nMels] rows of [nFFT/2 + 1] weights each, so the
    reads of [melEnergy] stay inside it. *)
Lemma melFilter_length `{MathLib} (binPoints : list Z) (numBins i : Z) :
  length (melFilter binPoints numBins i) = Z.to_nat numBins.
Proof.
  unfold melFilter. cbv zeta.
  apply (for_range_invariant (fun l => length l = Z.to_nat numBins)).
  - intros j x Hx. now rewrite length_insert.
  - apply (for_range_invariant (fun l => length l = Z.to_nat numBins)).
    + intros j x Hx. now rewrite length_insert.
    + apply repeat_length.
Qed.

Lemma NewMelFilterbank_shape `{MathLib} (nm sr : Z) :
  length (filterbank (NewMelFilterbank nm sr)) = Z.to_nat nm /\
  Forall (fun row => length row = 257%nat) (filterbank (NewMelFilterbank nm sr)).
Proof.
  cbn [filterbank NewMelFilterbank]. unfold createMelFilterbank. cbv zeta.
  cbn [nMels nFFT]. split.
  - now rewrite length_map, length_seqZ.
  - apply Forall_forall. intros row Hrow.
    apply list_elem_of_In, in_map_iff in Hrow. destruct Hrow as (i & <- & _).
    now rewrite melFilter_length.
Qed.

(** C2 (the code departs from the claim): for a buffer of 399 samples,
    fewer than one window of 400, [Extract] returns one frame of 128
    entries and not the empty sequence; [(399-400)/160] is 0 for Go's
    truncating division, so the guard [numFrames <= 0] does not fire.
    The floor formula of the claim gives 0 frames there. *)
Theorem C2_extract_399_samples_one_frame (x : float32) :
  (399 - 400) / 160 + 1 = 0 /\
  Z.quot (399 - 400) 160 + 1 = 1 /\
  length (Extract (NewMelFilterbank 128 16000) (repeat x 399)) = 1%nat /\
  Forall (fun row => length row = 128%nat)
         (Extract (NewMelFilterbank 128 16000) (repeat x 399)).
Proof.
  split; [reflexivity|]. split; [reflexivity|]. split.
  - apply Extract_one_frame_below_400. unfold len. rewrite repeat_length. lia.
  - apply (proj2 (Extract_shape (NewMelFilterbank 128 16000) (repeat x 399))).
Qed.
End MelFacts.

(** ** The resampler *)

Lemma mapM_Ok_length {A B : Type} (f : A -> Res B) (l : list A) (ys : list B) :
  mapM f l = Ok ys -> length ys = length l.
Proof.
  revert ys. induction l as [|a l IH]; intros ys; cbn.
  - now intros [= <-].
  - destruct (f a) as [b| | |]; cbn; try discriminate.
    destruct (mapM f l) as [bs| | |]; cbn; try discriminate.
    intros [= <-]. cbn. f_equal. now apply IH.
Qed.

Lemma mapM_Ok_lookup {A B : Type} (f : A -> Res B) (l : list A) (ys : list B)
    (i : nat) (a : A) :
  mapM f l = Ok ys -> l !! i = Some a ->
  exists b, ys !! i = Some b /\ f a = Ok b.
Proof.
  revert ys i. induction l as [|a0 l IH]; intros ys i; cbn; [discriminate|].
  destruct (f a0) as [b0| | |] eqn:Ef; cbn; try discriminate.
  destruct (mapM f l) as [bs| | |]; cbn; try discriminate.
  intros [= <-]. destruct i as [|i]; cbn.
  - intros [= <-]. eauto.
  - intros Hi. now apply IH.
Qed.

Section ResampleFacts.
Context `{FloatOps}.

(** Equal rates: the input slice itself is returned. *)
Lemma resample_same_rate (samples : list float32) (rate : Z) :
  resample samples rate rate = Ok samples.
Proof. unfold resample. now rewrite Z.eqb_refl. Qed.

(** Different rates: the output has [int(float64(len)/ratio)] samples,
    each the interpolation [resampleAt] at its index. *)
Lemma resample_shape (samples out : list float32) (srcRate dstRate : Z) :
  srcRate <> dstRate ->
  resample samples srcRate dstRate = Ok out ->
  len out = resampleLen (len samples) srcRate dstRate /\
  forall (i : nat) (v : float32), out !! i = Some v ->
    resampleAt samples (f64_div (f64_of_int srcRate) (f64_of_int dstRate))
               (Z.of_nat i) = Ok v.
Proof.
  intros Hne. unfold resample, resampleLen.
  rewrite (proj2 (Z.eqb_neq _ _) Hne).
  set (ratio := f64_div (f64_of_int srcRate) (f64_of_int dstRate)).
  set (newLen := int_of_f64 (f64_div (f64_of_int (len samples)) ratio)).
  destruct (Z.ltb_spec newLen 0) as [Hneg|Hpos]; [discriminate|].
  intros Hm. split.
  - unfold len at 1. rewrite (mapM_Ok_length _ _ _ Hm), length_seqZ. lia.
  - intros i v Hv.
    assert (Hi : (i < length out)%nat) by (apply lookup_lt_is_Some; eauto).
    rewrite (mapM_Ok_length _ _ _ Hm), length_seqZ in Hi.
    destruct (mapM_Ok_lookup _ _ _ i (Z.of_nat i) Hm) as (b & Hb & Hf).
    + rewrite lookup_seqZ. split; lia.
    + rewrite Hv in Hb. injection Hb as <-. exact Hf.
Qed.
End ResampleFacts.

(** In exact arithmetic the length is the quotient the message announces. *)
Lemma Int_part_quotient (a b : Z) :
  0 < b -> Int_part (IZR a / IZR b) = a / b.
Proof.
  intros Hb. symmetry. apply Int_part_spec.
  assert (HbR : (0 < IZR b)%R) by (apply IZR_lt; lia).
  pose proof (Z.div_mod a b ltac:(lia)) as Hdm.
  pose proof (Z.mod_pos_bound a b Hb) as Hmod.
  assert (Ha : IZR a = (IZR b * IZR (a / b) + IZR (a mod b))%R)
    by (rewrite <- mult_IZR, <- plus_IZR; f_equal; exact Hdm).
  assert (H0 : (0 <= IZR (a mod b))%R) by (apply IZR_le; lia).
  assert (H1 : (IZR (a mod b) < IZR b)%R) by (apply IZR_lt; lia).
  assert (Hq : (IZR a / IZR b = IZR (a / b) + IZR (a mod b) / IZR b)%R)
    by (rewrite Ha; field; lra).
  assert (Hf0 : (0 <= IZR (a mod b) / IZR b)%R)
    by (apply Rmult_le_pos; [lra|apply Rlt_le, Rinv_0_lt_compat; lra]).
  assert (Hf1 : (IZR (a mod b) / IZR b < 1)%R).
  { apply (Rmult_lt_reg_r (IZR b)); [lra|].
    unfold Rdiv. rewrite Rmult_assoc, Rinv_l by lra. lra. }
  lra.
Qed.

Lemma Exact_resampleLen (n srcRate dstRate : Z) :
  0 <= n -> 0 < srcRate -> 0 < dstRate ->
  @resampleLen Exact.ops n srcRate dstRate = n * dstRate / srcRate.
Proof.
  intros Hn Hs Hd. unfold resampleLen. cbn.
  assert (HsR : (0 < IZR srcRate)%R) by (apply IZR_lt; lia).
  assert (HdR : (0 < IZR dstRate)%R) by (apply IZR_lt; lia).
  assert (Hx : (IZR n / (IZR srcRate / IZR dstRate) = IZR (n * dstRate) / IZR srcRate)%R)
    by (rewrite mult_IZR; field; lra).
  rewrite Hx. unfold Exact.truncate.
  destruct (Rle_dec 0 (IZR (n * dstRate) / IZR srcRate)) as [_|Hneg].
  - now apply Int_part_quotient.
  - exfalso. apply Hneg. apply Rmult_le_pos.
    + apply IZR_le. lia.
    + apply Rlt_le, Rinv_0_lt_compat. lra.
Qed.

Lemma Exact_announcedLen (n sampleRate : Z) :
  0 <= n -> 0 < sampleRate ->
  @announcedLen Exact.ops n sampleRate = n * 16000 / sampleRate.
Proof.
  intros Hn Hs. unfold announcedLen. cbn.
  assert (HsR : (0 < IZR sampleRate)%R) by (apply IZR_lt; lia).
  assert (Hx : (IZR n * Q2R 16000 / IZR sampleRate = IZR (n * 16000) / IZR sampleRate)%R).
  { rewrite mult_IZR. unfold Q2R. cbn. field. lra. }
  rewrite Hx. unfold Exact.truncate.
  destruct (Rle_dec 0 (IZR (n * 16000) / IZR sampleRate)) as [_|Hneg].
  - now apply Int_part_quotient.
  - exfalso. apply Hneg. apply Rmult_le_pos.
    + apply IZR_le. lia.
    + apply Rlt_le, Rinv_0_lt_compat. lra.
Qed.

(** C3 (the code departs from the claim): 483 samples at 8050 Hz.  The
    claim gives [483 * 16000 / 8050 = 960] output samples; the code
    computes [int(float64(483) / (float64(8050) / float64(16000)))] in
    binary64, where the quotient rounds to just below 960, and returns
    959 samples, one fewer than [parseWAV] announces for the same call. *)
Theorem C3_resample_483_at_8050 :
  483 * 16000 / 8050 = 960 /\
  @announcedLen IEEE.ops 483 8050 = 960 /\
  @resampleLen IEEE.ops 483 8050 16000 = 959 /\
  length <$> @resample IEEE.ops (repeat (S754_zero false) 483) 8050 16000 = Ok 959%nat /\
  length <$> @parseWAV IEEE.ops (wavFile 1 1 8050 16 966 (repeat x00 966)) = Ok 959%nat.
Proof. vm_compute. repeat split. Qed.

(** ** Sample values of the PCM decoder *)

Lemma u8_range (b : byte) : 0 <= u8 b < 256.
Proof. destruct b; vm_compute; split; congruence. Qed.

Lemma wrap_signed_range (bits n : Z) :
  0 < bits -> - 2 ^ (bits - 1) <= wrap_signed bits n < 2 ^ (bits - 1).
Proof.
  intros Hb. unfold wrap_signed.
  assert (Hp : 2 ^ bits = 2 * 2 ^ (bits - 1)).
  { replace bits with (Z.succ (bits - 1)) at 1 by lia. apply Z.pow_succ_r. lia. }
  assert (0 < 2 ^ (bits - 1)) by (apply Z.pow_pos_nonneg; lia).
  pose proof (Z.mod_pos_bound n (2 ^ bits) ltac:(lia)).
  destruct (Z.ltb_spec (n mod 2 ^ bits) (2 ^ (bits - 1))); lia.
Qed.

(** Reinterpreting an unsigned [bits]-bit word as signed. *)
Lemma wrap_signed_unsigned (bits u : Z) :
  0 < bits -> 0 <= u < 2 ^ bits ->
  wrap_signed bits u = if u <? 2 ^ (bits - 1) then u else u - 2 ^ bits.
Proof. intros Hb Hu. unfold wrap_signed. now rewrite Z.mod_small. Qed.

(** A value already inside the signed range is kept. *)
Lemma wrap_signed_id (bits n : Z) :
  0 < bits -> - 2 ^ (bits - 1) <= n < 2 ^ (bits - 1) -> wrap_signed bits n = n.
Proof.
  intros Hb Hn. unfold wrap_signed.
  assert (Hp : 2 ^ bits = 2 * 2 ^ (bits - 1)).
  { replace bits with (Z.succ (bits - 1)) at 1 by lia. apply Z.pow_succ_r. lia. }
  destruct (Z_lt_le_dec n 0) as [Hneg|Hpos].
  - replace (n mod 2 ^ bits) with (n + 2 ^ bits)
      by (apply Z.mod_unique with (q := -1); lia).
    destruct (Z.ltb_spec (n + 2 ^ bits) (2 ^ (bits - 1))); lia.
  - rewrite Z.mod_small by lia.
    destruct (Z.ltb_spec n (2 ^ (bits - 1))); lia.
Qed.

Lemma lor_shiftl_add (a b n : Z) :
  0 <= n -> 0 <= a < 2 ^ n -> Z.lor a (Z.shiftl b n) = a + b * 2 ^ n.
Proof.
  intros Hn Ha. rewrite <- Z.shiftl_mul_pow2 by lia.
  rewrite <- Z.lxor_lor; [symmetry; apply Z.add_nocarry_lxor|].
  all: apply Z.bits_inj'; intros i Hi; rewrite Z.land_spec, Z.bits_0;
       destruct (Z.lt_ge_cases i n) as [Hlt|Hge];
       [rewrite (Z.shiftl_spec_low b n i Hlt); apply andb_false_r|];
       destruct (Z.eq_dec a 0) as [->|Hnz]; [now rewrite Z.bits_0|];
       rewrite (Z.bits_above_log2 a i); [reflexivity|lia|];
       assert (2 ^ n <= 2 ^ i) by (apply Z.pow_le_mono_r; lia);
       apply Z.log2_lt_pow2; lia.
Qed.

Lemma land_pow2 (a n : Z) :
  0 <= n -> Z.land a (2 ^ n) = if Z.testbit a n then 2 ^ n else 0.
Proof.
  intros Hn. apply Z.bits_inj'. intros i Hi.
  rewrite Z.land_spec, Z.pow2_bits_eqb by lia.
  destruct (Z.eqb_spec n i) as [<-|Hne].
  - rewrite andb_true_r. destruct (Z.testbit a n) eqn:E.
    + rewrite Z.pow2_bits_eqb, Z.eqb_refl by lia. reflexivity.
    + now rewrite Z.bits_0.
  - rewrite andb_false_r. destruct (Z.testbit a n).
    + rewrite Z.pow2_bits_eqb by lia. symmetry. now apply Z.eqb_neq.
    + now rewrite Z.bits_0.
Qed.

Lemma testbit_top (a n : Z) :
  0 <= n -> 0 <= a < 2 ^ (n + 1) -> Z.testbit a n = negb (a <? 2 ^ n).
Proof.
  intros Hn Ha.
  assert (Hp : 2 ^ (n + 1) = 2 * 2 ^ n) by (rewrite Z.pow_add_r by lia; lia).
  assert (0 < 2 ^ n) by (apply Z.pow_pos_nonneg; lia).
  rewrite Z.testbit_eqb by lia.
  destruct (Z.ltb_spec a (2 ^ n)) as [Hlt|Hge]; cbn [negb].
  - rewrite Z.div_small by lia. reflexivity.
  - replace a with (1 * 2 ^ n + (a - 2 ^ n)) by lia.
    rewrite Z.div_add_l by lia. rewrite (Z.div_small (a - 2 ^ n)) by lia. reflexivity.
Qed.

Lemma lor_sign_extend (a n : Z) :
  0 <= n -> 0 <= a < 2 ^ n -> Z.lor a (Z.lnot (2 ^ n - 1)) = a - 2 ^ n.
Proof.
  intros Hn Ha.
  assert (Hl : Z.lnot (2 ^ n - 1) = - 2 ^ n) by (unfold Z.lnot; lia).
  assert (Hz : Z.land a (Z.lnot (2 ^ n - 1)) = 0).
  { apply Z.bits_inj'. intros i Hi. rewrite Z.land_spec, Z.lnot_spec, Z.bits_0 by lia.
    replace (2 ^ n - 1) with (Z.ones n) by (rewrite Z.ones_equiv; lia).
    destruct (Z.lt_ge_cases i n) as [Hlt|Hge].
    - rewrite Z.ones_spec_low by lia. apply andb_false_r.
    - destruct (Z.eq_dec a 0) as [->|Hnz]; [now rewrite Z.bits_0|].
      rewrite (Z.bits_above_log2 a i); [reflexivity|lia|].
      assert (2 ^ n <= 2 ^ i) by (apply Z.pow_le_mono_r; lia).
      apply Z.log2_lt_pow2; lia. }
  pose proof (Z.add_lor_land a (Z.lnot (2 ^ n - 1))) as Hadd.
  rewrite Hz, Hl in Hadd. rewrite Hl. lia.
Qed.

Lemma unsignedLE_range (bytes : list byte) :
  0 <= unsignedLE bytes < 2 ^ (8 * len bytes).
Proof.
  induction bytes as [|b rest IH]; [vm_compute; split; [discriminate|reflexivity]|].
  cbn [unsignedLE]. unfold len in *. rewrite length_cons.
  replace (8 * Z.of_nat (S (length rest))) with (8 + 8 * Z.of_nat (length rest)) by lia.
  rewrite Z.pow_add_r by lia. change (2 ^ 8) with 256.
  pose proof (u8_range b). lia.
Qed.

Lemma signedLE_range (bytes : list byte) :
  0 < len bytes ->
  - 2 ^ (8 * len bytes - 1) <= signedLE bytes < 2 ^ (8 * len bytes - 1).
Proof.
  intros Hl. unfold signedLE. pose proof (unsignedLE_range bytes) as Hu.
  assert (Hp : 2 ^ (8 * len bytes) = 2 * 2 ^ (8 * len bytes - 1)).
  { replace (8 * len bytes) with (Z.succ (8 * len bytes - 1)) at 1 by lia.
    apply Z.pow_succ_r. lia. }
  destruct (Z.ltb_spec (unsignedLE bytes) (2 ^ (8 * len bytes - 1))); lia.
Qed.

Lemma signedLE_wrap (bytes : list byte) :
  0 < len bytes ->
  signedLE bytes = wrap_signed (8 * len bytes) (unsignedLE bytes).
Proof.
  intros Hl. unfold signedLE.
  rewrite wrap_signed_unsigned; [reflexivity|lia|apply unsignedLE_range].
Qed.

Lemma slice_length {A : Type} (l x : list A) (lo hi : Z) :
  slice l lo hi = Ok x -> length x = Z.to_nat (hi - lo).
Proof. intros Hs. apply slice_len in Hs. unfold len in Hs. lia. Qed.

Section PcmFacts.
Context `{FloatOps}.

(** The value of one channel of one sample, by encoding: the 8-bit
    offset-binary mapping, the two's-complement little-endian integer
    over [2^(B-1)], and the 32-bit float taken as it is. *)
Lemma pcmValue_8 (data : list byte) (audioFormat offset : Z) (b : byte) :
  index data offset = Ok b ->
  pcmValue data audioFormat 8 offset
  = Ok (f64_sub (f64_div (f64_of_int (u8 b)) (f64_const 128)) (f64_const 1)).
Proof. intros Hb. unfold pcmValue. cbn. now rewrite Hb. Qed.

Lemma pcmValue_16 (data bytes : list byte) (audioFormat offset : Z) :
  slice data offset (offset + 2) = Ok bytes ->
  pcmValue data audioFormat 16 offset
  = Ok (f64_div (f64_of_int (signedLE bytes)) (f64_const 32768)).
Proof.
  intros Hs. unfold pcmValue. cbn [Z.eqb Pos.eqb]. rewrite Hs. cbn [mbind Res_bind].
  pose proof (slice_length _ _ _ _ Hs) as Hl.
  replace (offset + 2 - offset) with 2 in Hl by lia.
  destruct bytes as [|b0 [|b1 [|]]]; try discriminate.
  cbn [LittleEndian_Uint16 mbind Res_bind].
  pose proof (u8_range b0).
  assert (Hu : Z.lor (u8 b0) (Z.shiftl (u8 b1) 8) = unsignedLE [b0; b1])
    by (rewrite lor_shiftl_add by lia; cbn [unsignedLE]; change (2 ^ 8) with 256; lia).
  rewrite Hu. unfold to_int16.
  rewrite signedLE_wrap by (unfold len; cbn; lia). reflexivity.
Qed.

Lemma pcmValue_24 (data bytes : list byte) (audioFormat offset : Z) :
  slice data offset (offset + 3) = Ok bytes ->
  pcmValue data audioFormat 24 offset
  = Ok (f64_div (f64_of_int (signedLE bytes)) (f64_const 8388608)).
Proof.
  intros Hs. unfold pcmValue. cbn [Z.eqb Pos.eqb]. rewrite Hs. cbn [mbind Res_bind].
  pose proof (slice_length _ _ _ _ Hs) as Hl.
  replace (offset + 3 - offset) with 3 in Hl by lia.
  destruct bytes as [|b0 [|b1 [|b2 [|]]]]; try discriminate.
  change (index [b0; b1; b2] 0) with (Ok b0 : Res byte).
  change (index [b0; b1; b2] 1) with (Ok b1 : Res byte).
  change (index [b0; b1; b2] 2) with (Ok b2 : Res byte).
  cbn [mbind Res_bind]. do 2 f_equal. f_equal.
  pose proof (u8_range b0). pose proof (u8_range b1). pose proof (u8_range b2).
  set (u := Z.lor (Z.lor (u8 b0) (Z.shiftl (u8 b1) 8)) (Z.shiftl (u8 b2) 16)).
  assert (Hu : u = u8 b0 + 256 * u8 b1 + 65536 * u8 b2).
  { unfold u. rewrite (lor_shiftl_add (u8 b0)) by lia.
    rewrite lor_shiftl_add by lia. lia. }
  assert (Hur : 0 <= u < 2 ^ (23 + 1)) by (change (2 ^ (23 + 1)) with 16777216; lia).
  change 8388608 with (2 ^ 23) at 1.
  rewrite land_pow2, (testbit_top u 23) by lia.
  unfold signedLE. cbn [unsignedLE]. unfold len. cbn [length].
  change (2 ^ (8 * Z.of_nat 3 - 1)) with (2 ^ 23).
  replace (u8 b0 + 256 * (u8 b1 + 256 * (u8 b2 + 256 * 0))) with u by lia.
  destruct (Z.ltb_spec u (2 ^ 23)) as [Hlt|Hge]; cbn [negb].
  - reflexivity.
  - change (2 ^ 23 =? 0) with false. cbv iota.
    change 16777215 with (2 ^ 24 - 1).
    rewrite lor_sign_extend by (change (2 ^ 24) with 16777216; lia).
    change (2 ^ (8 * Z.of_nat 3)) with (2 ^ 24).
    unfold to_int32. rewrite wrap_signed_id; [reflexivity|lia|].
    change (2 ^ 24) with 16777216 in *. change (2 ^ 23) with 8388608 in *.
    change (2 ^ (32 - 1)) with 2147483648. lia.
Qed.
End PcmFacts.

Section PcmFacts32.
Context `{FloatOps}.

Lemma uint32_unsignedLE (b0 b1 b2 b3 : byte) :
  LittleEndian_Uint32 [b0; b1; b2; b3] = Ok (unsignedLE [b0; b1; b2; b3]).
Proof.
  cbn [LittleEndian_Uint32 unsignedLE]. f_equal.
  pose proof (u8_range b0). pose proof (u8_range b1).
  pose proof (u8_range b2). pose proof (u8_range b3).
  rewrite (lor_shiftl_add (u8 b0)) by lia.
  rewrite (lor_shiftl_add (u8 b0 + _)) by (change (2 ^ 8) with 256; change (2 ^ 16) with 65536; lia).
  rewrite lor_shiftl_add
    by (change (2 ^ 8) with 256; change (2 ^ 16) with 65536;
        change (2 ^ 24) with 16777216; lia).
  change (2 ^ 8) with 256; change (2 ^ 16) with 65536; change (2 ^ 24) with 16777216. lia.
Qed.

Lemma pcmValue_32_int (data bytes : list byte) (audioFormat offset : Z) :
  audioFormat <> 3 ->
  slice data offset (offset + 4) = Ok bytes ->
  pcmValue data audioFormat 32 offset
  = Ok (f64_div (f64_of_int (signedLE bytes)) (f64_const 2147483648)).
Proof.
  intros Hf Hs. unfold pcmValue. cbn [Z.eqb Pos.eqb]. rewrite Hs. cbn [mbind Res_bind].
  pose proof (slice_length _ _ _ _ Hs) as Hl.
  replace (offset + 4 - offset) with 4 in Hl by lia.
  destruct bytes as [|b0 [|b1 [|b2 [|b3 [|]]]]]; try discriminate.
  rewrite uint32_unsignedLE. cbn [mbind Res_bind].
  rewrite (proj2 (Z.eqb_neq _ _) Hf). unfold to_int32.
  rewrite signedLE_wrap by (unfold len; cbn; lia). reflexivity.
Qed.

(** Format code 3 with 32 bits: the IEEE-754 value of the word, as it is. *)
Lemma pcmValue_32_float (data bytes : list byte) (offset : Z) :
  slice data offset (offset + 4) = Ok bytes ->
  pcmValue data 3 32 offset
  = Ok (to_float64 (math_Float32frombits (unsignedLE bytes))).
Proof.
  intros Hs. unfold pcmValue. cbn [Z.eqb Pos.eqb]. rewrite Hs. cbn [mbind Res_bind].
  pose proof (slice_length _ _ _ _ Hs) as Hl.
  replace (offset + 4 - offset) with 4 in Hl by lia.
  destruct bytes as [|b0 [|b1 [|b2 [|b3 [|]]]]]; try discriminate.
  rewrite uint32_unsignedLE. reflexivity.
Qed.
End PcmFacts32.

Lemma Rdiv_in_unit (a b : R) :
  (0 < b)%R -> (- b <= a)%R -> (a <= b)%R -> (-1 <= a / b)%R /\ (a / b <= 1)%R.
Proof.
  intros Hb Hlo Hhi.
  assert (Hx : (a / b * b = a)%R) by (field; lra).
  split; nra.
Qed.

Section PcmRange.
Context `{FloatReal}.
Variables rnd64 rnd32 : R -> R.
Hypothesis laws : RoundingLaws rnd64 rnd32.

Lemma rnd64_between (x : R) (lo hi : Z) :
  -65536 <= lo -> hi <= 65536 -> lo <= hi ->
  (IZR lo <= x)%R -> (x <= IZR hi)%R ->
  (IZR lo <= rnd64 x)%R /\ (rnd64 x <= IZR hi)%R.
Proof.
  intros Hlo Hhi Hle Hx1 Hx2.
  pose proof (rnd64_monotone _ _ laws _ _ Hx1) as M1.
  pose proof (rnd64_monotone _ _ laws _ _ Hx2) as M2.
  rewrite (rnd64_integer _ _ laws) in M1, M2 by lia. now split.
Qed.

(** An integer of [-K, K] over [K] is a value of [-1, 1]. *)
Lemma scaled_in_unit (s K : Z) :
  0 < K <= 2147483648 -> - K <= s <= K ->
  real64_in (f64_div (f64_of_int s) (f64_const (inject_Z K))) (-1) 1.
Proof.
  intros HK Hs.
  assert (HKr : (0 < IZR K)%R) by (apply IZR_lt; lia).
  destruct (Rdiv_in_unit (IZR s) (IZR K) HKr) as [H1 H2].
  { rewrite <- opp_IZR. apply IZR_le. lia. }
  { apply IZR_le. lia. }
  exists (rnd64 (IZR s / IZR K)). split.
  - apply (div_rounded _ _ laws).
    + apply (of_int_exact _ _ laws). lia.
    + apply (const_exact _ _ laws). lia.
    + lra.
    + lra.
  - apply (rnd64_between _ (-1) 1); try lia; assumption.
Qed.
End PcmRange.

Lemma mapM_Ok_Forall {A B : Type} (P : B -> Prop) (f : A -> Res B) (l : list A)
    (ys : list B) :
  (forall a b, f a = Ok b -> P b) -> mapM f l = Ok ys -> Forall P ys.
Proof.
  intros Hf. revert ys. induction l as [|a l IH]; intros ys; cbn.
  - intros [= <-]. constructor.
  - destruct (f a) as [b| | |] eqn:Ef; cbn; try discriminate.
    destruct (mapM f l) as [bs| | |]; cbn; try discriminate.
    intros [= <-]. constructor; [now apply (Hf a)|now apply IH].
Qed.

Section PcmRangeFacts.
Context `{FloatReal}.
Variables rnd64 rnd32 : R -> R.
Hypothesis laws : RoundingLaws rnd64 rnd32.

Lemma pcmValue_in_unit (data : list byte) (audioFormat bitsPerSample offset : Z)
    (v : float64) :
  ~ (audioFormat = 3 /\ bitsPerSample = 32) ->
  pcmValue data audioFormat bitsPerSample offset = Ok v ->
  real64_in v (-1) 1.
Proof.
  intros Hint Hv.
  destruct (Z.eq_dec bitsPerSample 8) as [->|H8].
  { destruct (index data offset) as [b| | |] eqn:Hb;
      [|unfold pcmValue in Hv; cbn in Hv; rewrite Hb in Hv; discriminate..].
    rewrite (pcmValue_8 _ _ _ _ Hb) in Hv. injection Hv as <-.
    pose proof (u8_range b) as Hr.
    assert (Hq : (0 <= IZR (u8 b) / 128)%R /\ (IZR (u8 b) / 128 <= 2)%R).
    { assert (0 <= IZR (u8 b))%R by (apply IZR_le; lia).
      assert (IZR (u8 b) <= 256)%R by (apply IZR_le; lia).
      split; lra. }
    destruct (rnd64_between rnd64 rnd32 laws (IZR (u8 b) / 128) 0 2) as [Q1 Q2];
      try lia; try tauto.
    exists (rnd64 (rnd64 (IZR (u8 b) / 128) - 1)). split.
    - apply (sub_rounded _ _ laws).
      + apply (div_rounded _ _ laws).
        * apply (of_int_exact _ _ laws). lia.
        * apply (const_exact _ _ laws 128). lia.
        * lra.
        * lra.
      + apply (const_exact _ _ laws 1). lia.
      + lra.
    - apply (rnd64_between rnd64 rnd32 laws _ (-1) 1); try lia; lra. }
  destruct (Z.eq_dec bitsPerSample 16) as [->|H16].
  { destruct (slice data offset (offset + 2)) as [bytes| | |] eqn:Hs;
      [|unfold pcmValue in Hv; cbn in Hv; rewrite Hs in Hv; discriminate..].
    rewrite (pcmValue_16 _ _ _ _ Hs) in Hv. injection Hv as <-.
    pose proof (slice_len _ _ _ _ Hs) as Hl.
    pose proof (signedLE_range bytes ltac:(lia)) as Hr.
    replace (8 * len bytes - 1) with 15 in Hr by lia. change (2 ^ 15) with 32768 in Hr.
    apply (scaled_in_unit rnd64 rnd32 laws _ 32768); lia. }
  destruct (Z.eq_dec bitsPerSample 24) as [->|H24].
  { destruct (slice data offset (offset + 3)) as [bytes| | |] eqn:Hs;
      [|unfold pcmValue in Hv; cbn in Hv; rewrite Hs in Hv; discriminate..].
    rewrite (pcmValue_24 _ _ _ _ Hs) in Hv. injection Hv as <-.
    pose proof (slice_len _ _ _ _ Hs) as Hl.
    pose proof (signedLE_range bytes ltac:(lia)) as Hr.
    replace (8 * len bytes - 1) with 23 in Hr by lia. change (2 ^ 23) with 8388608 in Hr.
    apply (scaled_in_unit rnd64 rnd32 laws _ 8388608); lia. }
  destruct (Z.eq_dec bitsPerSample 32) as [->|H32].
  { assert (Hf : audioFormat <> 3) by tauto.
    destruct (slice data offset (offset + 4)) as [bytes| | |] eqn:Hs;
      [|unfold pcmValue in Hv; cbn in Hv; rewrite Hs in Hv; discriminate..].
    rewrite (pcmValue_32_int _ _ _ _ Hf Hs) in Hv. injection Hv as <-.
    pose proof (slice_len _ _ _ _ Hs) as Hl.
    pose proof (signedLE_range bytes ltac:(lia)) as Hr.
    replace (8 * len bytes - 1) with 31 in Hr by lia.
    change (2 ^ 31) with 2147483648 in Hr.
    apply (scaled_in_unit rnd64 rnd32 laws _ 2147483648); lia. }
  unfold pcmValue in Hv.
  rewrite (proj2 (Z.eqb_neq _ _) H8), (proj2 (Z.eqb_neq _ _) H16),
    (proj2 (Z.eqb_neq _ _) H24), (proj2 (Z.eqb_neq _ _) H32) in Hv.
  discriminate.
Qed.

Lemma sumChannels_range (data : list byte) (audioFormat numChannels bitsPerSample : Z)
    (bytesPerSample i : Z) (n : nat) :
  ~ (audioFormat = 3 /\ bitsPerSample = 32) ->
  forall (ch : Z) (sum res : float64) (k : Z),
    0 <= k -> k + Z.of_nat n <= 65536 ->
    real64_in sum (- IZR k) (IZR k) ->
    sumChannels data audioFormat numChannels bitsPerSample bytesPerSample i n ch sum
    = Ok res ->
    real64_in res (- IZR (k + Z.of_nat n)) (IZR (k + Z.of_nat n)).
Proof.
  intros Hint. induction n as [|n IH]; intros ch sum res k Hk Hkn Hsum; cbn [sumChannels].
  - intros [= <-]. now rewrite Z.add_0_r.
  - assert (Hwide : real64_in sum (- IZR (k + Z.of_nat (S n))) (IZR (k + Z.of_nat (S n)))).
    { destruct Hsum as (s & Hs & Hs1 & Hs2). exists s. split; [exact Hs|].
      assert (IZR k <= IZR (k + Z.of_nat (S n)))%R by (apply IZR_le; lia). split; lra. }
    destruct (_ >? _); [now intros [= <-]|].
    destruct (pcmValue _ _ _ _) as [val| | |] eqn:Hval; cbn [mbind Res_bind];
      try discriminate.
    intros Hres.
    destruct (pcmValue_in_unit _ _ _ _ _ Hint Hval) as (v & Hv & Hv1 & Hv2).
    destruct Hsum as (s & Hs & Hs1 & Hs2).
    replace (k + Z.of_nat (S n)) with ((k + 1) + Z.of_nat n) by lia.
    apply (IH (ch + 1) (f64_add sum val) res (k + 1)); [lia|lia| |exact Hres].
    assert (Hk1 : IZR (k + 1) = (IZR k + 1)%R) by (rewrite plus_IZR; reflexivity).
    exists (rnd64 (s + v)). split.
    + apply (add_rounded _ _ laws); [exact Hs|exact Hv|].
      assert (IZR k <= 65535)%R by (apply IZR_le; lia). lra.
    + rewrite <- opp_IZR.
      apply (rnd64_between rnd64 rnd32 laws); try lia.
      * rewrite opp_IZR, Hk1. lra.
      * rewrite Hk1. lra.
Qed.

Lemma convertSample_in_unit (data : list byte) (audioFormat numChannels bitsPerSample : Z)
    (bytesPerSample i : Z) (y : float32) :
  ~ (audioFormat = 3 /\ bitsPerSample = 32) ->
  1 <= numChannels < 65536 ->
  convertSample data audioFormat numChannels bitsPerSample bytesPerSample i = Ok y ->
  inUnit y.
Proof.
  intros Hint Hnc. unfold convertSample.
  destruct (sumChannels _ _ _ _ _ _ _ _ _) as [sum| | |] eqn:Hsum; cbn [mbind Res_bind];
    try discriminate.
  intros [= <-].
  apply (sumChannels_range _ _ _ _ _ _ _ Hint 0 _ _ 0) in Hsum; [|lia|lia|].
  2:{ exists 0%R. split; [apply (const_exact _ _ laws 0); lia|]. cbn. split; lra. }
  rewrite Z.add_0_l, Z2Nat.id in Hsum by lia.
  destruct Hsum as (s & Hs & Hs1 & Hs2).
  assert (Hpos : (0 < IZR numChannels)%R) by (apply IZR_lt; lia).
  destruct (Rdiv_in_unit s (IZR numChannels) Hpos Hs1 Hs2) as [Hd1 Hd2].
  destruct (rnd64_between rnd64 rnd32 laws (s / IZR numChannels) (-1) 1) as [Q1 Q2];
    try lia; try assumption.
  exists (rnd32 (rnd64 (s / IZR numChannels))). split.
  - apply (narrow_rounded _ _ laws); [|lra].
    apply (div_rounded _ _ laws); [exact Hs| |lra|lra].
    apply (of_int_exact _ _ laws). lia.
  - pose proof (rnd32_monotone _ _ laws _ _ Q1) as M1.
    pose proof (rnd32_monotone _ _ laws _ _ Q2) as M2.
    rewrite (rnd32_integer _ _ laws) in M1, M2 by lia. now split.
Qed.

End PcmRangeFacts.

(** Exact arithmetic has the rounding laws, the rounding being the identity. *)
Lemma Exact_laws :
  @RoundingLaws Exact.ops Exact.reals (fun x => x) (fun x => x).
Proof.
  constructor; try (intros; reflexivity); try (intros; assumption).
  - intros n Hn. cbn. unfold Q2R. cbn. f_equal. field.
  - intros x y a b [= <-] [= <-] _. reflexivity.
  - intros x y a b [= <-] [= <-] _. reflexivity.
  - intros x y a b [= <-] [= <-] _ _. reflexivity.
Qed.



(** ** Binary32 results of the 8-bit and 16-bit mono decoders, by evaluation *)

Lemma IEEE_inUnitb_sound (y : spec_float) :
  IEEE_inUnitb y = true -> @inUnit IEEE.ops IEEE.reals y.
Proof.
  unfold inUnit. destruct y as [s| | |s m e]; cbn [IEEE_inUnitb]; try discriminate.
  - intros _. exists 0%R. split; [reflexivity|lra].
  - intros Hb. cbn [real32 IEEE.reals IEEE.to_R]. eexists. split; [reflexivity|].
    destruct (Z.leb_spec 0 e) as [He|He].
    + apply Z.leb_le in Hb. apply IZR_le in Hb.
      assert (0 <= IZR (Z.pos m * 2 ^ e))%R
        by (apply IZR_le; apply Z.mul_nonneg_nonneg; [lia|apply Z.pow_nonneg; lia]).
      destruct s; lra.
    + apply Z.leb_le in Hb. apply IZR_le in Hb.
      assert (Hpow : (0 < IZR (2 ^ (- e)))%R)
        by (apply IZR_lt; apply Z.pow_pos_nonneg; lia).
      assert (Hm : (0 < IZR (Z.pos m))%R) by (apply IZR_lt; lia).
      assert (Hq : (0 <= IZR (Z.pos m) / IZR (2 ^ (- e)) <= 1)%R).
      { split.
        - apply Rlt_le. apply Rdiv_lt_0_compat; assumption.
        - apply (Rmult_le_reg_r (IZR (2 ^ (- e)))); [assumption|].
          unfold Rdiv. rewrite Rmult_assoc, Rinv_l by lra. lra. }
      destruct s; lra.
Qed.

Lemma allBytes_complete (b : byte) : In b allBytes.
Proof.
  apply list_elem_of_In. apply (list_elem_of_lookup_2 _ (Z.to_nat (u8 b))).
  destruct b; vm_compute; reflexivity.
Qed.

Lemma mono8_checked :
  forallb (fun b => monoSampleCheck 8 [b]) allBytes = true.
Proof. vm_compute. reflexivity. Qed.

Lemma mono16_checked :
  forallb (fun b0 => forallb (fun b1 => monoSampleCheck 16 [b0; b1]) allBytes) allBytes
  = true.
Proof. vm_compute. reflexivity. Qed.

(** Under IEEE-754 arithmetic every 8-bit mono sample lies in [-1, 1]. *)
Lemma IEEE_mono8_in_unit (b : byte) :
  exists y, @convertToFloat32 IEEE.ops [b] 1 1 8 = Ok [y] /\
            @inUnit IEEE.ops IEEE.reals y.
Proof.
  pose proof mono8_checked as Hall.
  rewrite forallb_forall in Hall. specialize (Hall b (allBytes_complete b)).
  unfold monoSampleCheck in Hall.
  destruct (convertToFloat32 [b] 1 1 8) as [[|y [|? ?]]| | |]; try discriminate.
  exists y. split; [reflexivity|]. now apply IEEE_inUnitb_sound.
Qed.

(** Under IEEE-754 arithmetic every 16-bit mono sample lies in [-1, 1]. *)
Lemma IEEE_mono16_in_unit (b0 b1 : byte) :
  exists y, @convertToFloat32 IEEE.ops [b0; b1] 1 1 16 = Ok [y] /\
            @inUnit IEEE.ops IEEE.reals y.
Proof.
  pose proof mono16_checked as Hall.
  rewrite forallb_forall in Hall. specialize (Hall b0 (allBytes_complete b0)).
  rewrite forallb_forall in Hall. specialize (Hall b1 (allBytes_complete b1)).
  unfold monoSampleCheck in Hall.
  destruct (convertToFloat32 [b0; b1] 1 1 16) as [[|y [|? ?]]| | |]; try discriminate.
  exists y. split; [reflexivity|]. now apply IEEE_inUnitb_sound.
Qed.

(** ** Normalization *)

Lemma lookup_repeat_lt {A : Type} (x : A) (n i : nat) :
  (i < n)%nat -> repeat x n !! i = Some x.
Proof.
  revert i. induction n as [|n IH]; intros i Hi; [lia|].
  destruct i as [|i]; [reflexivity|]. cbn. apply IH. lia.
Qed.

(** A loop that rewrites entry [i] from its current value, for [i] from
    [j] up to [bound]. *)
Lemma for_lt_pointwise {A : Type} (g : Z -> A -> A) (d : A) (fuel : nat) :
  forall (j bound : Z) (s : list A),
    0 <= j -> (Z.to_nat (bound - j) <= fuel)%nat -> bound <= len s ->
    let r := for_lt fuel j bound 1
               (fun i s => <[Z.to_nat i := g i (nth (Z.to_nat i) s d)]> s) s in
    length r = length s /\
    forall k : nat,
      nth k r d = if (j <=? Z.of_nat k) && (Z.of_nat k <? bound)
                  then g (Z.of_nat k) (nth k s d) else nth k s d.
Proof.
  induction fuel as [|fuel IH]; intros j bound s Hj Hfuel Hb; cbn zeta; cbn [for_lt].
  - split; [reflexivity|]. intros k.
    destruct (Z.leb_spec j (Z.of_nat k)), (Z.ltb_spec (Z.of_nat k) bound);
      cbn [andb]; try reflexivity. lia.
  - destruct (Z.ltb_spec j bound) as [Hlt|Hge].
    + specialize (IH (j + 1) bound (<[Z.to_nat j := g j (nth (Z.to_nat j) s d)]> s)
                    ltac:(lia) ltac:(lia)).
      unfold len in *. rewrite length_insert in IH. specialize (IH Hb).
      cbn zeta in IH. destruct IH as [IHlen IHnth].
      split; [exact IHlen|]. intros k. rewrite IHnth.
      rewrite !nth_lookup.
      destruct (Nat.eq_dec k (Z.to_nat j)) as [->|Hne].
      * rewrite list_lookup_insert_eq by lia. rewrite Z2Nat.id by lia.
        replace (j + 1 <=? j) with false by (symmetry; apply Z.leb_gt; lia).
        rewrite Z.leb_refl, (proj2 (Z.ltb_lt _ _) Hlt). reflexivity.
      * rewrite list_lookup_insert_ne by lia.
        destruct (Z.leb_spec (j + 1) (Z.of_nat k)), (Z.leb_spec j (Z.of_nat k));
          cbn [andb]; try reflexivity; lia.
    + split; [reflexivity|]. intros k.
      destruct (Z.leb_spec j (Z.of_nat k)), (Z.ltb_spec (Z.of_nat k) bound);
        cbn [andb]; try reflexivity. lia.
Qed.

Lemma nth_map_seqZ {A : Type} (f : Z -> A) (n : Z) (k : nat) (d : A) :
  Z.of_nat k < n -> nth k (map f (seqZ 0 n)) d = f (Z.of_nat k).
Proof.
  intros Hk. rewrite nth_lookup.
  change (map f (seqZ 0 n)) with (f <$> seqZ 0 n).
  rewrite list_lookup_fmap, lookup_seqZ_lt by lia. reflexivity.
Qed.

Section NormalizeFacts.
Context `{FloatOps}.

(** Entry [k] of a normalized frame. *)
Lemma normalizeFrame_nth (means stds : list float64) (frame : list float32) (k : nat) :
  (k < length frame)%nat ->
  nth k (normalizeFrame means stds (len frame) frame) f32_zero
  = to_float32 (f64_div (f64_sub (to_float64 (nth k frame f32_zero))
                                 (at64 means (Z.of_nat k)))
                        (at64 stds (Z.of_nat k))).
Proof.
  intros Hk. unfold normalizeFrame, for_range, at32.
  pose proof (for_lt_pointwise
                (fun i v => to_float32 (f64_div (f64_sub (to_float64 v) (at64 means i))
                                                (at64 stds i)))
                f32_zero (Z.to_nat (len frame - 0)) 0 (len frame) frame
                ltac:(lia) ltac:(lia) ltac:(lia)) as [_ Hnth].
  cbn zeta in Hnth. rewrite Hnth.
  unfold len. 
  replace (0 <=? Z.of_nat k) with true by (symmetry; apply Z.leb_le; lia).
  replace (Z.of_nat k <? Z.of_nat (length frame)) with true
    by (symmetry; apply Z.ltb_lt; lia).
  reflexivity.
Qed.

Lemma normalize_entry (features : list (list float32)) (n k f : nat)
    (row : list float32) :
  Forall (fun row => length row = n) features ->
  (k < n)%nat -> features !! f = Some row ->
  exists row',
    normalize features !! f = Some row' /\
    nth k row' f32_zero
    = to_float32 (f64_div (f64_sub (to_float64 (nth k row f32_zero))
                                   (bandMean features (Z.of_nat k)))
                          (bandStd features (Z.of_nat k))).
Proof.
  intros Hrect Hk Hf. unfold normalize.
  destruct features as [|first rest]; [discriminate|].
  assert (Hfirst : length first = n) by (now inversion Hrect).
  assert (Hrow : length row = n).
  { rewrite Forall_forall in Hrect. apply Hrect.
    apply list_elem_of_lookup. eauto. }
  change (map ?g (first :: rest)) with (g <$> (first :: rest)).
  rewrite list_lookup_fmap, Hf. cbn [fmap option_fmap option_map].
  eexists. split; [reflexivity|].
  replace (len first) with (len row) by (unfold len; lia).
  rewrite normalizeFrame_nth by lia.
  unfold at64. rewrite !Nat2Z.id.
  rewrite !nth_map_seqZ by (unfold len; lia). reflexivity.
Qed.
End NormalizeFacts.

(** *** In exact arithmetic *)

Lemma fold_left_sum {A : Type} (f : A -> R) (l : list A) (a : R) :
  fold_left (fun s x => (s + f x)%R) l a = (a + sumR (map f l))%R.
Proof.
  revert a. induction l as [|x l IH]; intros a; cbn [fold_left map].
  - unfold sumR. cbn. lra.
  - rewrite IH. unfold sumR. cbn [fold_right]. lra.
Qed.

Lemma sumR_scale (f : R -> R) (c : R) (xs : list R) :
  sumR (map (fun x => (f x / c)%R) xs) = (sumR (map f xs) / c)%R.
Proof.
  unfold sumR. induction xs as [|x xs IH]; [cbn; unfold Rdiv; lra|].
  cbn [map fold_right]. rewrite IH. unfold Rdiv. lra.
Qed.

Lemma sumR_shift (m : R) (xs : list R) :
  sumR (map (fun x => (x - m)%R) xs) = (sumR xs - IZR (len xs) * m)%R.
Proof.
  unfold sumR. induction xs as [|x xs IH];
    [unfold len; cbn; change (Z.of_nat 0) with 0; lra|].
  cbn [map fold_right]. rewrite IH.
  unfold len. rewrite length_cons, Nat2Z.inj_succ, succ_IZR. lra.
Qed.

Lemma sumR_squares_nonneg (m : R) (xs : list R) :
  (0 <= sumR (map (fun x => (x - m) * (x - m)) xs))%R.
Proof.
  unfold sumR. induction xs as [|x xs IH]; [cbn; lra|].
  cbn [map fold_right]. pose proof (Rle_0_sqr (x - m)) as Hsq. unfold Rsqr in Hsq.
  apply Rplus_le_le_0_compat; assumption.
Qed.

Lemma len_pos_IZR {A : Type} (l : list A) : l <> [] -> (0 < IZR (len l))%R.
Proof.
  intros Hne. apply IZR_lt. unfold len. destruct l; [contradiction|]. cbn. lia.
Qed.

Lemma varianceR_nonneg (xs : list R) : xs <> [] -> (0 <= varianceR xs)%R.
Proof.
  intros Hne. unfold varianceR, meanR at 1.
  pose proof (sumR_squares_nonneg (meanR xs) xs) as Hs.
  assert (Hl : (0 < IZR (len (map (fun x => (x - meanR xs) * (x - meanR xs)) xs)))%R).
  { apply len_pos_IZR. destruct xs; [contradiction|discriminate]. }
  apply Rmult_le_pos; [exact Hs|]. left. now apply Rinv_0_lt_compat.
Qed.

(** A band that was mean-subtracted and divided by [s > 0]: its mean is
    zero and its variance is the old variance over [s * s]. *)
Lemma meanR_standardized (s : R) (xs : list R) :
  xs <> [] -> (0 < s)%R ->
  meanR (map (fun x => ((x - meanR xs) / s)%R) xs) = 0%R.
Proof.
  intros Hne Hs. pose proof (len_pos_IZR xs Hne) as Hl.
  assert (Hlen : forall g : R -> R, len (map g xs) = len xs)
    by (intros g; unfold len; now rewrite length_map).
  unfold meanR at 1. rewrite Hlen.
  rewrite (sumR_scale (fun x => (x - meanR xs)%R)), sumR_shift.
  unfold meanR. field. lra.
Qed.

Lemma varianceR_standardized (s : R) (xs : list R) :
  xs <> [] -> (0 < s)%R ->
  varianceR (map (fun x => ((x - meanR xs) / s)%R) xs) = (varianceR xs / (s * s))%R.
Proof.
  intros Hne Hs. pose proof (len_pos_IZR xs Hne) as Hl.
  assert (Hlen : forall g : R -> R, len (map g xs) = len xs)
    by (intros g; unfold len; now rewrite length_map).
  unfold varianceR at 1. rewrite (meanR_standardized s xs Hne Hs).
  rewrite map_map. unfold varianceR.
  set (sq := fun x => ((x - meanR xs) * (x - meanR xs))%R).
  rewrite (map_ext _ (fun x => (sq x / (s * s))%R)).
  2:{ intros x. unfold sq. field. lra. }
  unfold meanR. rewrite !Hlen, (sumR_scale sq). field. lra.
Qed.

Lemma Exact_f32_zero : @f32_zero Exact.ops = 0%R.
Proof. unfold f32_zero. cbn. unfold Q2R. cbn. lra. Qed.

Lemma Exact_f64_zero : @f64_zero Exact.ops = 0%R.
Proof. unfold f64_zero. cbn. unfold Q2R. cbn. lra. Qed.

Lemma Exact_floor_const : @f64_const Exact.ops (1 # 10000000000) = (1 / 10000000000)%R.
Proof. cbn. unfold Q2R. cbn. lra. Qed.

Lemma Exact_bandMean (features : list (list R)) (k : nat) :
  @bandMean Exact.ops features (Z.of_nat k) = meanR (band features k).
Proof.
  unfold bandMean, meanR, band, at32. cbn [f64_add f64_div f64_of_int to_float64 Exact.ops].
  rewrite Nat2Z.id, Exact_f32_zero, Exact_f64_zero.
  rewrite (fold_left_sum (fun frame => nth k frame 0%R)).
  unfold len. rewrite length_map. f_equal. lra.
Qed.

Lemma Exact_bandStd (features : list (list R)) (k : nat) :
  @bandStd Exact.ops features (Z.of_nat k)
  = Rmax (sqrt (varianceR (band features k))) (1 / 10000000000).
Proof.
  unfold bandStd. rewrite Exact_bandMean, Exact_floor_const.
  unfold at32. cbn [f64_add f64_sub f64_mul f64_div f64_of_int f64_lt math_Sqrt
                    to_float64 Exact.ops].
  rewrite Nat2Z.id, Exact_f32_zero, Exact_f64_zero.
  rewrite (fold_left_sum (fun frame =>
             ((nth k frame 0 - meanR (band features k))
              * (nth k frame 0 - meanR (band features k)))%R)).
  match goal with |- context [sqrt ?v] =>
    assert (Hv : v = varianceR (band features k)) end.
  { unfold varianceR, meanR at 3, band. rewrite map_map.
    unfold len. rewrite !length_map. f_equal. lra. }
  rewrite Hv. unfold Exact.ltb, Rmax.
  destruct (Rlt_dec _ _) as [Hlt|Hge]; destruct (Rle_dec _ _) as [Hle|Hgt]; lra.
Qed.

Lemma Exact_band_normalize (features : list (list R)) (n k : nat) :
  Forall (fun row => length row = n) features -> (k < n)%nat ->
  band (@normalize Exact.ops features) k
  = map (fun x => ((x - meanR (band features k))
                   / Rmax (sqrt (varianceR (band features k))) (1 / 10000000000))%R)
        (band features k).
Proof.
  intros Hrect Hk. apply list_eq. intros f. unfold band.
  change (map ?g ?l) with (g <$> l). rewrite !list_lookup_fmap.
  destruct (features !! f) as [row|] eqn:Hf.
  - destruct (normalize_entry (H := Exact.ops) features n k f row Hrect Hk Hf)
      as (row' & Hout & Hnth).
    rewrite Exact_f32_zero, Exact_bandMean, Exact_bandStd in Hnth.
    cbn [to_float32 to_float64 f64_sub f64_div Exact.ops] in Hnth.
    transitivity ((fun row0 : list R => nth k row0 0%R) <$> Some row').
    { exact (f_equal (fmap (fun row0 : list R => nth k row0 0%R)) Hout). }
    cbn [fmap option_fmap option_map]. f_equal. exact Hnth.
  - rewrite (proj2 (lookup_ge_None _ _)); [reflexivity|].
    rewrite (normalize_length (H := Exact.ops)). now apply lookup_ge_None.
Qed.



(** ** A constant signal: every frame is the same *)

Lemma for_lt_ext {S : Type} (f g : Z -> S -> S) (fuel : nat) :
  forall (i bound step : Z) (s : S),
    0 < step ->
    (forall j x, i <= j < bound -> f j x = g j x) ->
    for_lt fuel i bound step f s = for_lt fuel i bound step g s.
Proof.
  induction fuel as [|fuel IH]; intros i bound step s Hstep Hfg; [reflexivity|].
  cbn [for_lt]. destruct (Z.ltb_spec i bound) as [Hlt|Hge]; [|reflexivity].
  rewrite (Hfg i s) by lia. apply IH; [exact Hstep|].
  intros j x Hj. apply Hfg. lia.
Qed.

Lemma map_constant {A B : Type} (f : A -> B) (y : B) (l : list A) :
  Forall (fun a => f a = y) l -> map f l = repeat y (length l).
Proof.
  induction 1 as [|a l Ha _ IH]; [reflexivity|]. cbn. now rewrite Ha, IH.
Qed.

Section ConstantSignal.
Context `{FloatOps} `{!MathLib}.

Lemma at32_repeat (c : float32) (n : nat) (i : Z) :
  0 <= i < Z.of_nat n -> at32 (repeat c n) i = c.
Proof.
  intros Hi. unfold at32. apply nth_lookup_Some. apply lookup_repeat_lt. lia.
Qed.

Lemma windowFrame_constant (m : MelFilterbank) (c : float32) (n : nat) (start : Z) :
  0 <= start -> start + winLength m <= Z.of_nat n ->
  windowFrame m (repeat c n) start (start + winLength m)
  = windowFrame m (repeat c n) 0 (0 + winLength m).
Proof.
  intros Hs Hn. unfold windowFrame, for_range.
  replace (start + winLength m - start) with (winLength m) by lia.
  replace (0 + winLength m - 0) with (winLength m) by lia.
  apply for_lt_ext; [lia|]. intros j x Hj.
  rewrite !at32_repeat by lia. reflexivity.
Qed.

Lemma melFrame_constant (m : MelFilterbank) (c : float32) (n : nat) (frame : Z) :
  0 <= frame -> 0 <= hopLength m -> 0 <= winLength m ->
  frame * hopLength m + winLength m <= Z.of_nat n ->
  melFrame m (repeat c n) frame = melFrame m (repeat c n) 0.
Proof.
  intros Hf Hh Hw Hn. unfold melFrame. cbv zeta.
  assert (Hlen : len (repeat c n) = Z.of_nat n) by (unfold len; now rewrite repeat_length).
  rewrite Hlen.
  assert (Hstart : 0 <= frame * hopLength m) by (apply Z.mul_nonneg_nonneg; lia).
  destruct (Z.gtb_spec (frame * hopLength m + winLength m) (Z.of_nat n)) as [Hgt|_]; [lia|].
  destruct (Z.gtb_spec (0 * hopLength m + winLength m) (Z.of_nat n)) as [Hgt|_]; [lia|].
  rewrite (windowFrame_constant m c n (frame * hopLength m)) by lia.
  reflexivity.
Qed.

(** The features of a constant signal are the normalization of one row
    repeated. *)
Lemma Extract_constant (m : MelFilterbank) (c : float32) (n : nat) :
  0 < hopLength m -> 0 <= winLength m <= Z.of_nat n ->
  Extract m (repeat c n)
  = normalize (repeat (melFrame m (repeat c n) 0)
                 (Z.to_nat (Z.quot (Z.of_nat n - winLength m) (hopLength m) + 1))).
Proof.
  intros Hh Hw. unfold Extract. cbv zeta.
  assert (Hlen : len (repeat c n) = Z.of_nat n) by (unfold len; now rewrite repeat_length).
  rewrite Hlen. rewrite Z.quot_div_nonneg by lia.
  set (q := (Z.of_nat n - winLength m) / hopLength m).
  assert (Hq : 0 <= q) by (apply Z.div_pos; lia).
  assert (Hqh : q * hopLength m <= Z.of_nat n - winLength m)
    by (rewrite Z.mul_comm; apply Z.mul_div_le; lia).
  destruct (Z.leb_spec (q + 1) 0) as [Hle|_]; [lia|].
  f_equal. rewrite (map_constant _ (melFrame m (repeat c n) 0)).
  - now rewrite length_seqZ.
  - apply Forall_forall. intros i Hi. apply elem_of_seqZ in Hi.
    apply melFrame_constant; try lia. nia.
Qed.
End ConstantSignal.

Lemma sumR_repeat (x : R) (n : nat) : sumR (repeat x n) = (IZR (Z.of_nat n) * x)%R.
Proof.
  unfold sumR. induction n as [|n IH].
  - cbn [repeat fold_right]. change (Z.of_nat 0) with 0. lra.
  - cbn [repeat fold_right]. rewrite IH, Nat2Z.inj_succ, succ_IZR. lra.
Qed.

Lemma meanR_repeat (x : R) (n : nat) : (0 < n)%nat -> meanR (repeat x n) = x.
Proof.
  intros Hn. unfold meanR, len. rewrite sumR_repeat, repeat_length.
  assert (0 < IZR (Z.of_nat n))%R by (apply IZR_lt; lia). field. lra.
Qed.

Lemma varianceR_repeat (x : R) (n : nat) : (0 < n)%nat -> varianceR (repeat x n) = 0%R.
Proof.
  intros Hn. unfold varianceR. rewrite (meanR_repeat x n Hn), map_repeat.
  replace ((x - x) * (x - x))%R with 0%R by lra. now apply meanR_repeat.
Qed.

(** In exact arithmetic and with any mathematical library, a constant
    signal (digital silence, for one) of at least one window gives
    features in which every band is zero in every frame: variance 0. *)
Lemma Exact_constant_signal_variance (M : @MathLib Exact.ops)
    (m : @MelFilterbank Exact.ops) (c : R) (n k : nat) :
  0 < hopLength m -> 0 <= winLength m <= Z.of_nat n ->
  (k < Z.to_nat (nMels m))%nat ->
  let out := @Extract Exact.ops M m (repeat c n) in
  (0 < length out)%nat /\
  band out k = repeat 0%R (length out) /\
  varianceR (band out k) = 0%R /\
  ~ normalizedBand (band out k).
Proof.
  intros Hh Hw Hk out.
  set (F := Z.to_nat (Z.quot (Z.of_nat n - winLength m) (hopLength m) + 1)).
  set (row := @melFrame Exact.ops M m (repeat c n) 0).
  assert (Hout : out = @normalize Exact.ops (repeat row F))
    by (apply (Extract_constant (H := Exact.ops)); assumption).
  assert (HF : (0 < F)%nat).
  { unfold F. rewrite Z.quot_div_nonneg by lia.
    assert (0 <= (Z.of_nat n - winLength m) / hopLength m) by (apply Z.div_pos; lia). lia. }
  assert (Hlen : length out = F).
  { rewrite Hout, (normalize_length (H := Exact.ops)). apply repeat_length. }
  assert (Hband : band out k = repeat 0%R F).
  { rewrite Hout.
    rewrite (Exact_band_normalize (repeat row F) (Z.to_nat (nMels m)) k); [|idtac|exact Hk].
    - unfold band at 3. rewrite map_repeat. rewrite map_repeat.
      unfold band at 1. rewrite map_repeat, (meanR_repeat _ F HF).
      f_equal. unfold Rdiv. rewrite Rminus_diag. apply Rmult_0_l.
    - apply Forall_forall. intros r Hr. apply list_elem_of_In, repeat_spec in Hr.
      subst r. apply (melFrame_length (H := Exact.ops)). }
  split; [lia|]. rewrite Hlen, Hband.
  split; [reflexivity|].
  assert (Hv : varianceR (repeat 0%R F) = 0%R) by now apply varianceR_repeat.
  split; [exact Hv|]. intros [_ Hbad]. rewrite Hv in Hbad.
  unfold Rabs in Hbad. destruct (Rcase_abs (0 - 1)); lra.
Qed.

(** 1600 samples of digital silence, the shortest buffer [Transcribe]
    passes on: eight frames, every band zero throughout. *)
Lemma Exact_silence_variance (M : @MathLib Exact.ops) (k : nat) :
  (k < 128)%nat ->
  let out := @Extract Exact.ops M (NewMelFilterbank 128 16000) (repeat 0%R 1600) in
  length out = 8%nat /\
  band out k = repeat 0%R 8 /\
  varianceR (band out k) = 0%R /\
  ~ normalizedBand (band out k).
Proof.
  intros Hk out.
  assert (Hlen : length out = 8%nat).
  { unfold out. rewrite (proj1 (Extract_shape (H := Exact.ops) _ _)).
    unfold len. rewrite repeat_length. reflexivity. }
  destruct (Exact_constant_signal_variance M (NewMelFilterbank 128 16000) 0%R 1600 k)
    as (_ & Hband & Hv & Hbad).
  - cbn. lia.
  - cbn. lia.
  - cbn. lia.
  - fold out in Hband, Hv, Hbad. rewrite Hlen in Hband. auto.
Qed.

Lemma mapM_repeat_Some {A B : Type} (f : A -> option B) (x : A) (y : B) (n : nat) :
  f x = Some y -> mapM f (repeat x n) = Some (repeat y n).
Proof.
  intros Hf. induction n as [|n IH]; [reflexivity|].
  cbn [repeat]. change (mapM f (x :: repeat x n))
    with (f x ≫= fun b => mapM f (repeat x n) ≫= fun bs => Some (b :: bs)).
  rewrite Hf, IH. reflexivity.
Qed.

Lemma bandReals_zeros (i : nat) :
  (i < 128)%nat ->
  @bandReals IEEE.ops IEEE.reals (repeat (repeat (S754_zero false) 128) 8) i
  = Some (repeat 0%R 8).
Proof.
  intros Hi. unfold bandReals. apply mapM_repeat_Some.
  rewrite lookup_repeat_lt by exact Hi. reflexivity.
Qed.


(** ** The chunk walk never runs out of fuel *)

Lemma bind_not_OutOfFuel {A B : Type} (m : Res A) (f : A -> Res B) :
  m <> OutOfFuel -> (forall a, f a <> OutOfFuel) -> m ≫= f <> OutOfFuel.
Proof. intros Hm Hf. destruct m; cbn; try discriminate; [apply Hf|contradiction]. Qed.

Lemma Uint16_not_OutOfFuel (b : list byte) : LittleEndian_Uint16 b <> OutOfFuel.
Proof. destruct b as [|? [|? ?]]; discriminate. Qed.

Lemma Uint32_not_OutOfFuel (b : list byte) : LittleEndian_Uint32 b <> OutOfFuel.
Proof. destruct b as [|? [|? [|? [|? ?]]]]; discriminate. Qed.

Lemma Uint32_nonneg (b : list byte) (n : Z) : LittleEndian_Uint32 b = Ok n -> 0 <= n.
Proof.
  destruct b as [|b0 [|b1 [|b2 [|b3 ?]]]]; try discriminate. intros [= <-].
  pose proof (u8_range b0). pose proof (u8_range b1).
  pose proof (u8_range b2). pose proof (u8_range b3).
  pose proof (proj2 (Z.shiftl_nonneg (u8 b1) 8)).
  pose proof (proj2 (Z.shiftl_nonneg (u8 b2) 16)).
  pose proof (proj2 (Z.shiftl_nonneg (u8 b3) 24)).
  repeat (apply (proj2 (Z.lor_nonneg _ _)); split); try lia.
Qed.

Section FuelFacts.
Context `{FloatOps}.

Ltac no_fuel_step :=
  first
    [ apply bind_not_OutOfFuel; [|intros ?]
    | apply index_not_OutOfFuel
    | apply slice_not_OutOfFuel
    | apply Uint16_not_OutOfFuel
    | apply Uint32_not_OutOfFuel
    | apply mapM_not_OutOfFuel; intros ?
    | discriminate ].

Lemma pcmValue_not_OutOfFuel (data : list byte) (audioFormat bitsPerSample offset : Z) :
  pcmValue data audioFormat bitsPerSample offset <> OutOfFuel.
Proof.
  unfold pcmValue.
  repeat (match goal with |- context [if ?c then _ else _] => destruct c end);
    repeat no_fuel_step.
Qed.

Lemma sumChannels_not_OutOfFuel (data : list byte)
    (audioFormat numChannels bitsPerSample bytesPerSample i : Z) (n : nat)
    (ch : Z) (sum : float64) :
  sumChannels data audioFormat numChannels bitsPerSample bytesPerSample i n ch sum
  <> OutOfFuel.
Proof.
  revert ch sum. induction n as [|n IH]; intros ch sum; cbn [sumChannels]; [discriminate|].
  destruct (_ >? _); [discriminate|].
  apply bind_not_OutOfFuel; [apply pcmValue_not_OutOfFuel|]. intros val. apply IH.
Qed.

Lemma convertToFloat32_not_OutOfFuel (data : list byte)
    (audioFormat numChannels bitsPerSample : Z) :
  convertToFloat32 data audioFormat numChannels bitsPerSample <> OutOfFuel.
Proof.
  unfold convertToFloat32.
  destruct (_ && _); [discriminate|]. destruct (_ =? 0); [discriminate|].
  apply mapM_not_OutOfFuel. intros i. unfold convertSample.
  apply bind_not_OutOfFuel; [apply sumChannels_not_OutOfFuel|]. discriminate.
Qed.

Lemma resample_not_OutOfFuel (samples : list float32) (srcRate dstRate : Z) :
  resample samples srcRate dstRate <> OutOfFuel.
Proof.
  unfold resample. destruct (_ =? _); [discriminate|]. destruct (_ <? 0); [discriminate|].
  apply mapM_not_OutOfFuel. intros i. unfold resampleAt. repeat no_fuel_step.
Qed.

Lemma readData_not_OutOfFuel (data : list byte) (offset chunkSize : Z) (fmt : FmtChunk) :
  readData data offset chunkSize fmt <> OutOfFuel.
Proof.
  unfold readData. apply bind_not_OutOfFuel; [apply slice_not_OutOfFuel|]. intros audioData.
  apply bind_not_OutOfFuel; [apply convertToFloat32_not_OutOfFuel|]. intros samples.
  destruct (negb _); [apply resample_not_OutOfFuel|discriminate].
Qed.

Lemma readFmt_not_OutOfFuel (data : list byte) (offset : Z) :
  readFmt data offset <> OutOfFuel.
Proof. unfold readFmt. repeat no_fuel_step. Qed.

(** Every chunk moves the offset by at least 8 bytes. *)
Lemma walkChunks_not_OutOfFuel (fuel : nat) (data : list byte) :
  forall (offset : Z) (fmt : FmtChunk),
    (Z.to_nat (len data - 8 - offset) <= fuel)%nat ->
    walkChunks fuel data offset fmt <> OutOfFuel.
Proof.
  induction fuel as [|fuel IH]; intros offset fmt Hfuel; cbn [walkChunks].
  - destruct (Z.ltb_spec offset (len data - 8)); [lia|discriminate].
  - destruct (Z.ltb_spec offset (len data - 8)) as [Hlt|Hge]; [|discriminate].
    apply bind_not_OutOfFuel; [apply slice_not_OutOfFuel|]. intros chunkID.
    apply bind_not_OutOfFuel; [apply slice_not_OutOfFuel|]. intros b.
    destruct (LittleEndian_Uint32 b) as [chunkSize| | |] eqn:Esize; cbn [mbind Res_bind];
      try discriminate; [|exact (False_ind _ (Uint32_not_OutOfFuel b Esize))].
    apply Uint32_nonneg in Esize.
    assert (Hnext : forall fmt',
              walkChunks fuel data
                (if negb (chunkSize mod 2 =? 0) then offset + (8 + chunkSize) + 1
                 else offset + (8 + chunkSize)) fmt' <> OutOfFuel).
    { intros fmt'. apply IH. destruct (negb _); lia. }
    destruct (bytes_eqb chunkID tag_fmt).
    + destruct (chunkSize <? 16); [discriminate|].
      apply bind_not_OutOfFuel; [apply readFmt_not_OutOfFuel|]. exact Hnext.
    + destruct (bytes_eqb chunkID tag_data); [apply readData_not_OutOfFuel|apply Hnext].
Qed.

(** [parseWAV] always returns samples, an error or a panic. *)
Lemma parseWAV_not_OutOfFuel (data : list byte) : parseWAV data <> OutOfFuel.
Proof.
  unfold parseWAV. destruct (_ <? 44); [discriminate|].
  apply bind_not_OutOfFuel; [apply slice_not_OutOfFuel|]. intros magic.
  destruct (negb _); [discriminate|].
  apply bind_not_OutOfFuel; [apply slice_not_OutOfFuel|]. intros form.
  destruct (negb _); [discriminate|].
  apply walkChunks_not_OutOfFuel. unfold len. lia.
Qed.
End FuelFacts.

(* ================================================================== *)
(** * Part III: further properties of the package                      *)
(* ================================================================== *)

(** ** What a successful parse needs *)

Lemma bytes_eqb_eq (a b : list byte) : bytes_eqb a b = true -> a = b.
Proof.
  revert b. induction a as [|x a IH]; intros [|y b]; cbn; try discriminate; [reflexivity|].
  intros Hb. apply andb_prop in Hb as [Hxy Hab].
  apply Byte.byte_dec_bl in Hxy. subst y. f_equal. now apply IH.
Qed.

Lemma slice_Ok {A : Type} (l x : list A) (lo hi : Z) :
  slice l lo hi = Ok x ->
  0 <= lo <= hi /\ hi <= len l /\ x = take (Z.to_nat (hi - lo)) (drop (Z.to_nat lo) l).
Proof.
  unfold slice. destruct (Z.leb_spec 0 lo); cbn [andb]; [|discriminate].
  destruct (Z.leb_spec lo hi); cbn [andb]; [|discriminate].
  destruct (Z.leb_spec hi (len l)); [|discriminate].
  intros [= <-]. repeat split; lia.
Qed.

Section ParseFacts.
Context `{FloatOps}.

Lemma convertToFloat32_Ok_format (data : list byte) (af nc bps : Z)
    (samples : list float32) :
  convertToFloat32 data af nc bps = Ok samples -> af = 1 \/ af = 3.
Proof.
  unfold convertToFloat32.
  destruct (Z.eqb_spec af 1); [now left|]. destruct (Z.eqb_spec af 3); [now right|].
  discriminate.
Qed.

Lemma readData_Ok_format (data : list byte) (offset chunkSize : Z) (fmt : FmtChunk)
    (samples : list float32) :
  readData data offset chunkSize fmt = Ok samples ->
  fmt_audioFormat fmt = 1 \/ fmt_audioFormat fmt = 3.
Proof.
  unfold readData. destruct (slice _ _ _); try discriminate. cbn [mbind Res_bind].
  destruct (convertToFloat32 _ _ _ _) eqn:Hc; try discriminate.
  intros _. eapply convertToFloat32_Ok_format, Hc.
Qed.

(** A data chunk is decoded only after a [fmt ] chunk of at least 16
    bytes, so its header starts at byte 36 or later. *)
Lemma walkChunks_Ok_offset (fuel : nat) (data : list byte) (samples : list float32) :
  forall (offset : Z) (fmt : FmtChunk),
    walkChunks fuel data offset fmt = Ok samples ->
    12 <= offset ->
    (fmt_audioFormat fmt = 1 \/ fmt_audioFormat fmt = 3 -> 36 <= offset) ->
    45 <= len data.
Proof.
  induction fuel as [|fuel IH]; intros offset fmt; cbn [walkChunks];
    destruct (Z.ltb_spec offset (len data - 8)) as [Hlt|Hge]; try discriminate.
  destruct (slice data offset (offset + 4)) as [chunkID| | |]; try discriminate.
  cbn [mbind Res_bind].
  destruct (slice data (offset + 4) (offset + 8)) as [b| | |]; try discriminate.
  cbn [mbind Res_bind].
  destruct (LittleEndian_Uint32 b) as [chunkSize| | |] eqn:Esize; try discriminate.
  cbn [mbind Res_bind]. apply Uint32_nonneg in Esize.
  destruct (bytes_eqb chunkID tag_fmt).
  - destruct (Z.ltb_spec chunkSize 16) as [|Hsize]; [discriminate|].
    destruct (readFmt data offset) as [fmt'| | |]; try discriminate.
    cbn [mbind Res_bind]. intros Hw Hoff _.
    apply (IH _ _ Hw); destruct (negb _); lia.
  - destruct (bytes_eqb chunkID tag_data).
    + intros Hr Hoff Hfmt. apply readData_Ok_format in Hr. specialize (Hfmt Hr). lia.
    + intros Hw Hoff Hfmt. apply (IH _ _ Hw); [destruct (negb _); lia|].
      intros Hf. specialize (Hfmt Hf). destruct (negb _); lia.
Qed.

(** X1: whenever [parseWAV] returns samples, the input has at least 45
    bytes (no 44-byte file is ever parsed), starts with the magic [RIFF],
    and carries [WAVE] in bytes 8 to 11. *)
Theorem X1_parseWAV_success_needs_45_bytes (data : list byte) (samples : list float32) :
  parseWAV data = Ok samples ->
  45 <= len data /\
  take 4 data = tag_RIFF /\
  take 4 (drop 8 data) = tag_WAVE.
Proof.
  unfold parseWAV. destruct (Z.ltb_spec (len data) 44) as [|Hlen]; [discriminate|].
  destruct (slice data 0 4) as [magic| | |] eqn:Hmagic; try discriminate.
  cbn [mbind Res_bind].
  destruct (bytes_eqb magic tag_RIFF) eqn:Hriff; [|discriminate]. cbn [negb].
  destruct (slice data 8 12) as [form| | |] eqn:Hform; try discriminate.
  cbn [mbind Res_bind].
  destruct (bytes_eqb form tag_WAVE) eqn:Hwave; [|discriminate]. cbn [negb].
  intros Hw. split.
  - apply (walkChunks_Ok_offset _ _ _ _ _ Hw); [lia|]. cbn. intros [?|?]; discriminate.
  - apply bytes_eqb_eq in Hriff, Hwave. subst magic form.
    apply slice_Ok in Hmagic as (_ & _ & Hm). apply slice_Ok in Hform as (_ & _ & Hf).
    split; [exact (eq_sym Hm)|exact (eq_sym Hf)].
Qed.
End ParseFacts.

Lemma X1_witness : 45 <= len wav45.
Proof.
  apply (X1_parseWAV_success_needs_45_bytes (H := IEEE.ops) wav45 []). reflexivity.
Defined.

(** ** Files of the canonical layout *)

Lemma len_app {A : Type} (a b : list A) : len (a ++ b) = len a + len b.
Proof. unfold len. rewrite length_app. lia. Qed.

Lemma slice_app_l {A : Type} (a b : list A) (lo hi : Z) :
  0 <= lo <= hi -> hi <= len a -> slice (a ++ b) lo hi = slice a lo hi.
Proof.
  intros Hlo Hhi. unfold slice. rewrite len_app.
  pose proof (len_nonneg b).
  destruct (Z.leb_spec 0 lo); [|lia]. destruct (Z.leb_spec lo hi); [|lia].
  destruct (Z.leb_spec hi (len a + len b)); [|lia].
  destruct (Z.leb_spec hi (len a)); [|lia]. cbn [andb]. f_equal.
  unfold len in *. rewrite drop_app_le by lia. rewrite take_app_le; [reflexivity|].
  rewrite length_drop. lia.
Qed.

Lemma slice_app_r {A : Type} (a b : list A) (hi : Z) :
  len a <= hi <= len a + len b ->
  slice (a ++ b) (len a) hi = Ok (take (Z.to_nat (hi - len a)) b).
Proof.
  intros Hhi. unfold slice. rewrite len_app. pose proof (len_nonneg a).
  destruct (Z.leb_spec 0 (len a)); [|lia]. destruct (Z.leb_spec (len a) hi); [|lia].
  destruct (Z.leb_spec hi (len a + len b)); [|lia]. cbn [andb]. f_equal.
  unfold len. rewrite Nat2Z.id. now rewrite drop_app_length.
Qed.

Lemma uint16_unsignedLE (b0 b1 : byte) :
  LittleEndian_Uint16 [b0; b1] = Ok (unsignedLE [b0; b1]).
Proof.
  cbn [LittleEndian_Uint16 unsignedLE]. f_equal. pose proof (u8_range b0).
  rewrite lor_shiftl_add by lia. change (2 ^ 8) with 256. lia.
Qed.

Section CanonicalFacts.
Context `{FloatOps}.

Lemma walkChunks_S (fuel : nat) (data : list byte) (offset : Z) (fmt : FmtChunk) :
  walkChunks (S fuel) data offset fmt
  = if offset <? len data - 8 then
      chunkID ← slice data offset (offset + 4);
      b ← slice data (offset + 4) (offset + 8);
      chunkSize ← LittleEndian_Uint32 b;
      let next (fmt' : FmtChunk) :=
        let offset := offset + (8 + chunkSize) in
        let offset := if negb (chunkSize mod 2 =? 0) then offset + 1 else offset in
        walkChunks fuel data offset fmt' in
      if bytes_eqb chunkID tag_fmt then
        if chunkSize <? 16 then Err ErrFmtChunkTooSmall
        else fmt' ← readFmt data offset; next fmt'
      else if bytes_eqb chunkID tag_data then readData data offset chunkSize fmt
      else next fmt
    else Err ErrNoDataChunk.
Proof. reflexivity. Qed.

(** X2: a file of the canonical layout with a non-empty body decodes
    the first [dataSize] bytes of the body, or all of it when the header
    declares more than the file holds, with the format, channel count and
    bit depth of the [fmt ] chunk, and resamples unless the rate is
    16000; the RIFF size, byte rate and block alignment are not looked at. *)
Theorem X2_parseWAV_canonical_layout (size fmtBody dataSize body : list byte) :
  length size = 4%nat -> length fmtBody = 16%nat -> length dataSize = 4%nat ->
  body <> [] ->
  let audioFormat := unsignedLE (take 2 fmtBody) in
  let numChannels := unsignedLE (take 2 (drop 2 fmtBody)) in
  let sampleRate := unsignedLE (take 4 (drop 4 fmtBody)) in
  let bitsPerSample := unsignedLE (take 2 (drop 14 fmtBody)) in
  parseWAV (wavLayout size fmtBody dataSize body)
  = (samples ← convertToFloat32 (take (Z.to_nat (unsignedLE dataSize)) body)
                 audioFormat numChannels bitsPerSample;
     if sampleRate =? 16000 then Ok samples else resample samples sampleRate 16000).
Proof.
  intros Hsize Hfmt Hds Hbody.
  destruct size as [|s0 [|s1 [|s2 [|s3 [|]]]]]; try discriminate.
  destruct dataSize as [|d0 [|d1 [|d2 [|d3 [|]]]]]; try discriminate.
  do 16 (destruct fmtBody as [|? fmtBody]; [discriminate|]).
  destruct fmtBody; [|discriminate].
  cbn [take drop Z.to_nat Pos.to_nat Pos.iter_op Nat.add]. cbv zeta.
  set (pre := [x52; x49; x46; x46; s0; s1; s2; s3; x57; x41; x56; x45;
               x66; x6d; x74; x20; x10; x00; x00; x00;
               b; b0; b1; b2; b3; b4; b5; b6; b7; b8; b9; b10; b11; b12; b13; b14;
               x64; x61; x74; x61; d0; d1; d2; d3]).
  change (wavLayout _ _ _ body) with (pre ++ body).
  assert (Hpre : len pre = 44) by reflexivity.
  assert (Hb : 0 < len body) by (unfold len; destruct body; [contradiction|cbn; lia]).
  assert (Hlen : len (pre ++ body) = 44 + len body) by (rewrite len_app, Hpre; reflexivity).
  unfold parseWAV. rewrite Hlen.
  destruct (Z.ltb_spec (44 + len body) 44) as [|_]; [lia|].
  rewrite !slice_app_l by (rewrite ?Hpre; lia).
  change (slice pre 0 4) with (Ok tag_RIFF : Res (list byte)).
  change (slice pre 8 12) with (Ok tag_WAVE : Res (list byte)).
  cbn [mbind Res_bind]. change (bytes_eqb tag_RIFF tag_RIFF) with true.
  change (bytes_eqb tag_WAVE tag_WAVE) with true. cbn [negb].
  assert (Hfuel : length (pre ++ body) = S (S (42 + length body)))
    by (rewrite length_app; reflexivity).
  rewrite Hfuel, walkChunks_S, Hlen.
  destruct (Z.ltb_spec 12 (44 + len body - 8)) as [_|]; [|lia].
  change (12 + 4) with 16. change (16 + 4) with 20. change (12 + 8) with 20.
  rewrite !slice_app_l by (rewrite ?Hpre; lia).
  change (slice pre 12 16) with (Ok tag_fmt : Res (list byte)).
  change (slice pre 16 20) with (Ok [x10; x00; x00; x00] : Res (list byte)).
  cbn [mbind Res_bind].
  change (LittleEndian_Uint32 [x10; x00; x00; x00]) with (Ok 16 : Res Z).
  cbn [mbind Res_bind]. cbv zeta.
  change (bytes_eqb tag_fmt tag_fmt) with true. change (16 <? 16) with false.
  change (negb (16 mod 2 =? 0)) with false. change (12 + (8 + 16)) with 36. cbv iota.
  unfold readFmt.
  change (12 + 8) with 20; change (12 + 10) with 22; change (12 + 12) with 24;
    change (12 + 16) with 28; change (12 + 20) with 32; change (12 + 22) with 34;
    change (12 + 24) with 36.
  rewrite !slice_app_l by (rewrite ?Hpre; lia).
  change (slice pre 20 22) with (Ok [b; b0] : Res (list byte)).
  change (slice pre 22 24) with (Ok [b1; b2] : Res (list byte)).
  change (slice pre 24 28) with (Ok [b3; b4; b5; b6] : Res (list byte)).
  change (slice pre 28 32) with (Ok [b7; b8; b9; b10] : Res (list byte)).
  change (slice pre 32 34) with (Ok [b11; b12] : Res (list byte)).
  change (slice pre 34 36) with (Ok [b13; b14] : Res (list byte)).
  cbn [mbind Res_bind]. rewrite !uint16_unsignedLE, !uint32_unsignedLE.
  cbn [mbind Res_bind].
  rewrite walkChunks_S, Hlen.
  destruct (Z.ltb_spec 36 (44 + len body - 8)) as [_|]; [|lia].
  change (36 + 4) with 40. change (40 + 4) with 44. change (36 + 8) with 44.
  rewrite !slice_app_l by (rewrite ?Hpre; lia).
  change (slice pre 36 40) with (Ok tag_data : Res (list byte)).
  change (slice pre 40 44) with (Ok [d0; d1; d2; d3] : Res (list byte)).
  cbn [mbind Res_bind]. rewrite uint32_unsignedLE. cbn [mbind Res_bind]. cbv zeta.
  change (bytes_eqb tag_data tag_fmt) with false.
  change (bytes_eqb tag_data tag_data) with true. cbv iota.
  unfold readData. cbv zeta. cbn [fmt_audioFormat fmt_numChannels fmt_sampleRate
                                  fmt_bitsPerSample].
  change (36 + 8) with 44. rewrite Hlen.
  set (d := unsignedLE [d0; d1; d2; d3]).
  assert (Hd : 0 <= d) by (apply unsignedLE_range).
  assert (Hslice : slice (pre ++ body) 44
                     (if 44 + d >? 44 + len body then 44 + len body else 44 + d)
                   = Ok (take (Z.to_nat d) body)).
  { rewrite <- Hpre at 1. destruct (Z.gtb_spec (44 + d) (44 + len body)) as [Hgt|Hle].
    - rewrite slice_app_r by (rewrite Hpre; lia). rewrite Hpre. f_equal.
      rewrite !firstn_all2; [reflexivity| |]; unfold len in *; lia.
    - rewrite slice_app_r by (rewrite Hpre; lia). rewrite Hpre. do 2 f_equal. lia. }
  rewrite Hslice. cbn [mbind Res_bind].
  destruct (convertToFloat32 _ _ _ _); cbn [mbind Res_bind]; try reflexivity.
  destruct (_ =? 16000); reflexivity.
Qed.
End CanonicalFacts.

Lemma X2_witness :
  @parseWAV IEEE.ops
    (wavLayout [x26; x00; x00; x00]
       [x01; x00; x01; x00; x80; x3e; x00; x00; x00; x7d; x00; x00; x02; x00; x10; x00]
       [xff; xff; x00; x00] [x00; x40])
  = Ok [S754_finite false 8388608 (-24)].
Proof.
  exact (X2_parseWAV_canonical_layout (H := IEEE.ops) [x26; x00; x00; x00]
           [x01; x00; x01; x00; x80; x3e; x00; x00; x00; x7d; x00; x00; x02; x00; x10; x00]
           [xff; xff; x00; x00] [x00; x40] eq_refl eq_refl eq_refl
           ltac:(discriminate)).
Defined.

(** ** The PCM decoder: what it accepts and how many samples it returns *)

Lemma slice_in_range {A : Type} (l : list A) (lo hi : Z) :
  0 <= lo <= hi -> hi <= len l -> exists x, slice l lo hi = Ok x.
Proof.
  intros Hlo Hhi. unfold slice.
  destruct (Z.leb_spec 0 lo); [|lia]. destruct (Z.leb_spec lo hi); [|lia].
  destruct (Z.leb_spec hi (len l)); [|lia]. cbn [andb]. eauto.
Qed.

Lemma index_in_range {A : Type} (l : list A) (i : Z) :
  0 <= i < len l -> exists x, index l i = Ok x.
Proof.
  intros Hi. unfold index.
  destruct (Z.leb_spec 0 i); [|lia]. destruct (Z.ltb_spec i (len l)); [|lia]. cbn [andb].
  destruct (lookup_lt_is_Some_2 l (Z.to_nat i)) as [x Hx]; [unfold len in *; lia|].
  rewrite Hx. eauto.
Qed.

Lemma mapM_Ok_all {A B : Type} (f : A -> Res B) (l : list A) :
  Forall (fun a => exists b, f a = Ok b) l -> exists ys, mapM f l = Ok ys.
Proof.
  induction 1 as [|a l [b Hb] _ [ys IH]]; [exists []; reflexivity|].
  exists (b :: ys).
  change (mapM f (a :: l)) with (f a ≫= fun y => mapM f l ≫= fun k => Ok (y :: k)).
  rewrite Hb. cbn [mbind Res_bind]. rewrite IH. reflexivity.
Qed.

Section DecoderFacts.
Context `{FloatOps}.

Lemma pcmValue_in_range (data : list byte) (audioFormat bitsPerSample offset : Z) :
  bitsPerSample = 8 \/ bitsPerSample = 16 \/ bitsPerSample = 24 \/ bitsPerSample = 32 ->
  0 <= offset -> offset + bitsPerSample / 8 <= len data ->
  exists v, pcmValue data audioFormat bitsPerSample offset = Ok v.
Proof.
  intros Hbits Hoff Hend. destruct Hbits as [->|[->|[->| ->]]].
  - change (8 / 8) with 1 in Hend.
    destruct (index_in_range data offset) as [b Hb]; [lia|].
    rewrite (pcmValue_8 _ _ _ _ Hb). eauto.
  - change (16 / 8) with 2 in Hend.
    destruct (slice_in_range data offset (offset + 2)) as [b Hb]; [lia|lia|].
    rewrite (pcmValue_16 _ _ _ _ Hb). eauto.
  - change (24 / 8) with 3 in Hend.
    destruct (slice_in_range data offset (offset + 3)) as [b Hb]; [lia|lia|].
    rewrite (pcmValue_24 _ _ _ _ Hb). eauto.
  - change (32 / 8) with 4 in Hend.
    destruct (slice_in_range data offset (offset + 4)) as [b Hb]; [lia|lia|].
    destruct (Z.eq_dec audioFormat 3) as [->|Hne].
    + rewrite (pcmValue_32_float _ _ _ Hb). eauto.
    + rewrite (pcmValue_32_int _ _ _ _ Hne Hb). eauto.
Qed.

Lemma sumChannels_in_range (data : list byte)
    (audioFormat numChannels bitsPerSample i : Z) (n : nat) :
  bitsPerSample = 8 \/ bitsPerSample = 16 \/ bitsPerSample = 24 \/ bitsPerSample = 32 ->
  0 <= i -> 0 <= numChannels ->
  forall (ch : Z) (sum : float64),
    0 <= ch ->
    exists v, sumChannels data audioFormat numChannels bitsPerSample
                (bitsPerSample / 8) i n ch sum = Ok v.
Proof.
  intros Hbits Hi Hnc. induction n as [|n IH]; intros ch sum Hch; cbn [sumChannels]; [eauto|].
  destruct (Z.gtb_spec ((i * numChannels + ch) * (bitsPerSample / 8) + bitsPerSample / 8)
              (len data)) as [|Hle]; [eauto|].
  assert (Hb : 0 < bitsPerSample / 8)
    by (destruct Hbits as [->|[->|[->| ->]]]; reflexivity).
  destruct (pcmValue_in_range data audioFormat bitsPerSample
              ((i * numChannels + ch) * (bitsPerSample / 8)) Hbits) as [v Hv]; [nia|lia|].
  rewrite Hv. cbn [mbind Res_bind]. apply IH. lia.
Qed.

(** X3: for format code 1 or 3, at least one channel and a depth of 8,
    16, 24 or 32 bits, the decoder fails on no byte buffer: it returns
    one sample per complete frame of [bitsPerSample/8 * numChannels]
    bytes and ignores the bytes of an incomplete last frame. *)
Theorem X3_convertToFloat32_total (data : list byte)
    (audioFormat numChannels bitsPerSample : Z) :
  audioFormat = 1 \/ audioFormat = 3 ->
  1 <= numChannels ->
  bitsPerSample = 8 \/ bitsPerSample = 16 \/ bitsPerSample = 24 \/ bitsPerSample = 32 ->
  exists samples,
    convertToFloat32 data audioFormat numChannels bitsPerSample = Ok samples /\
    len samples = len data / (bitsPerSample / 8 * numChannels).
Proof.
  intros Hfmt Hnc Hbits. unfold convertToFloat32.
  assert (Hf : negb (audioFormat =? 1) && negb (audioFormat =? 3) = false)
    by (destruct Hfmt as [->| ->]; reflexivity).
  rewrite Hf.
  assert (Hb : 0 < bitsPerSample / 8)
    by (destruct Hbits as [->|[->|[->| ->]]]; reflexivity).
  destruct (Z.eqb_spec (bitsPerSample / 8 * numChannels) 0) as [|_]; [nia|].
  destruct (mapM_Ok_all
              (convertSample data audioFormat numChannels bitsPerSample (bitsPerSample / 8))
              (seqZ 0 (len data / (bitsPerSample / 8 * numChannels)))) as [ys Hys].
  - apply Forall_forall. intros i Hi. apply elem_of_seqZ in Hi. unfold convertSample.
    destruct (sumChannels_in_range data audioFormat numChannels bitsPerSample i
                (Z.to_nat numChannels) Hbits) with (ch := 0) (sum := f64_const 0)
      as [v Hv]; try lia.
    rewrite Hv. cbn [mbind Res_bind]. eauto.
  - exists ys. split; [exact Hys|].
    unfold len at 1. rewrite (mapM_Ok_length _ _ _ Hys), length_seqZ.
    pose proof (len_nonneg data).
    assert (0 <= len data / (bitsPerSample / 8 * numChannels)) by (apply Z.div_pos; nia).
    lia.
Qed.

(** X4: a bit depth that is none of 8, 16, 24 and 32 is reported only
    when the buffer holds a complete frame: with fewer bytes the decoder
    returns no samples and no error. *)
Theorem X4_unsupported_depth_needs_a_frame (data : list byte)
    (audioFormat numChannels bitsPerSample : Z) :
  audioFormat = 1 \/ audioFormat = 3 ->
  1 <= numChannels ->
  8 <= bitsPerSample ->
  bitsPerSample <> 8 -> bitsPerSample <> 16 -> bitsPerSample <> 24 ->
  bitsPerSample <> 32 ->
  convertToFloat32 data audioFormat numChannels bitsPerSample
  = if len data <? bitsPerSample / 8 * numChannels then Ok []
    else Err (ErrUnsupportedBits bitsPerSample).
Proof.
  intros Hfmt Hnc Hbits H8 H16 H24 H32. unfold convertToFloat32.
  assert (Hf : negb (audioFormat =? 1) && negb (audioFormat =? 3) = false)
    by (destruct Hfmt as [->| ->]; reflexivity).
  rewrite Hf.
  assert (Hb : 1 <= bitsPerSample / 8) by (apply Z.div_le_lower_bound; lia).
  set (bps := bitsPerSample / 8) in *.
  destruct (Z.eqb_spec (bps * numChannels) 0) as [|_]; [nia|].
  pose proof (len_nonneg data) as Hlen.
  destruct (Z.ltb_spec (len data) (bps * numChannels)) as [Hlt|Hge].
  - rewrite Z.div_small by lia. reflexivity.
  - assert (Hq : 1 <= len data / (bps * numChannels))
      by (apply Z.div_le_lower_bound; nia).
    assert (Hseq : seqZ 0 (len data / (bps * numChannels))
                   = 0 :: seqZ 1 (len data / (bps * numChannels) - 1)).
    { rewrite (seqZ_cons 0) by lia. f_equal. }
    assert (Hfirst : convertSample data audioFormat numChannels bitsPerSample bps 0
                     = Err (ErrUnsupportedBits bitsPerSample)).
    { unfold convertSample.
      destruct (Z.to_nat numChannels) as [|n] eqn:Hn; [lia|]. cbn [sumChannels].
      change ((0 * numChannels + 0) * bps) with 0.
      destruct (Z.gtb_spec (0 + bps) (len data)) as [|_]; [nia|].
      unfold pcmValue.
      rewrite (proj2 (Z.eqb_neq _ _) H8), (proj2 (Z.eqb_neq _ _) H16),
        (proj2 (Z.eqb_neq _ _) H24), (proj2 (Z.eqb_neq _ _) H32).
      reflexivity. }
    rewrite Hseq.
    change (mapM ?f (0 :: ?l)) with (f 0 ≫= fun y => mapM f l ≫= fun k => Ok (y :: k)).
    rewrite Hfirst. reflexivity.
Qed.
End DecoderFacts.

Lemma X3_witness :
  exists samples,
    @convertToFloat32 IEEE.ops [x00; x40; x00] 1 1 16 = Ok samples /\ len samples = 1.
Proof.
  apply (X3_convertToFloat32_total (H := IEEE.ops) [x00; x40; x00] 1 1 16);
    [left; reflexivity|lia|right; left; reflexivity].
Defined.

Lemma X4_witness :
  @convertToFloat32 IEEE.ops [x00] 1 1 12 = Err (ErrUnsupportedBits 12) /\
  @convertToFloat32 IEEE.ops [] 1 1 12 = Ok [].
Proof.
  split.
  - apply (X4_unsupported_depth_needs_a_frame (H := IEEE.ops) [x00] 1 1 12);
      first [left; reflexivity|lia].
  - apply (X4_unsupported_depth_needs_a_frame (H := IEEE.ops) [] 1 1 12);
      first [left; reflexivity|lia].
Defined.

(** ** The resampler in exact arithmetic *)

Lemma mapM_Ok_all_Forall {A B : Type} (P : B -> Prop) (f : A -> Res B) (l : list A) :
  Forall (fun a => exists b, f a = Ok b /\ P b) l ->
  exists ys, mapM f l = Ok ys /\ Forall P ys.
Proof.
  induction 1 as [|a l (b & Hb & HP) _ (ys & IH & HPs)].
  - exists []. split; [reflexivity|constructor].
  - exists (b :: ys). split; [|now constructor].
    change (mapM f (a :: l)) with (f a ≫= fun y => mapM f l ≫= fun k => Ok (y :: k)).
    rewrite Hb. cbn [mbind Res_bind]. rewrite IH. reflexivity.
Qed.

Lemma Exact_truncate_quotient (a b : Z) :
  0 <= a -> 0 < b -> Exact.truncate (IZR a / IZR b) = a / b.
Proof.
  intros Ha Hb. unfold Exact.truncate.
  destruct (Rle_dec 0 (IZR a / IZR b)) as [_|Hneg]; [now apply Int_part_quotient|].
  exfalso. apply Hneg. apply Rmult_le_pos; [now apply IZR_le|].
  apply Rlt_le, Rinv_0_lt_compat, IZR_lt. lia.
Qed.

Lemma index_Ok_elem {A : Type} (l : list A) (i : Z) (x : A) :
  index l i = Ok x -> x ∈ l.
Proof.
  unfold index. destruct (_ && _); [|discriminate].
  destruct (l !! Z.to_nat i) eqn:Hl; [|discriminate].
  intros [= <-]. eapply list_elem_of_lookup_2, Hl.
Qed.

(** One output sample: both reads are in range and the result is a
    convex combination of the two samples read. *)
Lemma Exact_resampleAt (samples : list R) (srcRate dstRate i : Z) (lo hi : R) :
  0 < srcRate -> 0 < dstRate ->
  0 <= i < len samples * dstRate / srcRate ->
  Forall (fun x => (lo <= x <= hi)%R) samples ->
  exists y, @resampleAt Exact.ops samples (IZR srcRate / IZR dstRate)%R i = Ok y /\
            (lo <= y <= hi)%R.
Proof.
  intros Hs Hd Hi Hall. unfold resampleAt. cbn [f64_mul f64_of_int Exact.ops int_of_f64
    to_float32 f64_sub f32_add f32_mul f32_sub f32_const float32 float64].
  assert (HdR : (0 < IZR dstRate)%R) by (apply IZR_lt; lia).
  assert (Hidx : (IZR i * (IZR srcRate / IZR dstRate) = IZR (i * srcRate) / IZR dstRate)%R)
    by (rewrite mult_IZR; field; lra).
  rewrite Hidx, Exact_truncate_quotient by nia.
  set (n := len samples) in *. set (l := i * srcRate / dstRate).
  assert (Hl0 : 0 <= l) by (apply Z.div_pos; nia).
  assert (Hln : l < n).
  { apply Z.div_lt_upper_bound; [lia|].
    assert (Hq : (i + 1) * srcRate <= n * dstRate).
    { pose proof (Z.mul_div_le (n * dstRate) srcRate Hs).
      assert (srcRate * (i + 1) <= srcRate * (n * dstRate / srcRate))
        by (apply Z.mul_le_mono_nonneg_l; lia).
      lia. }
    nia. }
  cbv zeta.
  fold n. set (h := if l + 1 >=? n then n - 1 else l + 1).
  assert (Hh : 0 <= h < n) by (unfold h; destruct (Z.geb_spec (l + 1) n); lia).
  destruct (index_in_range samples l) as [slo Hslo]; [fold n; lia|].
  destruct (index_in_range samples h) as [shi Hshi]; [fold n; lia|].
  rewrite Hslo, Hshi. cbn [mbind Res_bind]. eexists. split; [reflexivity|].
  rewrite Forall_forall in Hall.
  pose proof (Hall _ (index_Ok_elem _ _ _ Hslo)) as Blo.
  pose proof (Hall _ (index_Ok_elem _ _ _ Hshi)) as Bhi.
  assert (Hq1 : Q2R 1 = 1%R) by (unfold Q2R; cbn; field).
  rewrite Hq1.
  set (f := (IZR (i * srcRate) / IZR dstRate - IZR l)%R).
  assert (Hf : (0 <= f < 1)%R).
  { unfold f, l. rewrite <- (Int_part_quotient (i * srcRate) dstRate Hd).
    destruct (base_Int_part (IZR (i * srcRate) / IZR dstRate)). lra. }
  split; nra.
Qed.



(** ** The blank index after loading a vocabulary *)

Lemma blank_fold (lines : list string) (m : gmap Z string) (b : Z) :
  snd (fold_left vocabLine lines (m, b))
  = match last (List.filter isBlank (omap vocabEntry lines)) with
    | Some e => fst e
    | None => b
    end.
Proof.
  revert m b. induction lines as [|line lines IH]; intros m b; [reflexivity|].
  cbn [fold_left]. rewrite vocabLine_entry.
  change (omap vocabEntry (line :: lines))
    with (match vocabEntry line with
          | Some y => y :: omap vocabEntry lines
          | None => omap vocabEntry lines
          end).
  destruct (vocabEntry line) as [[id piece]|]; cbn [fst snd]; [|apply IH].
  rewrite IH. cbn [List.filter]. unfold isBlank at 2. cbn [snd].
  destruct (String.eqb piece "<blk>"); [|reflexivity].
  rewrite last_cons. destruct (last (List.filter isBlank (omap vocabEntry lines)));
    reflexivity.
Qed.

(** X6: after a scan, the blank index is the id of the last well-formed
    line whose stored piece is [<blk>], and the old index when there is
    none; the scanner's error is returned as it is (the vocabulary is
    replaced all the same), the other fields are kept, and with pairwise
    distinct ids the vocabulary holds [<blk>] at the blank index.  When
    the file cannot be opened the transcriber is unchanged. *)
Theorem X6_loadVocab_blank_index `{FloatOps} (t : Transcriber) (lines : list string)
    (scanErr : option Error) :
  let r := loadVocab t (Scans lines scanErr) in
  let t' := fst r in
  let entries := omap vocabEntry lines in
  let blanks := List.filter isBlank entries in
  snd r = scanErr /\
  blankIdx t' = match last blanks with Some e => fst e | None => blankIdx t end /\
  config t' = config t /\ modelsDir t' = modelsDir t /\
  maxTokensPerStep t' = maxTokensPerStep t /\ mel t' = mel t /\
  (NoDup entries.*1 -> blanks <> [] -> vocab t' !! blankIdx t' = Some "<blk>"%string) /\
  (forall e, loadVocab t (OpenFails e) = (t, Some e)).
Proof.
  intros r t' entries blanks.
  assert (Hb : blankIdx t'
               = match last blanks with Some e => fst e | None => blankIdx t end).
  { unfold t', r, loadVocab, set_vocab. cbn [fst blankIdx]. apply blank_fold. }
  repeat (split; [reflexivity|]). split; [exact Hb|].
  repeat (split; [reflexivity|]). split; [|reflexivity].
  intros Hnd Hne. rewrite Hb.
  destruct (last blanks) as [[id piece]|] eqn:Hlast.
  - cbn [fst].
    assert (Hin : (id, piece) ∈ blanks) by (apply last_Some_elem_of, Hlast).
    unfold blanks in Hin. apply list_elem_of_In, filter_In in Hin as [Hin Hblk].
    unfold isBlank in Hblk. cbn [snd] in Hblk. apply String.eqb_eq in Hblk. subst piece.
    unfold t', r, loadVocab, set_vocab. cbn [fst vocab].
    rewrite vocab_fold, (right_id_L ∅ (∪)).
    apply elem_of_list_to_map_1.
    + rewrite fmap_reverse. now rewrite reverse_Permutation.
    + apply elem_of_reverse. now apply list_elem_of_In.
  - apply last_None in Hlast. contradiction.
Qed.

(** ** What the constructor guarantees *)

Section ConstructorFacts.
Context `{MathLib} `{!TextLib} `{!Runtime}.

(** X7: a transcriber that [NewTranscriber] returns has the models
    directory it was given, [maxTokensPerStep] 10, a non-zero feature
    size and subsampling factor (zero in the configuration is replaced
    by 128 and by 8), the filterbank of that feature size at 16 kHz, the
    vocabulary of the file with its size, and it is returned only when
    the configuration was read, the scan ended without error, the
    runtime library was found and started, and both models exist. *)
Theorem X7_NewTranscriber_invariant (dir : string) (env : Env) (t : Transcriber) :
  NewTranscriber dir env = Ok t ->
  modelsDir t = dir /\
  maxTokensPerStep t = 10 /\
  FeaturesSize (config t) <> 0 /\
  SubsamplingFactor (config t) <> 0 /\
  mel t = Some (NewMelFilterbank (FeaturesSize (config t)) 16000) /\
  vocabSize t = Z.of_nat (size (vocab t)) /\
  (exists cfg lines,
     env_config env = Ok cfg /\
     env_vocab env = Scans lines None /\
     ModelType (config t) = ModelType cfg /\
     FeaturesSize (config t)
     = (if FeaturesSize cfg =? 0 then 128 else FeaturesSize cfg) /\
     SubsamplingFactor (config t)
     = (if SubsamplingFactor cfg =? 0 then 8 else SubsamplingFactor cfg) /\
     vocab t = list_to_map (reverse (omap vocabEntry lines))) /\
  env_runtime env = Some None /\ env_encoder env = true /\ env_decoder env = true.
Proof.
  unfold NewTranscriber.
  destruct (env_config env) as [cfg| | |]; try discriminate.
  destruct (env_vocab env) as [e|lines scanErr]; [discriminate|].
  cbn [loadVocab]. destruct scanErr as [e|]; [discriminate|].
  destruct (env_runtime env) as [[e|]|]; try discriminate.
  destruct (env_encoder env); [|discriminate].
  destruct (env_decoder env); [|discriminate].
  cbn [negb]. intros [= <-].
  cbn [modelsDir maxTokensPerStep config mel vocabSize vocab set_vocab FeaturesSize
       SubsamplingFactor ModelType].
  rewrite vocab_fold, (right_id_L ∅ (∪)).
  repeat split; try reflexivity.
  - destruct (Z.eqb_spec (FeaturesSize cfg) 0); [discriminate|assumption].
  - destruct (Z.eqb_spec (SubsamplingFactor cfg) 0); [discriminate|assumption].
  - exists cfg, lines. repeat split; reflexivity.
Qed.

(** X8: with a transcriber from [NewTranscriber], [Transcribe] never
    answers "no features extracted": a waveform of 1600 samples or more
    always gives at least 8 frames, one per 160 samples after the first
    400, and the answer is that of the inference on those frames. *)
Theorem X8_Transcribe_always_has_features (dir : string) (env : Env) (t : Transcriber)
    (fuel : nat) (audioData : list byte) (format language : string) :
  NewTranscriber dir env = Ok t ->
  Transcribe fuel t audioData format language <> Err ErrNoFeatures /\
  (forall waveform,
     loadAudio audioData format = Ok waveform -> 1600 <= len waveform ->
     exists features,
       mel t ≫= (fun m => Some (Extract m waveform)) = Some features /\
       len features = (len waveform - 400) / 160 + 1 /\
       8 <= len features /\
       Transcribe fuel t audioData format language
       = match runInference fuel t features with
         | Ok toks => Ok (tokensToText t toks)
         | Err e => Err (ErrInferenceFailed e)
         | Panic p => Panic p
         | OutOfFuel => OutOfFuel
         end).
Proof.
  intros Hnew.
  assert (Hmel : mel t = Some (NewMelFilterbank (FeaturesSize (config t)) 16000)).
  { revert Hnew. unfold NewTranscriber.
    destruct (env_config env) as [cfg| | |]; try discriminate.
    destruct (env_vocab env) as [e|lines scanErr]; [discriminate|].
    cbn [loadVocab]. destruct scanErr as [e|]; [discriminate|].
    destruct (env_runtime env) as [[e|]|]; try discriminate.
    destruct (env_encoder env); [|discriminate].
    destruct (env_decoder env); [|discriminate].
    cbn [negb]. intros [= <-]. reflexivity. }
  assert (Hframes : forall waveform, 1600 <= len waveform ->
            len (Extract (NewMelFilterbank (FeaturesSize (config t)) 16000) waveform)
            = (len waveform - 400) / 160 + 1 /\
            8 <= (len waveform - 400) / 160 + 1).
  { intros waveform Hlen. split; [apply Extract_frames_full; lia|].
    assert (7 <= (len waveform - 400) / 160) by (apply Z.div_le_lower_bound; lia). lia. }
  unfold Transcribe. rewrite Hmel. split.
  - destruct (loadAudio audioData format) as [waveform|e|p|]; try discriminate.
    destruct (Z.ltb_spec (len waveform) 1600) as [|Hlen]; [discriminate|].
    destruct (Hframes waveform Hlen) as [Hf H8]. rewrite Hf.
    destruct (Z.eqb_spec ((len waveform - 400) / 160 + 1) 0) as [|_]; [lia|].
    destruct (runInference fuel t _); discriminate.
  - intros waveform Hload Hlen. rewrite Hload.
    destruct (Z.ltb_spec (len waveform) 1600) as [|_]; [lia|].
    destruct (Hframes waveform Hlen) as [Hf H8].
    eexists. split; [reflexivity|]. rewrite Hf. split; [reflexivity|]. split; [exact H8|].
    destruct (Z.eqb_spec ((len waveform - 400) / 160 + 1) 0) as [|_]; [lia|]. reflexivity.
Qed.
End ConstructorFacts.

Lemma X7_witness :
  exists t : @Transcriber IEEE.ops,
    @NewTranscriber IEEE.ops Double.math "models" startEnv = Ok t /\
    modelsDir t = "models"%string /\ maxTokensPerStep t = 10.
Proof.
  eexists. split; [reflexivity|].
  destruct (X7_NewTranscriber_invariant (H0 := Double.math) "models" startEnv _ eq_refl)
    as (Hd & Hm & _).
  split; [exact Hd|exact Hm].
Defined.

Lemma X8_witness :
  exists t : @Transcriber IEEE.ops,
    @NewTranscriber IEEE.ops Double.math "models" startEnv = Ok t /\
    @Transcribe IEEE.ops Double.math Double.text Double.runtime 0 t wav45 ".wav" "en"
    <> Err ErrNoFeatures.
Proof.
  eexists. split; [reflexivity|].
  exact (proj1 (X8_Transcribe_always_has_features (H0 := Double.math)
                  (H1 := Double.text) (H2 := Double.runtime)
                  "models" startEnv _ 0 wav45 ".wav" "en" eq_refl)).
Defined.

(** ** What the decoding loop keeps *)

Lemma copy_length {A : Type} (dst src : list A) : length (copy dst src) = length dst.
Proof. unfold copy. rewrite length_app, length_take, length_drop. lia. Qed.

Section LoopFacts.
Context `{FloatOps} `{!Runtime}.
Variable t : Transcriber.
Variables (encoderOut : list float32) (encoderDim encodedLen : Z).

(** The token an iteration picks is an index into the vocabulary logits. *)
Lemma decodeAt_token_bound (st : LoopState) (token step : Z) (out : DecoderOut) :
  decodeAt t encoderOut encoderDim encodedLen st = Ok (token, step, out) ->
  0 <= token <= Z.max 0 (vocabSize t - 1).
Proof.
  unfold decodeAt.
  destruct (encoderColumn _ _ _ _) as [col| | |]; try discriminate. cbn.
  destruct (runDecoder _ _ _ _ _ _) as [e|o]; try discriminate. cbn.
  destruct (slice (dec_outputs o) 0 _) as [vl| | |] eqn:Evl; try discriminate. cbn.
  destruct (slice (dec_outputs o) (vocabSize t) _) as [dl| | |]; try discriminate. cbn.
  intros [= <- <- <-]. apply slice_len in Evl.
  pose proof (argmax_bounds vl). lia.
Qed.

Lemma advance_keeps (token step : Z) (st : LoopState) :
  state1 (advance t token step st) = state1 st /\
  state2 (advance t token step st) = state2 st /\
  prevToken (advance t token step st) = prevToken st /\
  tokens (advance t token step st) = tokens st.
Proof.
  unfold advance. destruct (step >? 0); [repeat split|].
  destruct (_ || _); repeat split.
Qed.

Lemma tdtStep_keeps (st st' : LoopState) :
  loopKeeps t st ->
  tdtStep t encoderOut encoderDim encodedLen st = Ok st' ->
  loopKeeps t st' /\ (length (tokens st') <= S (length (tokens st)))%nat.
Proof.
  intros (H1 & H2 & Hp & Ht) Hstep. unfold tdtStep in Hstep.
  destruct (decodeAt _ _ _ _ _) as [[[token step] out]| | |] eqn:Hdec; try discriminate.
  cbn in Hstep. injection Hstep as <-.
  pose proof (decodeAt_token_bound _ _ _ _ Hdec) as Hb.
  destruct (advance_keeps token step (emit t token out st)) as (E1 & E2 & Ep & Et).
  unfold loopKeeps. rewrite E1, E2, Ep, Et. unfold emit.
  destruct (Z.eqb_spec token (blankIdx t)) as [Heq|Hne]; cbn [negb].
  - repeat split; try assumption. lia.
  - cbn [state1 state2 prevToken tokens]. rewrite !copy_length, last_snoc, length_app.
    repeat split; try assumption.
    + apply Forall_app. split; [exact Ht|]. repeat constructor; [exact Hne|lia|lia].
    + cbn. lia.
Qed.

Lemma tdtLoop_keeps (fuel : nat) :
  forall st : LoopState,
    loopKeeps t st ->
    let r := tdtLoop fuel t encoderOut encoderDim encodedLen st in
    Forall (loopKeeps t) (loopHeads r) /\
    (forall s, snd r = Ok s ->
       (length (tokens s) <= length (tokens st) + length (fst r))%nat).
Proof.
  induction fuel as [|fuel IH]; intros st Hk; cbn zeta; rewrite tdtLoop_unfold.
  - destruct (timestep st <? encodedLen); unfold loopHeads; cbn [fst snd app].
    + split; [constructor|discriminate].
    + split; [constructor; [exact Hk|constructor]|]. intros s [= <-]. lia.
  - destruct (timestep st <? encodedLen); unfold loopHeads; cbn [fst snd app].
    2:{ split; [constructor; [exact Hk|constructor]|]. intros s [= <-]. lia. }
    destruct (tdtStep t encoderOut encoderDim encodedLen st) as [st'|e|p|] eqn:Hstep;
      cbn [fst snd app]; try (split; [constructor; [exact Hk|constructor]|discriminate]).
    destruct (tdtStep_keeps _ _ Hk Hstep) as [Hk' Hlen].
    specialize (IH st' Hk'). cbn zeta in IH.
    destruct (tdtLoop fuel t encoderOut encoderDim encodedLen st') as [trace r].
    unfold loopHeads in IH. cbn [fst snd] in *. destruct IH as [Hall Htok].
    split; [constructor; assumption|].
    intros s Hs. specialize (Htok s Hs). cbn [length]. lia.
Qed.

Lemma tdtInit_keeps : loopKeeps t (tdtInit t).
Proof. unfold loopKeeps, tdtInit. cbn. repeat split. constructor. Qed.

(** X9: at every test of the decoding loop, whatever the runtime
    returns, both state buffers have 1280 entries, the previous token is
    the last emitted token (the blank index before the first), and every
    emitted token is an argmax index of the vocabulary logits different
    from the blank index. *)
Theorem X9_loop_keeps_states_and_tokens (fuel : nat) (st : LoopState) :
  st ∈ loopHeads (tdtLoop fuel t encoderOut encoderDim encodedLen (tdtInit t)) ->
  loopKeeps t st.
Proof.
  intros Hin.
  destruct (tdtLoop_keeps fuel (tdtInit t) tdtInit_keeps) as [Hall _].
  cbn zeta in Hall. rewrite Forall_forall in Hall. now apply Hall.
Qed.

(** X10: the tokens [tdtDecode] returns are never the blank index, are
    indices into the vocabulary logits, and there is at most one per
    iteration: at most [10 * T'] of them for an encoder length [T']. *)
Theorem X10_tdtDecode_tokens (fuel : nat) (toks : list Z) :
  DecoderShape ->
  0 <= vocabSize t ->
  maxTokensPerStep t = 10 ->
  0 <= encodedLen <= max_int64 - 4 ->
  (Z.to_nat (10 * encodedLen) <= fuel)%nat ->
  tdtDecode fuel t encoderOut encoderDim encodedLen = Ok toks ->
  len toks <= 10 * encodedLen /\
  Forall (fun tok => tok <> blankIdx t /\ 0 <= tok <= Z.max 0 (vocabSize t - 1)) toks.
Proof.
  intros Hshape Hvs Hmax Hlen Hfuel. unfold tdtDecode.
  destruct (tdtLoop_keeps fuel (tdtInit t) tdtInit_keeps) as [Hall Hcount].
  cbn zeta in Hall, Hcount.
  assert (Hinv : loopInv t (tdtInit t)) by (unfold loopInv, tdtInit; cbn; lia).
  assert (Hm : loopMeasure t encodedLen (tdtInit t) = 10 * encodedLen)
    by (unfold loopMeasure, tdtInit; cbn; lia).
  destruct (tdtLoop_fuel t encoderOut encoderDim encodedLen Hshape Hvs ltac:(lia)
              ltac:(lia) fuel (tdtInit t) Hinv ltac:(lia)) as [_ Hiter].
  destruct (tdtLoop fuel t encoderOut encoderDim encodedLen (tdtInit t)) as [trace r].
  cbn [fst snd] in *. destruct r as [s| | |]; try discriminate.
  cbn. intros [= <-]. specialize (Hcount s eq_refl). cbn in Hcount.
  rewrite Hm in Hiter. split.
  - unfold len. lia.
  - unfold loopHeads in Hall. cbn [fst snd] in Hall.
    apply Forall_app in Hall as [_ Hs]. apply Forall_inv in Hs. apply Hs.
Qed.
End LoopFacts.

Lemma X9_witness : loopKeeps Double.transcriber (tdtInit Double.transcriber).
Proof.
  apply (X9_loop_keeps_states_and_tokens (H0 := Double.runtime)
           Double.transcriber [] 1024 0 0 (tdtInit Double.transcriber)).
  apply list_elem_of_In. left. reflexivity.
Defined.

Lemma X10_witness :
  len (repeat 0 30) <= 10 * 3 /\
  Forall (fun tok => tok <> blankIdx Double.transcriber /\
                     0 <= tok <= Z.max 0 (vocabSize Double.transcriber - 1))
         (repeat 0 30).
Proof.
  apply (X10_tdtDecode_tokens (H0 := Double.runtime) Double.transcriber [] 1024 3 30
           (repeat 0 30) Double_runtime_shape).
  - simpl. lia.
  - reflexivity.
  - unfold max_int64. lia.
  - simpl. lia.
  - vm_compute. reflexivity.
Defined.

(** ** The tensors handed to the runtime *)

Lemma mapM_Ok_map {A B : Type} (f : A -> Res B) (g : A -> B) (l : list A) :
  Forall (fun a => f a = Ok (g a)) l -> mapM f l = Ok (map g l).
Proof.
  induction 1 as [|a l Ha _ IH]; [reflexivity|].
  change (mapM f (a :: l)) with (f a ≫= fun y => mapM f l ≫= fun k => Ok (y :: k)).
  rewrite Ha. cbn [mbind Res_bind]. rewrite IH. reflexivity.
Qed.

Lemma index_nth {A : Type} (l : list A) (i : Z) (d : A) :
  0 <= i < len l -> index l i = Ok (nth (Z.to_nat i) l d).
Proof.
  intros Hi. unfold index.
  destruct (Z.leb_spec 0 i); [|lia]. destruct (Z.ltb_spec i (len l)); [|lia]. cbn [andb].
  destruct (l !! Z.to_nat i) as [x|] eqn:Hx.
  - f_equal. symmetry. now apply nth_lookup_Some.
  - apply lookup_ge_None in Hx. unfold len in *. lia.
Qed.

Lemma for_lt_ind {S : Type} (P : Z -> S -> Prop) (body : Z -> S -> S) (fuel : nat) :
  forall (i hi : Z) (s : S),
    i <= hi -> (Z.to_nat (hi - i) <= fuel)%nat ->
    P i s ->
    (forall j x, i <= j < hi -> P j x -> P (j + 1) (body j x)) ->
    P hi (for_lt fuel i hi 1 body s).
Proof.
  induction fuel as [|fuel IH]; intros i hi s Hle Hfuel Hs Hbody; cbn [for_lt].
  - replace hi with i by lia. exact Hs.
  - destruct (Z.ltb_spec i hi) as [Hlt|Hge].
    + apply IH; [lia|lia|apply Hbody; [lia|exact Hs]|].
      intros j x Hj. apply Hbody. lia.
    + replace hi with i by lia. exact Hs.
Qed.

Lemma for_range_ind {S : Type} (P : Z -> S -> Prop) (body : Z -> S -> S)
    (lo hi : Z) (s : S) :
  lo <= hi -> P lo s ->
  (forall j x, lo <= j < hi -> P j x -> P (j + 1) (body j x)) ->
  P hi (for_range lo hi body s).
Proof. intros Hle Hs Hbody. unfold for_range. now apply for_lt_ind. Qed.

Section TensorFacts.
Context `{FloatOps}.

(** X11: for a time step and an encoder length that are not negative
    and small enough for the index not to wrap, the encoder column is
    read without any panic: entry [d] is [encoderOut[d*encodedLen + t]],
    and zero wherever that index lies beyond the buffer. *)
Theorem X11_encoderColumn_reads (encoderOut : list float32)
    (encoderDim encodedLen ts : Z) :
  0 <= ts -> 0 <= encodedLen -> 0 <= encoderDim ->
  encoderDim * encodedLen + ts <= max_int64 ->
  encoderColumn encoderOut encoderDim encodedLen ts
  = Ok (map (fun d => nth (Z.to_nat (d * encodedLen + ts)) encoderOut f32_zero)
            (seqZ 0 encoderDim)).
Proof.
  intros Hts Hlen Hdim Hmax. unfold encoderColumn. apply mapM_Ok_map.
  apply Forall_forall. intros d Hd. apply elem_of_seqZ in Hd.
  assert (Hidx : 0 <= d * encodedLen + ts <= max_int64) by nia.
  rewrite to_int64_id by (unfold min_int64, max_int64 in *; lia).
  destruct (Z.ltb_spec (d * encodedLen + ts) (len encoderOut)) as [Hlt|Hge].
  - apply index_nth. lia.
  - f_equal. symmetry. apply nth_overflow. unfold len in Hge. lia.
Qed.

(** X12: the input tensor has [numFeatures * numFrames] entries, and
    entry [m * numFrames + f] is [features[f][m]], zero where frame [f]
    has no entry [m]: the frame-major features are stored band by band. *)
Theorem X12_transposeFeatures_layout (features : list (list float32))
    (numFeatures : Z) :
  0 <= numFeatures ->
  let numFrames := len features in
  let inputData := transposeFeatures features numFeatures numFrames in
  len inputData = numFeatures * numFrames /\
  forall f m, 0 <= f < numFrames -> 0 <= m < numFeatures ->
    nth (Z.to_nat (m * numFrames + f)) inputData f32_zero
    = at32 (nth (Z.to_nat f) features []) m.
Proof.
  intros HN numFrames inputData.
  pose proof (len_nonneg features) as HF. fold numFrames in HF.
  set (T := fun f m : Z => at32 (nth (Z.to_nat f) features []) m).
  set (P := fun (k : Z) (s : list float32) =>
              len s = numFeatures * numFrames /\
              forall f m, 0 <= f < numFrames -> 0 <= m < numFeatures ->
                nth (Z.to_nat (m * numFrames + f)) s f32_zero
                = if f <? k then T f m else f32_zero).
  assert (Hend : P numFrames inputData).
  { unfold inputData, transposeFeatures. apply for_range_ind; [lia| |].
    - split.
      + unfold len. rewrite repeat_length. nia.
      + intros f m Hf Hm. destruct (Z.ltb_spec f 0); [lia|]. apply nth_repeat.
    - intros k s Hk [Hlen Hs].
      set (row := nth (Z.to_nat k) features []).
      set (Q := fun (j : Z) (x : list float32) =>
                  len x = numFeatures * numFrames /\
                  forall f m, 0 <= f < numFrames -> 0 <= m < numFeatures ->
                    nth (Z.to_nat (m * numFrames + f)) x f32_zero
                    = if f <? k then T f m
                      else if (f =? k) && (m <? j) then T k m else f32_zero).
      assert (Hinner : Q (Z.min numFeatures (len row))
                         (for_range 0 (Z.min numFeatures (len row))
                            (fun m x => <[Z.to_nat (m * numFrames + k) := at32 row m]> x) s)).
      { pose proof (len_nonneg row). apply for_range_ind; [lia| |].
        - split; [exact Hlen|]. intros f m Hf Hm. rewrite (Hs f m Hf Hm).
          destruct (f <? k); [reflexivity|].
          destruct (Z.ltb_spec m 0); [lia|]. now rewrite andb_false_r.
        - intros j x Hj [Hxl Hx]. split.
          + unfold len in *. now rewrite length_insert.
          + intros f m Hf Hm.
            destruct (Z.eq_dec (m * numFrames + f) (j * numFrames + k)) as [Heq|Hne].
            * assert (m = j) by (destruct (Z.lt_trichotomy m j) as [|[|]]; nia).
              assert (f = k) by nia. subst m f.
              rewrite nth_lookup, list_lookup_insert_eq
                by (unfold len in Hxl; nia).
              cbn. destruct (Z.ltb_spec k k); [lia|].
              rewrite Z.eqb_refl. destruct (Z.ltb_spec j (j + 1)); [|lia]. reflexivity.
            * rewrite nth_lookup, list_lookup_insert_ne by lia.
              rewrite <- nth_lookup, (Hx f m Hf Hm).
              destruct (f <? k); [reflexivity|].
              destruct (Z.eqb_spec f k) as [->|]; [|reflexivity]. cbn [andb].
              assert (m <> j) by (intros ->; lia).
              destruct (Z.ltb_spec m j), (Z.ltb_spec m (j + 1)); try lia; reflexivity. }
      destruct Hinner as [Hl Hq]. split; [exact Hl|].
      intros f m Hf Hm. rewrite (Hq f m Hf Hm).
      destruct (Z.ltb_spec f k), (Z.ltb_spec f (k + 1)); try lia; try reflexivity.
      + assert (f = k) by lia. subst f. rewrite Z.eqb_refl. cbn [andb].
        destruct (Z.ltb_spec m (Z.min numFeatures (len row))); [reflexivity|].
        unfold T. fold row. unfold at32. symmetry. apply nth_overflow.
        unfold len in *. lia.
      + destruct (Z.eqb_spec f k); [lia|]. reflexivity. }
  destruct Hend as [Hl Hs]. split; [exact Hl|].
  intros f m Hf Hm. rewrite (Hs f m Hf Hm).
  destruct (Z.ltb_spec f numFrames); [reflexivity|lia].
Qed.
End TensorFacts.

Lemma X11_witness :
  @encoderColumn IEEE.ops [S754_zero false; S754_zero true] 2 2 1
  = Ok [S754_zero true; S754_zero false].
Proof.
  apply (X11_encoderColumn_reads (H := IEEE.ops) [S754_zero false; S754_zero true] 2 2 1);
    unfold max_int64; lia.
Defined.

Lemma X12_witness :
  len (@transposeFeatures IEEE.ops [[S754_zero false; S754_zero true]] 2 1) = 2 * 1.
Proof.
  apply (X12_transposeFeatures_layout (H := IEEE.ops) [[S754_zero false; S754_zero true]] 2).
  lia.
Defined.

(** ** The argmax *)

(** The running maximum of the scan: it is the entry at the running
    index, no entry seen so far is larger, and every entry before the
    running index is smaller. *)
Lemma argmax_fold_exact (data : list R) :
  forall (l pre : list R) (mi : Z) (mv : R),
    data = pre ++ l ->
    0 <= mi < len data -> nth (Z.to_nat mi) data 0%R = mv ->
    (forall j, 0 <= j < len pre -> (nth (Z.to_nat j) data 0 <= mv)%R) ->
    (forall j, 0 <= j < mi -> (nth (Z.to_nat j) data 0 < mv)%R) ->
    let r := fold_left
               (fun '(maxIdx, maxVal, i) v =>
                  if @f32_gt Exact.ops v maxVal then (i, v, i + 1)
                  else (maxIdx, maxVal, i + 1))
               l (mi, mv, len pre) in
    0 <= fst (fst r) < len data /\
    nth (Z.to_nat (fst (fst r))) data 0%R = snd (fst r) /\
    (forall j, 0 <= j < len data -> (nth (Z.to_nat j) data 0 <= snd (fst r))%R) /\
    (forall j, 0 <= j < fst (fst r) -> (nth (Z.to_nat j) data 0 < snd (fst r))%R).
Proof.
  induction l as [|v l IH]; intros pre mi mv Hdata Hmi Hnth Hle Hlt; cbn zeta.
  - cbn [fold_left fst snd]. rewrite app_nil_r in Hdata. subst pre. auto.
  - cbn [fold_left].
    assert (Hv : nth (Z.to_nat (len pre)) data 0%R = v).
    { rewrite Hdata. unfold len. rewrite Nat2Z.id, app_nth2, Nat.sub_diag by lia.
      reflexivity. }
    assert (Hlen : len (pre ++ [v]) = len pre + 1)
      by (unfold len; rewrite length_app; cbn; lia).
    assert (Hdata' : data = (pre ++ [v]) ++ l) by (now rewrite <- app_assoc).
    assert (Hpos : 0 <= len pre < len data).
    { rewrite Hdata. unfold len. rewrite length_app. cbn. lia. }
    cbn [f32_gt Exact.ops]. unfold Exact.ltb.
    destruct (Rlt_dec mv v) as [Hgt|Hngt]; rewrite <- Hlen; apply IH; try exact Hdata';
      try exact Hv; try exact Hnth; try lia.
    + rewrite Hlen. intros j Hj.
      destruct (Z.eq_dec j (len pre)) as [->|]; [rewrite Hv; lra|].
      specialize (Hle j ltac:(lia)). lra.
    + intros j Hj. specialize (Hle j ltac:(lia)). lra.
    + rewrite Hlen. intros j Hj.
      destruct (Z.eq_dec j (len pre)) as [->|]; [rewrite Hv; lra|].
      apply Hle. lia.
    + exact Hlt.
Qed.



(** X14: under IEEE-754 comparison a NaN is never preferred: the
    argmax of a slice that starts with a NaN is 0 whatever follows, and
    when the first entry is not a NaN the entry at the argmax is none. *)
Theorem X14_argmax_and_NaN (d0 : spec_float) (l : list spec_float) :
  (d0 = S754_nan -> @argmax IEEE.ops (d0 :: l) = 0) /\
  (d0 <> S754_nan ->
   nth (Z.to_nat (@argmax IEEE.ops (d0 :: l))) (d0 :: l) S754_nan <> S754_nan).
Proof.
  set (f := fun '(maxIdx, maxVal, i) (v : spec_float) =>
              if SFltb maxVal v then (i, v, i + 1) else (maxIdx, maxVal, (i + 1)%Z)).
  assert (Hnan : forall (l : list spec_float) (mi i : Z),
             fst (fst (fold_left f l (mi, S754_nan, i))) = mi).
  { intros l0. induction l0 as [|v l0 IH]; intros mi i; [reflexivity|].
    cbn [fold_left f]. change (SFltb S754_nan v) with false. cbv iota. apply IH. }
  assert (Hfin : forall (l pre : list spec_float) (mi : Z) (mv : spec_float),
             mv <> S754_nan ->
             nth (Z.to_nat mi) (pre ++ l) S754_nan = mv ->
             let r := fold_left f l (mi, mv, len pre) in
             nth (Z.to_nat (fst (fst r))) (pre ++ l) S754_nan <> S754_nan).
  { intros l0. induction l0 as [|v l0 IH]; intros pre mi mv Hmv Hnth; cbn zeta.
    - cbn [fold_left fst]. now rewrite Hnth.
    - cbn [fold_left f].
      assert (Hlen : len (pre ++ [v]) = len pre + 1)
        by (unfold len; rewrite length_app; cbn; lia).
      assert (Happ : pre ++ v :: l0 = (pre ++ [v]) ++ l0) by (now rewrite <- app_assoc).
      destruct (SFltb mv v) eqn:Hlt; rewrite <- Hlen, Happ; apply IH.
      + intros ->. destruct mv; discriminate.
      + rewrite <- Happ. unfold len. rewrite Nat2Z.id, app_nth2, Nat.sub_diag by lia.
        reflexivity.
      + exact Hmv.
      + now rewrite <- Happ. }
  split.
  - intros ->. unfold argmax. cbn [f32_gt IEEE.ops]. apply (Hnan (S754_nan :: l) 0 0).
  - intros Hd. unfold argmax. cbn [f32_gt IEEE.ops].
    apply (Hfin (d0 :: l) [] 0 d0 Hd). reflexivity.
Qed.

(** ** From tokens to text *)

Section TextFacts.
Context `{FloatOps} `{!TextLib}.

Lemma parts_fold (t : Transcriber) (toks : list Z) (acc : list string) :
  fold_left (fun parts tok =>
               match vocab t !! tok with
               | Some text => if isSpecial text then parts else parts ++ [text]
               | None => parts
               end) toks acc
  = acc ++ omap (tokenPiece t) toks.
Proof.
  revert acc. induction toks as [|tok toks IH]; intros acc.
  - cbn. now rewrite app_nil_r.
  - cbn [fold_left]. rewrite IH.
    change (omap (tokenPiece t) (tok :: toks))
      with (match tokenPiece t tok with
            | Some y => y :: omap (tokenPiece t) toks
            | None => omap (tokenPiece t) toks
            end).
    unfold tokenPiece at 2. destruct (vocab t !! tok) as [text|]; [|reflexivity].
    destruct (isSpecial text); [reflexivity|]. now rewrite <- app_assoc.
Qed.

Lemma omap_filter_is_Some {A B : Type} (h : A -> option B) (l : list A) :
  omap h (List.filter (fun a => match h a with Some _ => true | None => false end) l)
  = omap h l.
Proof.
  induction l as [|a l IH]; [reflexivity|]. cbn [List.filter].
  change (omap h (a :: l))
    with (match h a with Some y => y :: omap h l | None => omap h l end).
  destruct (h a) as [y|] eqn:Ha; [|exact IH].
  change (omap h (a :: ?k))
    with (match h a with Some y => y :: omap h k | None => omap h k end).
  rewrite Ha. now f_equal.
Qed.

(** X15: the text depends only on the pieces of the tokens, in order:
    a token without a vocabulary entry and a token whose entry starts
    with [<] and ends with [>] (the blank, for one) contribute nothing,
    so that dropping them from the token list changes nothing, and a
    token list made of such tokens reads as the empty list does. *)
Theorem X15_tokensToText_skips (t : Transcriber) (toks : list Z) :
  tokensToText t toks
  = tokensToText t
      (List.filter (fun tok => match tokenPiece t tok with
                               | Some _ => true | None => false end) toks) /\
  (omap (tokenPiece t) toks = [] -> tokensToText t toks = tokensToText t []) /\
  (forall toks', omap (tokenPiece t) toks = omap (tokenPiece t) toks' ->
                 tokensToText t toks = tokensToText t toks').
Proof.
  assert (Heq : forall a b, omap (tokenPiece t) a = omap (tokenPiece t) b ->
                            tokensToText t a = tokensToText t b).
  { intros a b Hab. unfold tokensToText. cbv zeta. rewrite !parts_fold, Hab. reflexivity. }
  split; [|split].
  - apply Heq. symmetry. apply omap_filter_is_Some.
  - intros Hnil. apply Heq. rewrite Hnil. reflexivity.
  - intros toks'. apply Heq.
Qed.
End TextFacts.

(** ** Bit reversal and the length of the transform *)

Lemma reverseBits_loop_testbit (k : nat) :
  forall (n r j : Z),
    0 <= j ->
    Z.testbit (reverseBits_loop k n r) j
    = if j <? Z.of_nat k then Z.testbit n (Z.of_nat k - 1 - j)
      else Z.testbit r (j - Z.of_nat k).
Proof.
  induction k as [|k IH]; intros n r j Hj.
  - cbn [reverseBits_loop]. destruct (Z.ltb_spec j (Z.of_nat 0)); [lia|].
    f_equal. lia.
  - cbn [reverseBits_loop]. rewrite IH by lia.
    destruct (Z.ltb_spec j (Z.of_nat k)) as [Hlt|Hge].
    + destruct (Z.ltb_spec j (Z.of_nat (S k))); [|lia].
      rewrite Z.shiftr_spec by lia. f_equal. lia.
    + rewrite Z.lor_spec.
      destruct (Z.eq_dec j (Z.of_nat k)) as [->|Hne].
      * destruct (Z.ltb_spec (Z.of_nat k) (Z.of_nat (S k))); [|lia].
        rewrite Z.sub_diag, Z.shiftl_spec_low, Z.land_spec by lia. cbn [orb].
        replace (Z.of_nat (S k) - 1 - Z.of_nat k) with 0 by lia.
        change (Z.testbit 1 0) with true. now rewrite andb_true_r.
      * destruct (Z.ltb_spec j (Z.of_nat (S k))); [lia|].
        rewrite Z.shiftl_spec, Z.land_spec by lia.
        change 1 with (2 ^ 0) at 2. rewrite Z.pow2_bits_eqb by lia.
        destruct (Z.eqb_spec 0 (j - Z.of_nat k)); [lia|].
        rewrite andb_false_r, orb_false_r. f_equal. lia.
Qed.

Lemma reverseBits_testbit (n bits j : Z) :
  0 <= bits -> 0 <= j ->
  Z.testbit (reverseBits n bits) j
  = if j <? bits then Z.testbit n (bits - 1 - j) else false.
Proof.
  intros Hb Hj. unfold reverseBits. rewrite reverseBits_loop_testbit by lia.
  rewrite Z2Nat.id by lia. destruct (j <? bits); [reflexivity|apply Z.bits_0].
Qed.

Lemma testbit_high (n bits j : Z) :
  0 <= n < 2 ^ bits -> bits <= j -> Z.testbit n j = false.
Proof.
  intros Hn Hj. destruct (Z.eq_dec n 0) as [->|Hnz]; [apply Z.bits_0|].
  apply Z.bits_above_log2; [lia|].
  assert (Z.log2 n < bits) by (apply Z.log2_lt_pow2; lia). lia.
Qed.



Lemma padLoop_power (fuel : nat) :
  forall (p n j : Z),
    0 <= j -> p = 2 ^ j -> (Z.to_nat (n - p) <= fuel)%nat ->
    exists k, j <= k /\ padLoop fuel p n = 2 ^ k /\ n <= 2 ^ k /\
              (k = j \/ 2 ^ (k - 1) < n).
Proof.
  induction fuel as [|fuel IH]; intros p n j Hj Hp Hfuel; cbn [padLoop].
  - exists j. repeat split; lia.
  - assert (Hpos : 1 <= p) by (subst p; pose proof (Z.pow_pos_nonneg 2 j); lia).
    destruct (Z.ltb_spec p n) as [Hlt|Hge].
    + destruct (IH (p * 2) n (j + 1)) as (k & Hk & Hr & Hn & Hmin); try lia.
      { subst p. rewrite Z.pow_add_r by lia. reflexivity. }
      exists k. repeat split; try lia. right.
      destruct Hmin as [->|]; [|assumption].
      replace (j + 1 - 1) with j by lia. lia.
    + exists j. repeat split; lia.
Qed.

Section FftShape.
Context `{MathLib}.

Lemma setc_length (x : list complex128) (i : Z) (v : complex128) :
  length (setc x i v) = length x.
Proof. unfold setc. apply length_insert. Qed.

Lemma butterfly_length (step : float64) (half i j : Z) (x : list complex128) :
  length (butterfly step half i j x) = length x.
Proof. unfold butterfly. cbv zeta. now rewrite !setc_length. Qed.

Lemma fftStages_length (fuel : nat) :
  forall (size paddedLen : Z) (x : list complex128),
    length (fftStages fuel size paddedLen x) = length x.
Proof.
  induction fuel as [|fuel IH]; intros size paddedLen x; cbn [fftStages]; [reflexivity|].
  destruct (size <=? paddedLen); [|reflexivity]. cbv zeta. rewrite IH.
  apply (for_lt_invariant (fun y => length y = length x)); [|reflexivity].
  intros i y Hy. apply (for_range_invariant (fun z => length z = length x)); [|exact Hy].
  intros j z Hz. now rewrite butterfly_length.
Qed.

(** X17: the transform of an empty signal is empty, and the transform
    of [n >= 1] values has [2^k] entries for the least [k] with
    [n <= 2^k]: 512 values give 512 entries. *)
Theorem X17_fft_length (signal : list float64) :
  fft [] = [] /\
  (signal <> [] ->
   exists k, 0 <= k /\ len (fft signal) = 2 ^ k /\ len signal <= 2 ^ k /\
             (k = 0 \/ 2 ^ (k - 1) < len signal)).
Proof.
  split; [reflexivity|]. intros Hne. unfold fft.
  assert (Hn : 1 <= len signal) by (unfold len; destruct signal; [contradiction|cbn; lia]).
  destruct (Z.eqb_spec (len signal) 0) as [|_]; [lia|]. cbv zeta.
  destruct (padLoop_power (length signal) 1 (len signal) 0) as (k & Hk & Hr & Hle & Hmin);
    [lia|reflexivity|unfold len; lia|].
  exists k. split; [exact Hk|]. split; [|split; [exact Hle|]].
  - unfold len at 1. rewrite fftStages_length.
    rewrite (for_range_invariant
               (fun y : list complex128 => length y = Z.to_nat (padLoop (length signal) 1 (len signal)))).
    + rewrite Hr. apply Z2Nat.id. apply Z.pow_nonneg. lia.
    + intros i y Hy. destruct (i <? _); [|exact Hy]. now rewrite !setc_length.
    + rewrite length_app, length_map, repeat_length. unfold len in *. lia.
  - destruct Hmin as [->|Hmin]; [now left|right; lia].
Qed.
End FftShape.

Lemma X17_witness :
  exists k, 0 <= k /\
    len (@fft IEEE.ops Double.math (repeat (S754_zero false) 400)) = 2 ^ k /\
    len (repeat (S754_zero false) 400) <= 2 ^ k /\
    (k = 0 \/ 2 ^ (k - 1) < len (repeat (S754_zero false) 400)).
Proof.
  apply (proj2 (X17_fft_length (H0 := Double.math) (repeat (S754_zero false) 400))).
  discriminate.
Defined.

(** ** Normalization does not see a common offset *)

Lemma meanR_offset (c : R) (xs : list R) :
  xs <> [] -> meanR (map (fun x => (x + c)%R) xs) = (meanR xs + c)%R.
Proof.
  intros Hne. unfold meanR, len. rewrite length_map.
  pose proof (len_pos_IZR xs Hne) as Hpos. unfold len in Hpos.
  replace (map (fun x => (x + c)%R) xs) with (map (fun x => (x - (- c))%R) xs)
    by (apply map_ext; intros; lra).
  rewrite sumR_shift. unfold len. field. lra.
Qed.

Lemma varianceR_offset (c : R) (xs : list R) :
  xs <> [] -> varianceR (map (fun x => (x + c)%R) xs) = varianceR xs.
Proof.
  intros Hne. unfold varianceR. rewrite (meanR_offset c xs Hne), map_map.
  f_equal. apply map_ext. intros x. lra.
Qed.

Lemma band_offset (features : list (list R)) (n k : nat) (c : R) :
  Forall (fun row => length row = n) features -> (k < n)%nat ->
  band (map (map (fun x => (x + c)%R)) features) k
  = map (fun x => (x + c)%R) (band features k).
Proof.
  intros Hrect Hk. unfold band. rewrite !map_map. apply map_ext_Forall.
  eapply Forall_impl; [exact Hrect|]. intros row Hrow. cbn beta in Hrow.
  rewrite (nth_indep _ 0%R (0 + c)%R) by (rewrite length_map; lia).
  exact (map_nth (fun x => (x + c)%R) row 0%R k).
Qed.



(** ** The transform is the radix-2 recursion *)

Lemma for_lt_step_ind {St : Type} (P : Z -> St -> Prop) (body : Z -> St -> St)
    (step : Z) (fuel : nat) :
  0 < step ->
  forall (m : nat) (i : Z) (b0 : Z) (s : St),
    (m <= fuel)%nat ->
    P b0 s ->
    (forall b x, b0 <= b < b0 + Z.of_nat m -> P b x ->
                 P (b + 1) (body (i + (b - b0) * step) x)) ->
    P (b0 + Z.of_nat m) (for_lt fuel i (i + Z.of_nat m * step) step body s).
Proof.
  intros Hstep. induction fuel as [|fuel IH]; intros m i b0 s Hm Hs Hbody.
  - assert (m = 0%nat) by lia. subst m. cbn. now rewrite Z.add_0_r.
  - cbn [for_lt]. destruct m as [|m].
    + destruct (Z.ltb_spec i (i + Z.of_nat 0 * step)); [lia|]. now rewrite Z.add_0_r.
    + destruct (Z.ltb_spec i (i + Z.of_nat (S m) * step)) as [_|Hge]; [|nia].
      replace (i + Z.of_nat (S m) * step) with ((i + step) + Z.of_nat m * step) by lia.
      replace (b0 + Z.of_nat (S m)) with ((b0 + 1) + Z.of_nat m) by lia.
      apply IH; [lia| |].
      * specialize (Hbody b0 s ltac:(lia) Hs).
        replace (i + (b0 - b0) * step) with i in Hbody by lia. exact Hbody.
      * intros b x Hb Hx. specialize (Hbody b x ltac:(lia) Hx).
        replace (i + step + (b - (b0 + 1)) * step) with (i + (b - b0) * step) by lia.
        exact Hbody.
Qed.

Section PassFacts.
Context `{MathLib}.

Lemma atc_setc (z : list complex128) (q p : Z) (v : complex128) :
  0 <= q < len z -> 0 <= p ->
  atc (setc z q v) p = if p =? q then v else atc z p.
Proof.
  intros Hq Hp. unfold atc, setc. destruct (Z.eqb_spec p q) as [->|Hne].
  - rewrite nth_lookup, list_lookup_insert_eq by (unfold len in Hq; lia). reflexivity.
  - rewrite !nth_lookup, list_lookup_insert_ne by lia. reflexivity.
Qed.

Lemma len_setc (z : list complex128) (q : Z) (v : complex128) :
  len (setc z q v) = len z.
Proof. unfold len. now rewrite setc_length. Qed.

(** One butterfly on a slice whose two entries still hold the values of
    [x]. *)
Lemma butterfly_spec (h i j : Z) (x z : list complex128) (p : Z) :
  0 <= i -> 0 <= j < h -> i + 2 * h <= len z -> 0 <= p ->
  atc z (i + j) = atc x (i + j) ->
  atc z (i + j + h) = atc x (i + j + h) ->
  atc (butterfly (f64_div (f64_const (- math_Pi)) (f64_of_int h)) h i j z) p
  = if p =? i + j
    then c_add (atc x (i + j)) (c_mul (twiddle h j) (atc x (i + j + h)))
    else if p =? i + j + h
         then c_sub (atc x (i + j)) (c_mul (twiddle h j) (atc x (i + j + h)))
         else atc z p.
Proof.
  intros Hi Hj Hlen Hp Hlo Hhi. unfold butterfly. cbv zeta. fold (twiddle h j).
  rewrite atc_setc by (rewrite ?len_setc; lia).
  destruct (Z.eqb_spec p (i + j)) as [->|Hne].
  - rewrite atc_setc by lia. destruct (Z.eqb_spec (i + j) (i + j + h)); [lia|].
    now rewrite Hlo, Hhi.
  - rewrite atc_setc by lia. destruct (Z.eqb_spec p (i + j + h)); [|reflexivity].
    now rewrite Hlo, Hhi.
Qed.

Lemma passValue_low (h b r : Z) (x : list complex128) :
  0 <= r < h ->
  passValue h x (b * (2 * h) + r)
  = c_add (atc x (b * (2 * h) + r))
          (c_mul (twiddle h r) (atc x (b * (2 * h) + r + h))).
Proof.
  intros Hr. unfold passValue. cbv zeta.
  rewrite Z.add_comm, Z.mod_add, Z.mod_small by lia.
  destruct (Z.ltb_spec r h); [|lia]. now rewrite (Z.add_comm r).
Qed.

Lemma passValue_high (h b r : Z) (x : list complex128) :
  0 <= r < h ->
  passValue h x (b * (2 * h) + r + h)
  = c_sub (atc x (b * (2 * h) + r))
          (c_mul (twiddle h r) (atc x (b * (2 * h) + r + h))).
Proof.
  intros Hr.
  assert (Hmod : (b * (2 * h) + r + h) mod (2 * h) = r + h).
  { replace (b * (2 * h) + r + h) with ((r + h) + b * (2 * h)) by lia.
    rewrite Z.mod_add, Z.mod_small by lia. reflexivity. }
  unfold passValue. cbv zeta. rewrite Hmod.
  destruct (Z.ltb_spec (r + h) h); [lia|].
  f_equal; [f_equal; lia|]. f_equal. f_equal. lia.
Qed.

(** The butterflies of one block. *)
Lemma block_spec (h b : Z) (x y : list complex128) :
  1 <= h -> 0 <= b -> (b + 1) * (2 * h) <= len x -> len y = len x ->
  (forall p, 0 <= p < len x ->
     atc y p = if p <? b * (2 * h) then passValue h x p else atc x p) ->
  let y' := for_range 0 h
              (butterfly (f64_div (f64_const (- math_Pi)) (f64_of_int h)) h (b * (2 * h)))
              y in
  len y' = len x /\
  forall p, 0 <= p < len x ->
    atc y' p = if p <? (b + 1) * (2 * h) then passValue h x p else atc x p.
Proof.
  intros Hh Hb Hfit Hlen Hy. cbv zeta.
  set (i := b * (2 * h)).
  set (Q := fun (j : Z) (z : list complex128) =>
              len z = len x /\
              forall p, 0 <= p < len x ->
                atc z p = if (p <? i) || ((i <=? p) && (p <? i + j))
                             || ((i + h <=? p) && (p <? i + h + j))
                          then passValue h x p else atc x p).
  assert (Hend : Q h (for_range 0 h
                        (butterfly (f64_div (f64_const (- math_Pi)) (f64_of_int h)) h i) y)).
  { apply for_range_ind; [lia| |].
    - split; [exact Hlen|]. intros p Hp. rewrite (Hy p Hp). fold i.
      destruct (Z.ltb_spec p i); [reflexivity|].
      destruct (Z.leb_spec i p), (Z.ltb_spec p (i + 0)), (Z.leb_spec (i + h) p),
        (Z.ltb_spec p (i + h + 0)); try lia; reflexivity.
    - intros j z Hj [Hzl Hz]. split; [unfold len; now rewrite butterfly_length|].
      intros p Hp.
      assert (Hi0 : 0 <= i) by (unfold i; nia).
      assert (Hlo : atc z (i + j) = atc x (i + j)).
      { rewrite Hz by (unfold i in *; nia).
        destruct (Z.ltb_spec (i + j) i), (Z.leb_spec i (i + j)), (Z.ltb_spec (i + j) (i + j)),
          (Z.leb_spec (i + h) (i + j)), (Z.ltb_spec (i + j) (i + h + j)); try lia; reflexivity. }
      assert (Hhi : atc z (i + j + h) = atc x (i + j + h)).
      { rewrite Hz by (unfold i in *; nia).
        destruct (Z.ltb_spec (i + j + h) i), (Z.leb_spec i (i + j + h)),
          (Z.ltb_spec (i + j + h) (i + j)), (Z.leb_spec (i + h) (i + j + h)),
          (Z.ltb_spec (i + j + h) (i + h + j)); try lia; reflexivity. }
      rewrite (butterfly_spec h i j x z p) by (try assumption; unfold i in *; nia).
      destruct (Z.eqb_spec p (i + j)) as [->|Hne1].
      + unfold i. rewrite <- passValue_low by lia. fold i.
        destruct (Z.ltb_spec (i + j) i), (Z.leb_spec i (i + j)),
          (Z.ltb_spec (i + j) (i + (j + 1))); try lia; reflexivity.
      + destruct (Z.eqb_spec p (i + j + h)) as [->|Hne2].
        * unfold i. rewrite <- passValue_high by lia. fold i.
          destruct (Z.ltb_spec (i + j + h) i), (Z.leb_spec i (i + j + h)),
            (Z.ltb_spec (i + j + h) (i + (j + 1))), (Z.leb_spec (i + h) (i + j + h)),
            (Z.ltb_spec (i + j + h) (i + h + (j + 1))); try lia; reflexivity.
        * rewrite (Hz p Hp).
          destruct (Z.ltb_spec p i); [reflexivity|]. cbn [orb].
          destruct (Z.leb_spec i p), (Z.ltb_spec p (i + j)), (Z.ltb_spec p (i + (j + 1))),
            (Z.leb_spec (i + h) p), (Z.ltb_spec p (i + h + j)),
            (Z.ltb_spec p (i + h + (j + 1))); try lia; reflexivity. }
  destruct Hend as [Hl Hq]. split; [exact Hl|]. intros p Hp. rewrite (Hq p Hp).
  replace ((b + 1) * (2 * h)) with (i + 2 * h) by (unfold i; lia).
  destruct (Z.ltb_spec p i), (Z.leb_spec i p), (Z.ltb_spec p (i + h)),
    (Z.leb_spec (i + h) p), (Z.ltb_spec p (i + h + h)), (Z.ltb_spec p (i + 2 * h));
    try lia; reflexivity.
Qed.

(** A pass over a slice of [nb] blocks. *)
Lemma stagePass_spec (h nb : Z) (x : list complex128) :
  1 <= h -> 0 <= nb -> len x = nb * (2 * h) ->
  len (stagePass (2 * h) x) = len x /\
  forall p, 0 <= p < len x -> atc (stagePass (2 * h) x) p = passValue h x p.
Proof.
  intros Hh Hnb Hlen. unfold stagePass. cbv zeta.
  replace (Z.quot (2 * h) 2) with h by (rewrite Z.mul_comm, Z.quot_mul; lia).
  set (P := fun (b : Z) (y : list complex128) =>
              len y = len x /\
              forall p, 0 <= p < len x ->
                atc y p = if p <? b * (2 * h) then passValue h x p else atc x p).
  assert (Hend : P (0 + Z.of_nat (Z.to_nat nb))
                   (for_lt (Z.to_nat (len x)) 0 (0 + Z.of_nat (Z.to_nat nb) * (2 * h)) (2 * h)
                      (fun i y => for_range 0 h
                         (butterfly (f64_div (f64_const (- math_Pi)) (f64_of_int h)) h i) y)
                      x)).
  { apply for_lt_step_ind; [lia|rewrite Hlen; nia| |].
    - split; [reflexivity|]. intros p Hp. destruct (Z.ltb_spec p (0 * (2 * h))); [lia|].
      reflexivity.
    - intros b y Hb [Hyl Hy]. replace (0 + (b - 0) * (2 * h)) with (b * (2 * h)) by lia.
      apply block_spec; try assumption; try lia. rewrite Hlen. nia. }
  rewrite Z2Nat.id, !Z.add_0_l in Hend by lia. rewrite <- Hlen in Hend.
  destruct Hend as [Hl Hp]. split; [exact Hl|]. intros p Hpr. rewrite (Hp p Hpr).
  destruct (Z.ltb_spec p (nb * (2 * h))); [reflexivity|lia].
Qed.
End PassFacts.

Lemma nth_evens {A : Type} (d : A) (j : nat) :
  forall x : list A, nth j (evens x) d = nth (2 * j) x d.
Proof.
  induction j as [|j IH]; intros x.
  - destruct x as [|a [|b l]]; reflexivity.
  - replace (2 * S j)%nat with (S (S (2 * j))) by lia.
    destruct x as [|a [|b l]]; [reflexivity|destruct j; reflexivity|].
    cbn [evens nth]. apply IH.
Qed.

Lemma nth_odds {A : Type} (d : A) (j : nat) :
  forall x : list A, nth j (odds x) d = nth (2 * j + 1) x d.
Proof.
  induction j as [|j IH]; intros x.
  - destruct x as [|a [|b l]]; reflexivity.
  - replace (2 * S j + 1)%nat with (S (S (2 * j + 1))) by lia.
    destruct x as [|a [|b l]]; [reflexivity|destruct j; reflexivity|].
    cbn [odds nth]. apply IH.
Qed.

Lemma length_evens_odds {A : Type} (x : list A) (n : nat) :
  length x = (2 * n)%nat -> length (evens x) = n /\ length (odds x) = n.
Proof.
  revert x. induction n as [|n IH]; intros x Hx.
  - destruct x; [split; reflexivity|discriminate].
  - destruct x as [|a [|b l]]; try (cbn in Hx; lia).
    destruct (IH l) as [He Ho]; [cbn in Hx; lia|]. cbn. split; lia.
Qed.

Section RadixFacts.
Context `{MathLib}.

Lemma atc_ext (x y : list complex128) :
  len x = len y -> (forall p, 0 <= p < len x -> atc x p = atc y p) -> x = y.
Proof.
  intros Hlen Hp. apply (nth_ext _ _ c_zero c_zero); [unfold len in Hlen; lia|].
  intros n Hn. specialize (Hp (Z.of_nat n) ltac:(unfold len; lia)).
  unfold atc in Hp. now rewrite Nat2Z.id in Hp.
Qed.

Lemma atc_app_l (a b : list complex128) (p : Z) :
  0 <= p < len a -> atc (a ++ b) p = atc a p.
Proof. intros Hp. unfold atc. apply app_nth1. unfold len in Hp. lia. Qed.

Lemma atc_app_r (a b : list complex128) (p : Z) :
  len a <= p -> atc (a ++ b) p = atc b (p - len a).
Proof.
  intros Hp. unfold atc. unfold len in *. rewrite app_nth2 by lia. f_equal. lia.
Qed.

Lemma atc_map_seqZ (f : Z -> float64 * float64) (n p : Z) :
  0 <= p < n -> atc (map f (seqZ 0 n)) p = f p.
Proof.
  intros Hp. unfold atc. rewrite nth_lookup.
  change (map f (seqZ 0 n)) with (f <$> seqZ 0 n).
  rewrite list_lookup_fmap, lookup_seqZ_lt by lia. cbn. f_equal. lia.
Qed.

Lemma len_map_seqZ {A : Type} (f : Z -> A) (n : Z) :
  0 <= n -> len (map f (seqZ 0 n)) = n.
Proof. intros Hn. unfold len. rewrite length_map, length_seqZ. lia. Qed.

(** A pass does not mix two parts that are made of whole blocks. *)
Lemma stagePass_app (h na nb : Z) (a b : list complex128) :
  1 <= h -> 0 <= na -> 0 <= nb ->
  len a = na * (2 * h) -> len b = nb * (2 * h) ->
  stagePass (2 * h) (a ++ b) = stagePass (2 * h) a ++ stagePass (2 * h) b.
Proof.
  intros Hh Hna Hnb Ha Hb.
  destruct (stagePass_spec h na a Hh Hna Ha) as [Hla Hpa].
  destruct (stagePass_spec h nb b Hh Hnb Hb) as [Hlb Hpb].
  destruct (stagePass_spec h (na + nb) (a ++ b) Hh ltac:(lia)) as [Hl Hp];
    [rewrite len_app; lia|].
  apply atc_ext; [rewrite Hl, !len_app; lia|].
  intros p Hpr. rewrite Hl in Hpr. rewrite (Hp p Hpr). rewrite len_app in Hpr.
  pose proof (Z.mod_pos_bound p (2 * h) ltac:(lia)) as Hmod.
  pose proof (Z.div_mod p (2 * h) ltac:(lia)) as Hdm.
  destruct (Z.lt_ge_cases p (len a)) as [Hlt|Hge].
  - rewrite atc_app_l by lia. rewrite (Hpa p ltac:(lia)).
    assert (Hq : p / (2 * h) < na) by (apply Z.div_lt_upper_bound; lia).
    assert (Hq0 : 0 <= p / (2 * h)) by (apply Z.div_pos; lia).
    assert (Hblock : (2 * h) * (p / (2 * h)) + 2 * h <= len a) by nia.
    unfold passValue. cbv zeta.
    destruct (Z.ltb_spec (p mod (2 * h)) h).
    + rewrite !atc_app_l by lia. reflexivity.
    + rewrite !atc_app_l by lia. reflexivity.
  - rewrite atc_app_r by lia. rewrite Hla. rewrite (Hpb (p - len a) ltac:(lia)).
    assert (Hm : (p - len a) mod (2 * h) = p mod (2 * h)).
    { rewrite Ha. replace (p - na * (2 * h)) with (p + (- na) * (2 * h)) by lia.
      apply Z.mod_add. lia. }
    pose proof (Z.div_mod (p - len a) (2 * h) ltac:(lia)) as Hdm'.
    assert (Hq' : 0 <= (p - len a) / (2 * h)) by (apply Z.div_pos; lia).
    assert (Hlow : p mod (2 * h) <= p - len a).
    { rewrite <- Hm. apply Z.mod_le; lia. }
    unfold passValue. cbv zeta. rewrite Hm.
    destruct (Z.ltb_spec (p mod (2 * h)) h).
    + rewrite !atc_app_r by lia.
      replace (p + h - len a) with (p - len a + h) by lia. reflexivity.
    + rewrite !atc_app_r by lia.
      replace (p - h - len a) with (p - len a - h) by lia. reflexivity.
Qed.

(** The last pass joins the transforms of the two halves. *)
Lemma stagePass_join (h : Z) (e o : list complex128) :
  1 <= h -> len e = h -> len o = h ->
  stagePass (2 * h) (e ++ o)
  = map (fun j => c_add (atc e j) (c_mul (twiddle h j) (atc o j))) (seqZ 0 h)
    ++ map (fun j => c_sub (atc e j) (c_mul (twiddle h j) (atc o j))) (seqZ 0 h).
Proof.
  intros Hh He Ho.
  destruct (stagePass_spec h 1 (e ++ o) Hh ltac:(lia)) as [Hl Hp];
    [rewrite len_app; lia|].
  apply atc_ext; [rewrite Hl, !len_app, !len_map_seqZ; lia|].
  intros p Hpr. rewrite Hl in Hpr. rewrite (Hp p Hpr). rewrite len_app in Hpr.
  unfold passValue. cbv zeta. rewrite Z.mod_small by lia.
  destruct (Z.ltb_spec p h) as [Hlt|Hge].
  - rewrite (atc_app_l e o), (atc_app_r e o) by lia.
    rewrite (atc_app_l (map _ _)) by (rewrite len_map_seqZ; lia).
    rewrite atc_map_seqZ by lia. repeat f_equal; lia.
  - rewrite (atc_app_l e o), (atc_app_r e o) by lia.
    rewrite (atc_app_r (map _ _)) by (rewrite len_map_seqZ; lia).
    rewrite len_map_seqZ by lia. rewrite atc_map_seqZ by lia. repeat f_equal; lia.
Qed.
End RadixFacts.

Lemma len_evens_odds {A : Type} (x : list A) (n : Z) :
  0 <= n -> len x = 2 * n -> len (evens x) = n /\ len (odds x) = n.
Proof.
  intros Hn Hx. destruct (length_evens_odds x (Z.to_nat n)) as [He Ho].
  - unfold len in Hx. lia.
  - unfold len. lia.
Qed.

Lemma bitReversal_len {A : Type} (k : nat) :
  forall x : list A, len x = 2 ^ Z.of_nat k -> len (bitReversal k x) = 2 ^ Z.of_nat k.
Proof.
  induction k as [|k IH]; intros x Hx; [exact Hx|].
  cbn [bitReversal]. rewrite Nat2Z.inj_succ, Z.pow_succ_r in * by lia.
  destruct (len_evens_odds x (2 ^ Z.of_nat k)) as [He Ho];
    [apply Z.pow_nonneg; lia|exact Hx|].
  rewrite len_app, (IH _ He), (IH _ Ho). lia.
Qed.

Section RecursionFacts.
Context `{MathLib}.

Lemma stagePass_len (size : Z) (x : list complex128) :
  len (stagePass size x) = len x.
Proof.
  unfold stagePass, len. cbv zeta. f_equal.
  apply (for_lt_invariant (fun y => length y = length x)); [|reflexivity].
  intros i y Hy. apply (for_range_invariant (fun z => length z = length x)); [|exact Hy].
  intros j z Hz. now rewrite butterfly_length.
Qed.

Lemma stagesUpTo_len (fuel : nat) :
  forall (size maxSize : Z) (x : list complex128),
    len (stagesUpTo fuel size maxSize x) = len x.
Proof.
  induction fuel as [|fuel IH]; intros size maxSize x; cbn [stagesUpTo]; [reflexivity|].
  destruct (size <=? maxSize); [|reflexivity]. now rewrite IH, stagePass_len.
Qed.

Lemma fftRec_len (k : nat) :
  forall x : list complex128,
    len x = 2 ^ Z.of_nat k -> len (fftRec k x) = 2 ^ Z.of_nat k.
Proof.
  destruct k as [|k]; intros x Hx; [exact Hx|].
  cbn [fftRec]. cbv zeta.
  assert (0 <= 2 ^ Z.of_nat k) by (apply Z.pow_nonneg; lia).
  rewrite len_app, !len_map_seqZ by assumption.
  rewrite Nat2Z.inj_succ, Z.pow_succ_r by lia. lia.
Qed.

(** The stage loop of [fft] is the sequence of passes. *)
Lemma fftStages_stagesUpTo (fuel : nat) :
  forall (size : Z) (x : list complex128) (n : Z),
    len x = n -> fftStages fuel size n x = stagesUpTo fuel size n x.
Proof.
  induction fuel as [|fuel IH]; intros size x n Hn; cbn [fftStages stagesUpTo];
    [reflexivity|].
  destruct (size <=? n); [|reflexivity]. cbv zeta.
  subst n. fold (stagePass size x). apply IH. apply stagePass_len.
Qed.

(** Passes up to a size not above the length of two equal parts act on
    each part alone. *)
Lemma stagesUpTo_app (k m : nat) (fuel : nat) :
  (m <= k)%nat ->
  forall (s : nat) (a b : list complex128),
    (1 <= s)%nat ->
    len a = 2 ^ Z.of_nat k -> len b = 2 ^ Z.of_nat k ->
    stagesUpTo fuel (2 ^ Z.of_nat s) (2 ^ Z.of_nat m) (a ++ b)
    = stagesUpTo fuel (2 ^ Z.of_nat s) (2 ^ Z.of_nat m) a
      ++ stagesUpTo fuel (2 ^ Z.of_nat s) (2 ^ Z.of_nat m) b.
Proof.
  intros Hmk. induction fuel as [|fuel IH]; intros s a b Hs Ha Hb; cbn [stagesUpTo];
    [reflexivity|].
  destruct (Z.leb_spec (2 ^ Z.of_nat s) (2 ^ Z.of_nat m)) as [Hle|]; [|reflexivity].
  assert (Hsm : (s <= m)%nat).
  { apply Z.pow_le_mono_r_iff in Hle; lia. }
  assert (Hsize : 2 ^ Z.of_nat s = 2 * 2 ^ Z.of_nat (s - 1)).
  { rewrite <- Z.pow_succ_r by lia. f_equal. lia. }
  assert (Hblocks : 2 ^ Z.of_nat k = 2 ^ Z.of_nat (k - s) * (2 * 2 ^ Z.of_nat (s - 1))).
  { rewrite <- Hsize, <- Z.pow_add_r by lia. f_equal. lia. }
  assert (Hh : 1 <= 2 ^ Z.of_nat (s - 1)).
  { pose proof (Z.pow_pos_nonneg 2 (Z.of_nat (s - 1))). lia. }
  assert (Hnb : 0 <= 2 ^ Z.of_nat (k - s)) by (apply Z.pow_nonneg; lia).
  assert (Happ : stagePass (2 ^ Z.of_nat s) (a ++ b)
                 = stagePass (2 ^ Z.of_nat s) a ++ stagePass (2 ^ Z.of_nat s) b).
  { rewrite Hsize. apply (stagePass_app _ _ _ a b Hh Hnb Hnb); rewrite ?Ha, ?Hb; exact Hblocks. }
  rewrite Happ.
  replace (2 ^ Z.of_nat s * 2) with (2 ^ Z.of_nat (S s))
    by (rewrite Nat2Z.inj_succ, Z.pow_succ_r; lia).
  apply IH; [lia| |]; now rewrite stagePass_len.
Qed.

(** Splitting off the last pass. *)
Lemma stagesUpTo_last (m : nat) (fuel : nat) :
  forall (s : nat) (y : list complex128),
    (s <= m + 1)%nat -> (m + 2 - s <= fuel)%nat ->
    stagesUpTo fuel (2 ^ Z.of_nat s) (2 ^ Z.of_nat (m + 1)) y
    = stagePass (2 ^ Z.of_nat (m + 1))
        (stagesUpTo fuel (2 ^ Z.of_nat s) (2 ^ Z.of_nat m) y).
Proof.
  induction fuel as [|fuel IH]; intros s y Hs Hfuel; [lia|].
  cbn [stagesUpTo].
  assert (Hdouble : 2 ^ Z.of_nat s * 2 = 2 ^ Z.of_nat (S s))
    by (rewrite Nat2Z.inj_succ, Z.pow_succ_r; lia).
  destruct (Z.leb_spec (2 ^ Z.of_nat s) (2 ^ Z.of_nat (m + 1))) as [_|Hgt].
  2:{ apply Z.pow_lt_mono_r_iff in Hgt; lia. }
  destruct (Z.leb_spec (2 ^ Z.of_nat s) (2 ^ Z.of_nat m)) as [Hle|Hgt].
  - apply Z.pow_le_mono_r_iff in Hle; try lia.
    rewrite Hdouble. apply IH; lia.
  - apply Z.pow_lt_mono_r_iff in Hgt; try lia.
    assert (s = (m + 1)%nat) by lia. subst s.
    rewrite Hdouble. destruct fuel as [|fuel]; [reflexivity|]. cbn [stagesUpTo].
    destruct (Z.leb_spec (2 ^ Z.of_nat (S (m + 1))) (2 ^ Z.of_nat (m + 1))) as [Hle|];
      [|reflexivity].
    apply Z.pow_le_mono_r_iff in Hle; lia.
Qed.

(** The passes applied to the bit-reversed input give the recursion. *)
Lemma stagesUpTo_fftRec (k : nat) :
  forall (x : list complex128) (fuel : nat),
    len x = 2 ^ Z.of_nat k -> (k <= fuel)%nat ->
    stagesUpTo fuel 2 (2 ^ Z.of_nat k) (bitReversal k x) = fftRec k x.
Proof.
  induction k as [|k IH]; intros x fuel Hx Hfuel.
  - cbn [bitReversal fftRec]. destruct fuel; reflexivity.
  - cbn [bitReversal fftRec]. cbv zeta.
    assert (Hpow : 0 < 2 ^ Z.of_nat k) by (apply Z.pow_pos_nonneg; lia).
    destruct (len_evens_odds x (2 ^ Z.of_nat k)) as [He Ho]; [lia| |].
    { rewrite Hx, Nat2Z.inj_succ, Z.pow_succ_r; lia. }
    replace (S k) with (k + 1)%nat by lia.
    change 2 with (2 ^ Z.of_nat 1) at 1.
    rewrite (stagesUpTo_last k fuel 1) by lia.
    rewrite (stagesUpTo_app k k fuel (Nat.le_refl k) 1)
      by (try lia; now apply bitReversal_len).
    change (2 ^ Z.of_nat 1) with 2.
    rewrite (IH (evens x) fuel He), (IH (odds x) fuel Ho) by lia.
    replace (2 ^ Z.of_nat (k + 1)) with (2 * 2 ^ Z.of_nat k)
      by (rewrite Nat2Z.inj_add, Z.pow_add_r; lia).
    apply stagePass_join; [lia| |]; now apply fftRec_len.
Qed.
End RecursionFacts.

Lemma reverseBits_bound (n k : Z) : 0 <= k -> 0 <= reverseBits n k < 2 ^ k.
Proof.
  intros Hk.
  assert (Hnonneg : 0 <= reverseBits n k).
  { apply Z.bits_iff_nonneg_ex. exists k. intros j Hj.
    rewrite reverseBits_testbit by lia. destruct (Z.ltb_spec j k); [lia|reflexivity]. }
  split; [exact Hnonneg|].
  destruct (Z.eq_dec (reverseBits n k) 0) as [->|Hnz]; [apply Z.pow_pos_nonneg; lia|].
  apply Z.log2_lt_pow2; [lia|].
  destruct (Z.lt_ge_cases (Z.log2 (reverseBits n k)) k) as [|Hge]; [assumption|].
  pose proof (Z.bit_log2 (reverseBits n k) ltac:(lia)) as Htop.
  rewrite reverseBits_testbit in Htop by (try apply Z.log2_nonneg; lia).
  destruct (Z.ltb_spec (Z.log2 (reverseBits n k)) k); [lia|discriminate].
Qed.

Lemma reverseBits_twice (n k : Z) :
  0 <= k -> 0 <= n < 2 ^ k -> reverseBits (reverseBits n k) k = n.
Proof.
  intros Hk Hn. apply Z.bits_inj'. intros j Hj. rewrite reverseBits_testbit by lia.
  destruct (Z.ltb_spec j k) as [Hlt|Hge].
  - rewrite reverseBits_testbit by lia.
    destruct (Z.ltb_spec (k - 1 - j) k); [|lia]. f_equal. lia.
  - symmetry. now apply (testbit_high n k).
Qed.

(** The reversal on one more bit: the top bit becomes the lowest. *)
Lemma reverseBits_succ (n k : Z) :
  0 <= k ->
  reverseBits n (k + 1) = 2 * reverseBits (n mod 2 ^ k) k + Z.b2z (Z.testbit n k).
Proof.
  intros Hk. apply Z.bits_inj'. intros j Hj. rewrite reverseBits_testbit by lia.
  destruct (Z.eq_dec j 0) as [->|Hnz].
  - rewrite Z.testbit_0_r. destruct (Z.ltb_spec 0 (k + 1)); [|lia]. f_equal. lia.
  - replace j with (Z.succ (j - 1)) at 3 by lia.
    rewrite Z.testbit_succ_r by lia. rewrite reverseBits_testbit by lia.
    destruct (Z.ltb_spec j (k + 1)), (Z.ltb_spec (j - 1) k); try lia; try reflexivity.
    rewrite Z.mod_pow2_bits_low by lia. f_equal. lia.
Qed.

Section BitReversalFacts.
Context `{MathLib}.

Lemma atc_evens (x : list complex128) (j : Z) :
  0 <= j -> atc (evens x) j = atc x (2 * j).
Proof.
  intros Hj. unfold atc. rewrite nth_evens. f_equal. lia.
Qed.

Lemma atc_odds (x : list complex128) (j : Z) :
  0 <= j -> atc (odds x) j = atc x (2 * j + 1).
Proof.
  intros Hj. unfold atc. rewrite nth_odds. f_equal. lia.
Qed.

(** Entry [p] of the permutation by halves is entry [reverseBits p k]. *)
Lemma atc_bitReversal (k : nat) :
  forall (x : list complex128) (p : Z),
    len x = 2 ^ Z.of_nat k -> 0 <= p < 2 ^ Z.of_nat k ->
    atc (bitReversal k x) p = atc x (reverseBits p (Z.of_nat k)).
Proof.
  induction k as [|k IH]; intros x p Hx Hp.
  - cbn in Hp. assert (p = 0) by lia. subst p. reflexivity.
  - cbn [bitReversal].
    assert (Hpow : 0 < 2 ^ Z.of_nat k) by (apply Z.pow_pos_nonneg; lia).
    assert (HS : 2 ^ Z.of_nat (S k) = 2 * 2 ^ Z.of_nat k)
      by (rewrite Nat2Z.inj_succ, Z.pow_succ_r; lia).
    destruct (len_evens_odds x (2 ^ Z.of_nat k)) as [He Ho]; [lia|lia|].
    replace (Z.of_nat (S k)) with (Z.of_nat k + 1) by lia.
    rewrite reverseBits_succ by lia.
    destruct (Z.lt_ge_cases p (2 ^ Z.of_nat k)) as [Hlt|Hge].
    + rewrite atc_app_l by (rewrite bitReversal_len; lia).
      rewrite (IH _ _ He) by lia.
      rewrite (testbit_high p (Z.of_nat k) (Z.of_nat k)) by lia.
      rewrite Z.mod_small by lia. cbn [Z.b2z].
      rewrite atc_evens by apply reverseBits_bound, Nat2Z.is_nonneg.
      f_equal. lia.
    + rewrite atc_app_r by (rewrite bitReversal_len; lia).
      rewrite bitReversal_len by exact He.
      rewrite (IH _ _ Ho) by lia.
      assert (Hbit : Z.testbit p (Z.of_nat k) = true).
      { apply Z.testbit_true; [lia|].
        replace p with ((p - 2 ^ Z.of_nat k) + 1 * 2 ^ Z.of_nat k) by lia.
        rewrite Z.div_add, Z.div_small by lia. reflexivity. }
      assert (Hmod : p mod 2 ^ Z.of_nat k = p - 2 ^ Z.of_nat k).
      { replace p with ((p - 2 ^ Z.of_nat k) + 1 * 2 ^ Z.of_nat k) at 1 by lia.
        rewrite Z.mod_add, Z.mod_small by lia. reflexivity. }
      rewrite Hbit, Hmod. cbn [Z.b2z].
      rewrite atc_odds by apply reverseBits_bound, Nat2Z.is_nonneg.
      reflexivity.
Qed.

(** The swap loop of [fft] moves entry [reverseBits p k] to [p]. *)
Lemma bitReversal_loop (k : Z) (x0 : list complex128) :
  0 <= k -> len x0 = 2 ^ k ->
  let y := for_range 0 (2 ^ k)
             (fun i x =>
                let rev := reverseBits i k in
                if i <? rev then setc (setc x i (atc x rev)) rev (atc x i) else x)
             x0 in
  len y = len x0 /\
  forall p, 0 <= p < 2 ^ k -> atc y p = atc x0 (reverseBits p k).
Proof.
  intros Hk Hlen. cbv zeta.
  assert (Hpow : 0 < 2 ^ k) by (apply Z.pow_pos_nonneg; lia).
  set (P := fun (i : Z) (y : list complex128) =>
              len y = len x0 /\
              forall p, 0 <= p < 2 ^ k ->
                atc y p = if (p <? i) || (reverseBits p k <? i)
                          then atc x0 (reverseBits p k) else atc x0 p).
  assert (Hend : P (2 ^ k)
                   (for_range 0 (2 ^ k)
                      (fun i x =>
                         if i <? reverseBits i k
                         then setc (setc x i (atc x (reverseBits i k)))
                                   (reverseBits i k) (atc x i)
                         else x)
                      x0)).
  { apply for_range_ind; [lia| |].
    - split; [reflexivity|]. intros p Hp.
      pose proof (reverseBits_bound p k Hk).
      destruct (Z.ltb_spec p 0), (Z.ltb_spec (reverseBits p k) 0); try lia. reflexivity.
    - intros i y Hi [Hyl Hy]. cbv zeta.
      pose proof (reverseBits_bound i k Hk) as Hrev.
      pose proof (reverseBits_twice i k Hk ltac:(lia)) as Hinv.
      set (r := reverseBits i k) in *.
      destruct (Z.ltb_spec i r) as [Hlt|Hge].
      + split; [now rewrite !len_setc|]. intros p Hp.
        pose proof (reverseBits_bound p k Hk) as Hrp.
        pose proof (reverseBits_twice p k Hk Hp) as Hpp.
        rewrite atc_setc by (rewrite ?len_setc; lia).
        destruct (Z.eqb_spec p r) as [->|Hne1].
        * rewrite (Hy i) by lia. rewrite Hinv. fold r.
          destruct (Z.ltb_spec i i), (Z.ltb_spec r i), (Z.ltb_spec r (i + 1)),
            (Z.ltb_spec i (i + 1)); try lia; reflexivity.
        * rewrite atc_setc by lia.
          destruct (Z.eqb_spec p i) as [->|Hne2].
          -- rewrite (Hy r) by lia. rewrite Hinv.
             destruct (Z.ltb_spec r i), (Z.ltb_spec i i), (Z.ltb_spec i (i + 1));
               try lia; reflexivity.
          -- rewrite (Hy p Hp).
             assert (reverseBits p k <> i) by (intros E; rewrite E in Hpp; fold r in Hpp; lia).
             destruct (Z.ltb_spec p i), (Z.ltb_spec p (i + 1)),
               (Z.ltb_spec (reverseBits p k) i), (Z.ltb_spec (reverseBits p k) (i + 1));
               try lia; reflexivity.
      + split; [exact Hyl|]. intros p Hp.
        pose proof (reverseBits_bound p k Hk) as Hrp.
        pose proof (reverseBits_twice p k Hk Hp) as Hpp.
        rewrite (Hy p Hp).
        destruct (Z.eq_dec p i) as [->|Hne].
        * fold r.
          destruct (Z.ltb_spec i i), (Z.ltb_spec r i), (Z.ltb_spec i (i + 1));
            try lia; try reflexivity.
          assert (E : r = i) by lia. now rewrite E.
        * destruct (Z.eq_dec (reverseBits p k) i) as [E|Hne'].
          -- assert (p = r) by (unfold r; rewrite <- E; now rewrite Hpp).
             subst p. rewrite E.
             destruct (Z.ltb_spec r i), (Z.ltb_spec r (i + 1)), (Z.ltb_spec i i),
               (Z.ltb_spec i (i + 1)); try lia; reflexivity.
          -- destruct (Z.ltb_spec p i), (Z.ltb_spec p (i + 1)),
               (Z.ltb_spec (reverseBits p k) i), (Z.ltb_spec (reverseBits p k) (i + 1));
               try lia; reflexivity. }
  destruct Hend as [Hl Hp]. split; [exact Hl|]. intros p Hpr. rewrite (Hp p Hpr).
  destruct (Z.ltb_spec p (2 ^ k)); [reflexivity|lia].
Qed.
End BitReversalFacts.

Section FftTheorem.
Context `{MathLib}.

(** X19: for [n >= 1] values and the least [k] with [n <= 2^k], and
    with a [math.Log2] that is exact on [2^k], the in-place transform
    (swap loop, then the passes of sizes 2, 4, ..., [2^k]) returns, in
    every float arithmetic and operation by operation, what the radix-2
    decimation-in-time recursion gives on the zero-padded input: the
    transforms [E], [O] of the even and odd entries combined to
    [E[j] + w_j * O[j]] and [E[j] - w_j * O[j]]. *)
Theorem X19_fft_is_radix2_recursion (signal : list float64) (k : nat) :
  signal <> [] ->
  len signal <= 2 ^ Z.of_nat k ->
  (k = 0%nat \/ 2 ^ (Z.of_nat k - 1) < len signal) ->
  int_of_f64 (math_Log2 (f64_of_int (2 ^ Z.of_nat k))) = Z.of_nat k ->
  fft signal
  = fftRec k (map (fun v => (v, f64_zero)) signal
              ++ repeat c_zero (Z.to_nat (2 ^ Z.of_nat k - len signal))).
Proof.
  intros Hne Hle Hmin Hlog. unfold fft.
  assert (Hn : 1 <= len signal) by (unfold len; destruct signal; [contradiction|cbn; lia]).
  destruct (Z.eqb_spec (len signal) 0) as [|_]; [lia|]. cbv zeta.
  assert (Hpad : padLoop (length signal) 1 (len signal) = 2 ^ Z.of_nat k).
  { destruct (padLoop_power (length signal) 1 (len signal) 0)
      as (k' & Hk' & Hr & Hle' & Hmin'); [lia|reflexivity|unfold len; lia|].
    rewrite Hr. f_equal.
    destruct (Z.lt_trichotomy k' (Z.of_nat k)) as [Hlt|[Heq|Hgt]]; [|exact Heq|].
    - destruct Hmin as [->|Hmin]; [lia|].
      assert (2 ^ k' <= 2 ^ (Z.of_nat k - 1)) by (apply Z.pow_le_mono_r; lia). lia.
    - destruct Hmin' as [->|Hmin']; [lia|].
      assert (2 ^ Z.of_nat k <= 2 ^ (k' - 1)) by (apply Z.pow_le_mono_r; lia). lia. }
  rewrite Hpad, Hlog.
  set (x0 := map (fun v => (v, f64_zero)) signal
             ++ repeat c_zero (Z.to_nat (2 ^ Z.of_nat k - len signal))).
  assert (Hx0 : len x0 = 2 ^ Z.of_nat k).
  { unfold x0, len. rewrite length_app, length_map, repeat_length. unfold len in *. lia. }
  destruct (bitReversal_loop (Z.of_nat k) x0 (Nat2Z.is_nonneg k) Hx0) as [Hyl Hy].
  cbv zeta in Hyl, Hy.
  match goal with
  | |- context [fftStages _ _ _ ?loop] => set (y := loop) in *
  end.
  assert (Hrev : y = bitReversal k x0).
  { apply atc_ext.
    { unfold complex128 in *. transitivity (2 ^ Z.of_nat k); [now rewrite Hyl|].
      symmetry. apply bitReversal_len. exact Hx0. }
    intros p Hp.
    assert (Hp' : 0 <= p < 2 ^ Z.of_nat k)
      by (unfold complex128 in *; rewrite Hyl, Hx0 in Hp; exact Hp).
    rewrite (Hy p Hp'). symmetry. now apply atc_bitReversal. }
  rewrite fftStages_stagesUpTo
    by (unfold complex128 in *; rewrite Hyl; exact Hx0).
  rewrite Hrev. apply stagesUpTo_fftRec; [exact Hx0|].
  pose proof (Z.pow_gt_lin_r 2 (Z.of_nat k) ltac:(lia) ltac:(lia)). lia.
Qed.
End FftTheorem.

Lemma X19_witness :
  @fft IEEE.ops log2Math [S754_zero false; S754_zero true; S754_zero false]
  = @fftRec IEEE.ops log2Math 2
      (map (fun v => (v, @f64_zero IEEE.ops))
           [S754_zero false; S754_zero true; S754_zero false]
       ++ repeat (@c_zero IEEE.ops) (Z.to_nat (2 ^ Z.of_nat 2 - 3))).
Proof.
  apply (X19_fft_is_radix2_recursion (H0 := log2Math)
           [S754_zero false; S754_zero true; S754_zero false] 2).
  - discriminate.
  - unfold len. cbn. lia.
  - right. unfold len. cbn. lia.
  - reflexivity.
Defined.

(** ** The chunk walk ends *)

Section WalkFacts.
Context `{FloatOps}.

(** With enough fuel for the chunk headers that fit into the file, the
    outcome of the walk does not depend on the fuel. *)
Lemma walkChunks_fuel_irrelevant (data : list byte) (fuel1 : nat) :
  forall (fuel2 : nat) (offset : Z) (fmt : FmtChunk),
    (Z.to_nat ((len data - 8 - offset + 7) / 8) <= fuel1)%nat ->
    (Z.to_nat ((len data - 8 - offset + 7) / 8) <= fuel2)%nat ->
    walkChunks fuel1 data offset fmt = walkChunks fuel2 data offset fmt.
Proof.
  induction fuel1 as [|fuel1 IH]; intros fuel2 offset fmt H1 H2.
  - destruct fuel2 as [|fuel2]; [reflexivity|]. cbn [walkChunks].
    destruct (Z.ltb_spec offset (len data - 8)) as [Hlt|]; [|reflexivity].
    assert (1 <= (len data - 8 - offset + 7) / 8) by (apply Z.div_le_lower_bound; lia).
    lia.
  - destruct fuel2 as [|fuel2].
    + cbn [walkChunks].
      destruct (Z.ltb_spec offset (len data - 8)) as [Hlt|]; [|reflexivity].
      assert (1 <= (len data - 8 - offset + 7) / 8) by (apply Z.div_le_lower_bound; lia).
      lia.
    + rewrite !walkChunks_S.
      destruct (Z.ltb_spec offset (len data - 8)) as [Hlt|]; [|reflexivity].
      destruct (slice data offset (offset + 4)) as [chunkID| | |]; try reflexivity.
      cbn [mbind Res_bind].
      destruct (slice data (offset + 4) (offset + 8)) as [b| | |]; try reflexivity.
      cbn [mbind Res_bind].
      destruct (LittleEndian_Uint32 b) as [chunkSize| | |] eqn:Esize; try reflexivity.
      cbn [mbind Res_bind]. cbv zeta. apply Uint32_nonneg in Esize.
      assert (Hnext : forall fmt',
                walkChunks fuel1 data
                  (if negb (chunkSize mod 2 =? 0) then offset + (8 + chunkSize) + 1
                   else offset + (8 + chunkSize)) fmt'
                = walkChunks fuel2 data
                    (if negb (chunkSize mod 2 =? 0) then offset + (8 + chunkSize) + 1
                     else offset + (8 + chunkSize)) fmt').
      { intros fmt'.
        assert (Hstep : forall o, offset + 8 <= o ->
                  (len data - 8 - o + 7) / 8 <= (len data - 8 - offset + 7) / 8 - 1).
        { intros o Ho.
          replace (len data - 8 - offset + 7) with ((len data - 8 - offset - 8 + 7) + 1 * 8)
            by lia.
          rewrite Z.div_add by lia.
          assert ((len data - 8 - o + 7) / 8 <= (len data - 8 - offset - 8 + 7) / 8)
            by (apply Z.div_le_mono; lia).
          lia. }
        assert (1 <= (len data - 8 - offset + 7) / 8)
          by (apply Z.div_le_lower_bound; lia).
        apply IH; destruct (negb _);
          match goal with
          | |- (Z.to_nat ((len data - 8 - ?o + 7) / 8) <= _)%nat =>
              specialize (Hstep o ltac:(lia)); lia
          end. }
      destruct (bytes_eqb chunkID tag_fmt).
      * destruct (chunkSize <? 16); [reflexivity|].
        destruct (readFmt data offset); cbn [mbind Res_bind]; try reflexivity.
        apply Hnext.
      * destruct (bytes_eqb chunkID tag_data); [reflexivity|apply Hnext].
Qed.

(** X20: whatever sizes the chunks declare, the chunk walk of
    [parseWAV] ends: it reads at most [(len(data) - 13) / 8] chunk
    headers, its outcome with that much fuel is its outcome with any
    more, and [parseWAV] returns samples, an error or a panic on every
    input. *)
Theorem X20_chunk_walk_terminates (data : list byte) (fuel : nat) (fmt : FmtChunk) :
  (Z.to_nat ((len data - 13) / 8) <= fuel)%nat ->
  walkChunks fuel data 12 fmt = walkChunks (length data) data 12 fmt /\
  walkChunks fuel data 12 fmt <> OutOfFuel /\
  parseWAV data <> OutOfFuel.
Proof.
  intros Hfuel.
  assert (Hneed : (len data - 8 - 12 + 7) / 8 = (len data - 13) / 8) by (f_equal; lia).
  assert (Hlen : (Z.to_nat ((len data - 13) / 8) <= length data)%nat).
  { destruct (Z.le_gt_cases 0 (len data - 13)) as [Hpos|Hneg].
    - assert ((len data - 13) / 8 <= len data - 13)
        by (apply Z.div_le_upper_bound; lia).
      unfold len in *. lia.
    - assert ((len data - 13) / 8 < 0) by (apply Z.div_lt_upper_bound; lia). lia. }
  assert (Heq : walkChunks fuel data 12 fmt = walkChunks (length data) data 12 fmt)
    by (apply walkChunks_fuel_irrelevant; rewrite Hneed; assumption).
  split; [exact Heq|]. split; [|apply parseWAV_not_OutOfFuel].
  rewrite Heq. apply walkChunks_not_OutOfFuel. unfold len. lia.
Qed.
End WalkFacts.

Lemma X20_witness :
  @walkChunks IEEE.ops 4 wav45 12
    {| fmt_audioFormat := 0; fmt_numChannels := 0;
       fmt_sampleRate := 0; fmt_bitsPerSample := 0 |} <> OutOfFuel.
Proof.
  refine (proj1 (proj2 (X20_chunk_walk_terminates (H := IEEE.ops) wav45 4 _ _))).
  change (len wav45) with 45. change ((45 - 13) / 8) with 4. lia.
Defined.

(** ** Samples beyond the last frame *)

Section TailFacts.
Context `{FloatOps} `{!MathLib}.

Lemma at32_app_l (a b : list float32) (i : Z) :
  0 <= i < len a -> at32 (a ++ b) i = at32 a i.
Proof. intros Hi. unfold at32. apply app_nth1. unfold len in Hi. lia. Qed.

Lemma melFrame_app (m : MelFilterbank) (pre tail : list float32) (frame : Z) :
  0 <= frame -> 0 <= hopLength m -> 0 <= winLength m ->
  frame * hopLength m + winLength m <= len pre ->
  melFrame m (pre ++ tail) frame = melFrame m pre frame.
Proof.
  intros Hf Hh Hw Hfit. unfold melFrame. cbv zeta. rewrite len_app.
  pose proof (len_nonneg tail) as Ht.
  assert (Hstart : 0 <= frame * hopLength m) by (apply Z.mul_nonneg_nonneg; lia).
  destruct (Z.gtb_spec (frame * hopLength m + winLength m) (len pre + len tail)) as [|_];
    [lia|].
  destruct (Z.gtb_spec (frame * hopLength m + winLength m) (len pre)) as [|_]; [lia|].
  assert (Hwin : windowFrame m (pre ++ tail) (frame * hopLength m)
                   (frame * hopLength m + winLength m)
                 = windowFrame m pre (frame * hopLength m)
                     (frame * hopLength m + winLength m)).
  { unfold windowFrame, for_range. apply for_lt_ext; [lia|]. intros j x Hj.
    rewrite at32_app_l by lia. reflexivity. }
  rewrite Hwin. reflexivity.
Qed.

(** X21: samples after the last complete hop do not reach the
    features: when the buffer [pre] ends exactly with a frame, appending
    fewer than [hopLength] samples changes nothing. *)
Theorem X21_Extract_ignores_incomplete_hop (m : MelFilterbank)
    (pre tail : list float32) :
  0 < hopLength m -> 0 <= winLength m <= len pre ->
  (len pre - winLength m) mod hopLength m = 0 ->
  len tail < hopLength m ->
  Extract m (pre ++ tail) = Extract m pre.
Proof.
  intros Hh Hw Hdiv Ht. unfold Extract. cbv zeta. rewrite len_app.
  pose proof (len_nonneg tail) as Ht0.
  set (q := (len pre - winLength m) / hopLength m).
  assert (Hq : len pre - winLength m = hopLength m * q)
    by (unfold q; apply Z.div_exact; lia).
  assert (Hq0 : 0 <= q) by (unfold q; apply Z.div_pos; lia).
  assert (Hn1 : Z.quot (len pre + len tail - winLength m) (hopLength m) = q).
  { rewrite Z.quot_div_nonneg by lia.
    symmetry. apply (Z.div_unique_pos _ _ q (len tail)); lia. }
  assert (Hn2 : Z.quot (len pre - winLength m) (hopLength m) = q)
    by (rewrite Z.quot_div_nonneg by lia; reflexivity).
  rewrite Hn1, Hn2.
  destruct (Z.leb_spec (q + 1) 0) as [|_]; [reflexivity|].
  f_equal. apply map_ext_in. intros frame Hin.
  apply list_elem_of_In, elem_of_seqZ in Hin.
  apply melFrame_app; try lia. nia.
Qed.
End TailFacts.

Lemma X21_witness :
  @Extract IEEE.ops Double.math (NewMelFilterbank 2 16000)
    (repeat (S754_zero false) 400 ++ [S754_zero true])
  = @Extract IEEE.ops Double.math (NewMelFilterbank 2 16000) (repeat (S754_zero false) 400).
Proof.
  apply (X21_Extract_ignores_incomplete_hop (H0 := Double.math)
           (NewMelFilterbank 2 16000) (repeat (S754_zero false) 400) [S754_zero true]).
  - reflexivity.
  - unfold len. rewrite repeat_length. cbn. lia.
  - unfold len. rewrite repeat_length. reflexivity.
  - reflexivity.
Defined.

(** ** 16-bit mono samples under IEEE-754 *)

Section Mono16.
Context `{FloatOps}.

Lemma convertSample_mono16 (data : list byte) (i : Z) (b0 b1 : byte) :
  0 <= i -> 2 * i + 2 <= len data ->
  data !! Z.to_nat (2 * i) = Some b0 -> data !! Z.to_nat (2 * i + 1) = Some b1 ->
  convertSample data 1 1 16 2 i = Ok (decode16 b0 b1).
Proof.
  intros Hi Hfit H0 H1. unfold convertSample.
  change (Z.to_nat 1) with 1%nat. cbn [sumChannels].
  replace ((i * 1 + 0) * 2) with (2 * i) by lia.
  destruct (Z.gtb_spec (2 * i + 2) (len data)) as [|_]; [lia|].
  assert (Hs : slice data (2 * i) (2 * i + 2) = Ok [b0; b1]).
  { unfold slice. destruct (Z.leb_spec 0 (2 * i)); [|lia].
    destruct (Z.leb_spec (2 * i) (2 * i + 2)); [|lia].
    destruct (Z.leb_spec (2 * i + 2) (len data)); [|lia]. cbn [andb]. f_equal.
    replace (2 * i + 2 - 2 * i) with 2 by lia. change (Z.to_nat 2) with 2%nat.
    apply list_eq. intros [|[|j]].
    - rewrite lookup_take, lookup_drop by lia. rewrite Nat.add_0_r. exact H0.
    - rewrite lookup_take, lookup_drop by lia.
      replace (Z.to_nat (2 * i) + 1)%nat with (Z.to_nat (2 * i + 1)) by lia. exact H1.
    - cbn. apply lookup_take_ge. lia. }
  rewrite (pcmValue_16 _ _ _ _ Hs). reflexivity.
Qed.

(** Every 16-bit mono buffer decodes sample by sample. *)
Lemma convertToFloat32_mono16 (data : list byte) :
  exists samples,
    convertToFloat32 data 1 1 16 = Ok samples /\
    len samples = len data / 2 /\
    forall (i : nat) (y : float32), samples !! i = Some y ->
      exists b0 b1, data !! (2 * i)%nat = Some b0 /\ data !! (2 * i + 1)%nat = Some b1 /\
                    y = decode16 b0 b1.
Proof.
  unfold convertToFloat32. cbn [Z.eqb Pos.eqb negb andb].
  change (16 / 8 * 1) with 2. change (2 =? 0) with false. cbv iota zeta.
  change (16 / 8) with 2.
  pose proof (len_nonneg data) as Hlen.
  assert (Hq : 0 <= len data / 2) by (apply Z.div_pos; lia).
  assert (Hfit : forall i, 0 <= i < len data / 2 -> 2 * i + 2 <= len data).
  { intros i Hi. pose proof (Z.mul_div_le (len data) 2 ltac:(lia)). lia. }
  destruct (mapM_Ok_all (convertSample data 1 1 16 2) (seqZ 0 (len data / 2)))
    as [ys Hys].
  - apply Forall_forall. intros i Hi. apply elem_of_seqZ in Hi.
    specialize (Hfit i ltac:(lia)).
    destruct (lookup_lt_is_Some_2 data (Z.to_nat (2 * i))) as [b0 H0];
      [unfold len in *; lia|].
    destruct (lookup_lt_is_Some_2 data (Z.to_nat (2 * i + 1))) as [b1 H1];
      [unfold len in *; lia|].
    exists (decode16 b0 b1). apply convertSample_mono16; try assumption; lia.
  - exists ys. split; [exact Hys|]. split.
    + unfold len at 1. rewrite (mapM_Ok_length _ _ _ Hys), length_seqZ. lia.
    + intros i y Hy.
      assert (Hi : (i < length ys)%nat) by (apply lookup_lt_is_Some; eauto).
      rewrite (mapM_Ok_length _ _ _ Hys), length_seqZ in Hi.
      destruct (mapM_Ok_lookup _ _ _ i (Z.of_nat i) Hys) as (y' & Hy' & Hconv).
      { rewrite lookup_seqZ. split; lia. }
      rewrite Hy in Hy'. injection Hy' as <-.
      specialize (Hfit (Z.of_nat i) ltac:(lia)).
      destruct (lookup_lt_is_Some_2 data (2 * i)) as [b0 H0]; [unfold len in *; lia|].
      destruct (lookup_lt_is_Some_2 data (2 * i + 1)) as [b1 H1]; [unfold len in *; lia|].
      exists b0, b1. split; [exact H0|]. split; [exact H1|].
      rewrite (convertSample_mono16 data (Z.of_nat i) b0 b1) in Hconv; try lia.
      * now injection Hconv.
      * replace (Z.to_nat (2 * Z.of_nat i)) with (2 * i)%nat by lia. exact H0.
      * replace (Z.to_nat (2 * Z.of_nat i + 1)) with (2 * i + 1)%nat by lia. exact H1.
Qed.
End Mono16.

Lemma IEEE_isQ15b_sound (y : spec_float) (v : Z) :
  IEEE_isQ15b y v = true -> IEEE.to_R y = Some (IZR v / 32768)%R.
Proof.
  destruct y as [s| | |s m e]; cbn [IEEE_isQ15b IEEE.to_R]; try discriminate.
  - intros Hv. apply Z.eqb_eq in Hv. subst v. f_equal. lra.
  - intros Hb. apply andb_prop in Hb as [Hb Hsign]. apply andb_prop in Hb as [He Heq].
    apply Z.ltb_lt in He. apply Z.eqb_eq in Heq.
    destruct (Z.leb_spec 0 e); [lia|]. f_equal.
    assert (Hpow : (0 < IZR (2 ^ (- e)))%R) by (apply IZR_lt, Z.pow_pos_nonneg; lia).
    assert (HeqR : (IZR (Z.pos m) * 32768 = IZR (Z.abs v) * IZR (2 ^ (- e)))%R).
    { rewrite <- !mult_IZR. f_equal. exact Heq. }
    assert (Hq : (IZR (Z.pos m) / IZR (2 ^ (- e)) = IZR (Z.abs v) / 32768)%R).
    { apply (Rmult_eq_reg_r (IZR (2 ^ (- e)) * 32768)); [|lra]. field_simplify; lra. }
    rewrite Hq. destruct s.
    + apply Z.ltb_lt in Hsign. rewrite Z.abs_neq by lia. rewrite opp_IZR. lra.
    + apply Z.ltb_lt in Hsign. rewrite Z.abs_eq by lia. reflexivity.
Qed.

Lemma decode16_checked :
  forallb (fun b0 => forallb (fun b1 =>
             IEEE_isQ15b (@decode16 IEEE.ops b0 b1) (signedLE [b0; b1])) allBytes)
          allBytes = true.
Proof. vm_compute. reflexivity. Qed.

(** X22: under IEEE-754 arithmetic 16-bit mono PCM is decoded without
    any rounding error: for every byte buffer the decoder returns
    [len(data)/2] samples, and sample [i] is exactly the real number
    [v/32768] for the little-endian two's-complement value [v] of the
    bytes [2i] and [2i+1]. *)
Theorem X22_mono16_decoded_exactly (data : list byte) :
  exists samples : list spec_float,
    @convertToFloat32 IEEE.ops data 1 1 16 = Ok samples /\
    len samples = len data / 2 /\
    forall (i : nat) (y : spec_float), samples !! i = Some y ->
      exists b0 b1, data !! (2 * i)%nat = Some b0 /\ data !! (2 * i + 1)%nat = Some b1 /\
                    @real32 IEEE.ops IEEE.reals y
                    = Some (IZR (signedLE [b0; b1]) / 32768)%R.
Proof.
  destruct (convertToFloat32_mono16 (H := IEEE.ops) data) as (samples & Hs & Hl & Hv).
  exists samples. split; [exact Hs|]. split; [exact Hl|].
  intros i y Hy. destruct (Hv i y Hy) as (b0 & b1 & H0 & H1 & ->).
  exists b0, b1. split; [exact H0|]. split; [exact H1|].
  pose proof decode16_checked as Hall. rewrite forallb_forall in Hall.
  specialize (Hall b0 (allBytes_complete b0)). rewrite forallb_forall in Hall.
  specialize (Hall b1 (allBytes_complete b1)).
  exact (IEEE_isQ15b_sound _ _ Hall).
Qed.

(** ** Timestamps *)

Lemma fmt_0d_two (n : Z) : 0 <= n < 100 -> fmt_0d 2 n = twoDigits n.
Proof.
  intros Hn.
  assert (Hall : forallb (fun n => String.eqb (fmt_0d 2 n) (twoDigits n)) (seqZ 0 100)
                 = true) by (vm_compute; reflexivity).
  rewrite forallb_forall in Hall. apply String.eqb_eq, Hall.
  apply list_elem_of_In, elem_of_seqZ. lia.
Qed.

Lemma fmt_0d_three (n : Z) : 0 <= n < 1000 -> fmt_0d 3 n = threeDigits n.
Proof.
  intros Hn.
  assert (Hall : forallb (fun n => String.eqb (fmt_0d 3 n) (threeDigits n)) (seqZ 0 1000)
                 = true) by (vm_compute; reflexivity).
  rewrite forallb_forall in Hall. apply String.eqb_eq, Hall.
  apply list_elem_of_In, elem_of_seqZ. lia.
Qed.

Lemma clock_fields (whole : Z) :
  0 <= whole < 360000 ->
  0 <= whole / 3600 < 100 /\ 0 <= whole mod 3600 / 60 < 60 /\ 0 <= whole mod 60 < 60 /\
  whole / 3600 * 3600 + whole mod 3600 / 60 * 60 + whole mod 60 = whole.
Proof.
  intros Hw.
  pose proof (Z.mod_pos_bound whole 3600 ltac:(lia)).
  pose proof (Z.mod_pos_bound whole 60 ltac:(lia)).
  pose proof (Z.div_mod whole 3600 ltac:(lia)) as Hd.
  pose proof (Z.div_mod (whole mod 3600) 60 ltac:(lia)).
  assert (Hmm : (whole mod 3600) mod 60 = whole mod 60).
  { rewrite Hd at 2.
    replace (3600 * (whole / 3600) + whole mod 3600)
      with (whole mod 3600 + (60 * (whole / 3600)) * 60) by lia.
    rewrite Z.mod_add by lia. reflexivity. }
  repeat split; lia.
Qed.

Lemma formatTime_clock `{FloatOps} (seconds : float64) :
  let whole := int_of_f64 seconds in
  let millis := int_of_f64 (f64_mul (f64_sub seconds (f64_of_int whole))
                                    (f64_const 1000)) in
  0 <= whole < 360000 -> 0 <= millis < 1000 ->
  formatSRTTime seconds = clock "," whole millis /\
  formatVTTTime seconds = clock "." whole millis.
Proof.
  intros whole millis Hw Hm.
  destruct (clock_fields whole Hw) as (Hhr & Hmin & Hsec & _).
  unfold formatSRTTime, formatVTTTime, clock. cbv zeta. fold whole. fold millis.
  rewrite (Z.rem_mod_nonneg whole 3600), (Z.rem_mod_nonneg whole 60) by lia.
  rewrite (Z.quot_div_nonneg whole 3600) by lia.
  rewrite (Z.quot_div_nonneg (whole mod 3600) 60)
    by (try apply Z.mod_pos_bound; lia).
  rewrite (fmt_0d_two (whole / 3600)), (fmt_0d_two (whole mod 3600 / 60)),
    (fmt_0d_two (whole mod 60)), fmt_0d_three by lia.
  split; reflexivity.
Qed.

Lemma clock_length (sep : ascii) (whole millis : Z) :
  String.length (clock (String sep EmptyString) whole millis) = 12%nat.
Proof. reflexivity. Qed.

(** X23: in any float arithmetic, when the conversions give whole
    seconds [0 <= whole < 360000] (fewer than 100 hours) and milliseconds
    [0 <= millis < 1000], [formatSRTTime] returns the 12 characters
    [HH:MM:SS,mmm] and [formatVTTTime] the same with a dot: two digits
    of [whole / 3600], of [whole mod 3600 / 60] and of [whole mod 60],
    three digits of [millis]; minutes and seconds are below 60 and the
    three fields recompose to [whole]. *)
Theorem X23_timestamps_well_formed `{FloatOps} (seconds : float64)
  (Hwhole : 0 <= int_of_f64 seconds < 360000)
  (Hmillis : 0 <= int_of_f64 (f64_mul (f64_sub seconds (f64_of_int (int_of_f64 seconds)))
                                      (f64_const 1000)) < 1000) :
  let whole := int_of_f64 seconds in
  let millis := int_of_f64 (f64_mul (f64_sub seconds (f64_of_int whole))
                                    (f64_const 1000)) in
  formatSRTTime seconds
  = (twoDigits (whole / 3600) +:+ ":" +:+ twoDigits (whole mod 3600 / 60) +:+ ":"
     +:+ twoDigits (whole mod 60) +:+ "," +:+ threeDigits millis)%string /\
  formatVTTTime seconds
  = (twoDigits (whole / 3600) +:+ ":" +:+ twoDigits (whole mod 3600 / 60) +:+ ":"
     +:+ twoDigits (whole mod 60) +:+ "." +:+ threeDigits millis)%string /\
  String.length (formatSRTTime seconds) = 12%nat /\
  String.length (formatVTTTime seconds) = 12%nat /\
  0 <= whole mod 3600 / 60 < 60 /\ 0 <= whole mod 60 < 60 /\
  whole / 3600 * 3600 + whole mod 3600 / 60 * 60 + whole mod 60 = whole.
Proof.
  intros whole millis.
  destruct (formatTime_clock seconds Hwhole Hmillis) as [Hsrt Hvtt].
  destruct (clock_fields whole Hwhole) as (_ & Hmin & Hsec & Hsum).
  fold whole in Hsrt, Hvtt. fold millis in Hsrt, Hvtt.
  split; [exact Hsrt|]. split; [exact Hvtt|].
  split; [rewrite Hsrt; reflexivity|]. split; [rewrite Hvtt; reflexivity|].
  split; [exact Hmin|]. split; [exact Hsec|exact Hsum].
Qed.

Lemma X23_witness :
  @formatSRTTime IEEE.ops (@f64_div IEEE.ops (@f64_of_int IEEE.ops 7451) (@f64_const IEEE.ops 2))
  = "01:02:05,500"%string.
Proof.
  refine (eq_trans (proj1 (X23_timestamps_well_formed (H := IEEE.ops)
            (@f64_div IEEE.ops (@f64_of_int IEEE.ops 7451) (@f64_const IEEE.ops 2)) _ _)) _).
  - vm_compute. split; [discriminate|reflexivity].
  - vm_compute. split; [discriminate|reflexivity].
  - vm_compute. reflexivity.
Defined.

(** In exact arithmetic the duration of an upload of [n] bytes has
    [n / 32000] whole seconds and [n mod 32000 / 32] milliseconds. *)
Lemma Exact_uploadDuration (audioData : list byte) :
  let seconds := @uploadDuration Exact.ops audioData in
  @int_of_f64 Exact.ops seconds = len audioData / 32000 /\
  @int_of_f64 Exact.ops
     (@f64_mul Exact.ops
        (@f64_sub Exact.ops seconds (@f64_of_int Exact.ops (@int_of_f64 Exact.ops seconds)))
        (@f64_const Exact.ops 1000))
  = len audioData mod 32000 / 32.
Proof.
  intros seconds.
  assert (Hn : 0 <= len audioData) by (unfold len; lia).
  assert (Hs : seconds = (IZR (len audioData) / IZR 32000)%R).
  { unfold seconds, uploadDuration. cbn [f64_div f64_of_int f64_const Exact.ops].
    f_equal. unfold Q2R. cbn. change (16000 * 2) with 32000.
    change (Z.pos (1 * 1)) with 1. lra. }
  assert (Hw : @int_of_f64 Exact.ops seconds = len audioData / 32000).
  { rewrite Hs. cbn [int_of_f64 Exact.ops]. apply Exact_truncate_quotient; lia. }
  split; [exact Hw|].
  rewrite Hw. cbn [int_of_f64 f64_mul f64_sub f64_of_int f64_const Exact.ops].
  replace ((seconds - IZR (len audioData / 32000)) * Q2R 1000)%R
    with (IZR (len audioData mod 32000) / IZR 32)%R.
  - apply Exact_truncate_quotient; [|lia].
    apply Z.mod_pos_bound. lia.
  - rewrite Hs. pose proof (Z.div_mod (len audioData) 32000 ltac:(lia)) as Hd.
    assert (HR : IZR (len audioData)
                 = (32000 * IZR (len audioData / 32000) + IZR (len audioData mod 32000))%R).
    { rewrite Hd at 1. rewrite plus_IZR, mult_IZR. reflexivity. }
    rewrite HR. unfold Q2R. cbn. field.
Qed.


